(** * Toolbox: the doubly linked [List] and the [Sorting] algorithms

    A shallow embedding of [src/Toolbox/Sorting.h] and [src/Toolbox/List.h].

    - [size_t] values are integers in [0, 2^64) with the wrap-around of the
      unsigned arithmetic written out ([size_t]).
    - Code that throws, or that has undefined behaviour, runs in a state
      monad [M] whose outcome is a value or a [failure]; the state that is
      returned next to a failure is the state at the point of the throw.
    - The templates of [Sorting] only use [operator[]] of their collection:
      they are written once over the class [Indexable], which has an
      instance for plain arrays and one for [List].
    - A [List] lives in a heap of nodes and a heap of elements, addressed by
      locations; [previous], [data] and [next] are pointers into them. *)

From stdpp Require Import base numbers option list gmap sorting.
From Stdlib Require Import ZArith Lia.

Local Open Scope Z_scope.

(** ** Machine integers *)

Definition SIZE_MAX : Z := 2 ^ 64 - 1.

(** The value of an unsigned 64-bit expression. *)
Definition size_t (x : Z) : Z := x mod 2 ^ 64.

(** The conversion of a [size_t] to [ptrdiff_t]. *)
Definition ptrdiff_t (x : Z) : Z :=
  if decide (size_t x < 2 ^ 63) then size_t x else size_t x - 2 ^ 64.

(** ** Outcomes and the monad of the embedding *)

Inductive failure : Type :=
  | runtime_error (Index Size : Z)
      (* "ERROR: Index <Index> is out of bounds of the list of size <Size>." *)
  | undefined_behaviour
      (* a null or dangling pointer is dereferenced, an array is indexed
         out of its bounds, a signed integer overflows *)
  | out_of_fuel.
      (* the model's bound on a loop or a recursion is used up *)

Inductive outcome (A : Type) : Type :=
  | Return (a : A)
  | Fail (f : failure).
Arguments Return {A} a.
Arguments Fail {A} f.

Definition M (S A : Type) : Type := S -> outcome A * S.

Definition ret {S A} (a : A) : M S A := fun s => (Return a, s).
Definition fail {S A} (f : failure) : M S A := fun s => (Fail f, s).
Definition bind {S A B} (m : M S A) (k : A -> M S B) : M S B :=
  fun s => match m s with
           | (Return a, s') => k a s'
           | (Fail f, s') => (Fail f, s')
           end.
Definition get_state {S} : M S S := fun s => (Return s, s).
Definition put_state {S} (s : S) : M S unit := fun _ => (Return tt, s).

Declare Scope monad_scope.
Delimit Scope monad_scope with monad.
Notation "x <- m ;; k" := (bind m (fun x => k))
  (at level 100, m at level 99, k at level 200, right associativity,
   format "'[v' x  <-  m  ;; '/' k ']'") : monad_scope.
Notation "m ;;; k" := (bind m (fun _ => k))
  (at level 100, k at level 200, right associativity,
   format "'[v' m  ;;; '/' k ']'") : monad_scope.
Local Open Scope monad_scope.

(** A pointer that is dereferenced: null is undefined behaviour. *)
Definition deref {S A} (p : option A) : M S A :=
  match p with
  | Some a => ret a
  | None => fail undefined_behaviour
  end.

(** ** Loops *)

(** What the body of a loop asks for: the next iteration with the loop's
    local variables [a], or a [return r] out of the enclosing function. *)
Inductive flow (A R : Type) : Type :=
  | Next (a : A)
  | Done (r : R).
Arguments Next {A R} a.
Arguments Done {A R} r.

(** [n] iterations of [for (size_t Index = ...; ...; ++Index)]. *)
Fixpoint for_loop {S A R} (n : nat) (Index : Z) (a : A)
    (body : Z -> A -> M S (flow A R)) : M S (flow A R) :=
  match n with
  | O => ret (Next a)
  | S n' =>
      r <- body Index a ;;
      match r with
      | Next a' => for_loop n' (size_t (Index + 1)) a' body
      | Done x => ret (Done x)
      end
  end.

(** [for (size_t Index = Low; Index < High; ++Index)] with [Low] and [High]
    fixed: [High - Low] iterations when [Low < High], none otherwise. *)
Definition for_range {S A R} (Low High : Z) (a : A)
    (body : Z -> A -> M S (flow A R)) : M S (flow A R) :=
  for_loop (Z.to_nat (High - Low)) Low a body.

(** [while (cond) body], at most [fuel] iterations. *)
Fixpoint while_loop {S A} (fuel : nat) (cond : A -> bool)
    (body : A -> M S A) (a : A) : M S A :=
  if cond a then
    match fuel with
    | O => fail out_of_fuel
    | S fuel' => a' <- body a ;; while_loop fuel' cond body a'
    end
  else ret a.

(** ** The element type *)

(** [Type]'s [operator>] and [operator==]. *)
Class Greater (T : Type) := greater : T -> T -> bool.
Class Equal (T : Type) := equal : T -> T -> bool.

#[export] Instance Z_Greater : Greater Z := Z.gtb.
#[export] Instance Z_Equal : Equal Z := Z.eqb.

(** ** Collections with [operator[]] *)

(** [subscript i] is [Collection[i]]: it gives a reference, which is read
    with [load] and assigned with [store]. *)
Class Indexable (C T : Type) := {
  ref : Type;
  subscript : Z -> M C ref;
  load : ref -> M C T;
  store : ref -> T -> M C unit
}.
Arguments ref C T {_}.

(** ** Sorting.h *)

Module Sorting.
Section Sorting.
Context {C T : Type} `{!Indexable C T} `{!Greater T}.

(** [GreaterThan]: [Left > Right]. *)
Definition GreaterThan (Left Right : T) : bool := greater Left Right.

(** The rvalue [Collection[Index]]. *)
Definition at_index (Index : Z) : M C T :=
r <- subscript Index ;; load r.

(** [Collection[To] = Collection[From]]. *)
Definition assign_index (To From : Z) : M C unit :=
v <- at_index From ;; r <- subscript To ;; store r v.

(** [Collection[To] = Value]. *)
Definition set_index (To : Z) (Value : T) : M C unit :=
r <- subscript To ;; store r Value.

(** [const Type Swapped = Collection[I]; Collection[I] = Collection[J];
  Collection[J] = Swapped;] *)
Definition swap_index (I J : Z) : M C unit :=
Swapped <- at_index I ;;
assign_index I J ;;;
set_index J Swapped.

Definition IsSorted (Size : Z) (Comparer : T -> T -> bool) : M C bool :=
r <- for_range 0 (size_t (Size - 1)) tt (fun Index _ =>
       a <- at_index Index ;;
       b <- at_index (size_t (Index + 1)) ;;
       if Comparer a b then ret (Done false) else ret (Next tt)) ;;
match r with
| Done b => ret b
| Next _ => ret true
end.

Definition BubbleSort (Size : Z) (Comparer : T -> T -> bool) : M C unit :=
for_range 0 (size_t (Size - 1)) tt (fun Left _ =>
  r <- for_range (R := Empty_set) 0 (size_t (Size - Left - 1)) false
         (fun Right HasSwapped =>
            a <- at_index Right ;;
            b <- at_index (size_t (Right + 1)) ;;
            if Comparer a b then
              swap_index Right (size_t (Right + 1)) ;;;
              ret (Next true)
            else ret (Next HasSwapped)) ;;
  match r with
  | Next HasSwapped =>
      if negb HasSwapped then ret (Done tt) else ret (Next tt)
  | Done e => match e with end
  end) ;;;
ret tt.

(** [Type* Buffer = new Type[Size]; for (Index < Size)
  Buffer[Index] = Collection[From + Index];]  The buffer is the list
  of the values read, in the order of the indices. *)
Definition copy_out (From Size : Z) : M C (list T) :=
r <- for_range (R := Empty_set) 0 Size [] (fun Index Buffer =>
       v <- at_index (size_t (From + Index)) ;;
       ret (Next (Buffer ++ [v]))) ;;
match r with
| Next Buffer => ret Buffer
| Done e => match e with end
end.

(** [Buffer[Index]] of a local array. *)
Definition buffer_at (Buffer : list T) (Index : Z) : M C T :=
deref (Buffer !! Z.to_nat Index).

(** The local variables of [Merge] that its three loops change: the
  parameters [Begin], [End] and [Middle], reused as cursors. *)
Record cursors : Type := Cursors { Begin_ : Z; End_ : Z; Middle_ : Z }.

Definition take_left (Left : list T) (c : cursors) : M C cursors :=
v <- buffer_at Left (Begin_ c) ;;
set_index (Middle_ c) v ;;;
ret (Cursors (size_t (Begin_ c + 1)) (End_ c) (size_t (Middle_ c + 1))).

Definition take_right (Right : list T) (c : cursors) : M C cursors :=
v <- buffer_at Right (End_ c) ;;
set_index (Middle_ c) v ;;;
ret (Cursors (Begin_ c) (size_t (End_ c + 1)) (size_t (Middle_ c + 1))).

Definition Merge (Begin Middle End : Z) (Comparer : T -> T -> bool)
  : M C unit :=
let LeftSize := size_t (Middle - Begin + 1) in
Left <- copy_out Begin LeftSize ;;
let RightSize := size_t (End - Middle) in
Right <- copy_out (size_t (Middle + 1)) RightSize ;;
let fuel := Z.to_nat (LeftSize + RightSize) in
c <- while_loop fuel
       (fun c => bool_decide (Begin_ c < LeftSize)
                 && bool_decide (End_ c < RightSize))
       (fun c =>
          l <- buffer_at Left (Begin_ c) ;;
          r <- buffer_at Right (End_ c) ;;
          if negb (Comparer l r) then take_left Left c
          else take_right Right c)
       (Cursors 0 0 Begin) ;;
c <- while_loop fuel (fun c => bool_decide (Begin_ c < LeftSize))
       (take_left Left) c ;;
c <- while_loop fuel (fun c => bool_decide (End_ c < RightSize))
       (take_right Right) c ;;
ret tt.

Fixpoint RecursiveMergeSort (fuel : nat) (Begin End : Z)
  (Comparer : T -> T -> bool) : M C unit :=
match fuel with
| O => fail out_of_fuel
| S fuel' =>
    if decide (Begin >= End) then ret tt
    else
      let Middle := size_t (Begin + End) / 2 in
      RecursiveMergeSort fuel' Begin Middle Comparer ;;;
      RecursiveMergeSort fuel' (size_t (Middle + 1)) End Comparer ;;;
      Merge Begin Middle End Comparer
end.

(** [Pivot] is a reference ([const Type&]): it is read again at every
  comparison. *)
Definition Partition (Low High : Z) (Pivot : ref C T)
  (Comparer : T -> T -> bool) : M C Z :=
r <- for_range (R := Empty_set) Low High Low (fun Index PivotIndex =>
       x <- at_index Index ;;
       p <- load Pivot ;;
       if negb (Comparer x p) then
         swap_index PivotIndex Index ;;;
         ret (Next (size_t (PivotIndex + 1)))
       else ret (Next PivotIndex)) ;;
match r with
| Next PivotIndex =>
    swap_index PivotIndex High ;;;
    ret PivotIndex
| Done e => match e with end
end.

(** The call of [Partition] has four arguments: its [Comparer] is the
  default one, [GreaterThan], whatever [Comparer] is here. *)
Fixpoint RecursiveQuickSort (fuel : nat) (Low High : Z)
  (Comparer : T -> T -> bool) : M C unit :=
match fuel with
| O => fail out_of_fuel
| S fuel' =>
    if decide (Low >= High) then ret tt
    else
      Pivot <- subscript High ;;
      PivotIndex <- Partition Low High Pivot GreaterThan ;;
      (if decide (PivotIndex > 0)
       then RecursiveQuickSort fuel' Low (size_t (PivotIndex - 1)) Comparer
       else ret tt) ;;;
      RecursiveQuickSort fuel' (size_t (PivotIndex + 1)) High Comparer
end.

(** The depth of either recursion on the range [0 .. Size - 1] is at
  most the length of the range. *)
Definition depth (Size : Z) : nat := S (Z.to_nat (size_t (Size - 1))).

Definition MergeSort (Size : Z) (Comparer : T -> T -> bool) : M C unit :=
RecursiveMergeSort (depth Size) 0 (size_t (Size - 1)) Comparer.

Definition QuickSort (Size : Z) (Comparer : T -> T -> bool) : M C unit :=
RecursiveQuickSort (depth Size) 0 (size_t (Size - 1)) Comparer.

End Sorting.
End Sorting.

(** ** Plain arrays as collections *)

(** A C array of elements: [Collection[i]] is the [i]-th cell, and an index
    outside the array is undefined behaviour. *)
Section Array.
Context {T : Type}.

Definition array_subscript (Index : Z) : M (list T) nat :=
  fun a => if decide (0 <= Index < Z.of_nat (length a))
           then (Return (Z.to_nat Index), a)
           else (Fail undefined_behaviour, a).

Definition array_load (r : nat) : M (list T) T :=
  fun a => match a !! r with
           | Some v => (Return v, a)
           | None => (Fail undefined_behaviour, a)
           end.

Definition array_store (r : nat) (v : T) : M (list T) unit :=
  fun a => if decide (r < length a)%nat
           then (Return tt, <[r := v]> a)
           else (Fail undefined_behaviour, a).

#[export] Instance array_Indexable : Indexable (list T) T := {
  ref := nat;
  subscript := array_subscript;
  load := array_load;
  store := array_store
}.
End Array.

(** ** List.h *)

Definition loc : Type := positive.

(** The signed arithmetic of [ptrdiff_t]: an overflow is undefined. *)
Definition signed {S} (x : Z) : M S Z :=
  if decide (- 2 ^ 63 <= x < 2 ^ 63) then ret x else fail undefined_behaviour.

(** [n] times [a = f(a)]. *)
Fixpoint repeat_m {S A} (n : nat) (f : A -> M S A) (a : A) : M S A :=
  match n with
  | O => ret a
  | S n' => a' <- f a ;; repeat_m n' f a'
  end.

Module LinkedList.

(** [struct Node]: three pointers. *)
Record Node : Type := mkNode {
  previous : option loc;
  data : option loc;
  next : option loc
}.

(** [Node(std::nullptr_t)], the value of the sentinel [NIL]. *)
Definition NIL : Node := mkNode None None None.

(** The members [size], [head] and [tail] of a list, and the memory its
    nodes and elements are allocated in. *)
Record State (T : Type) : Type := mkState {
  nodes : gmap loc Node;
  elements : gmap loc T;
  size : Z;
  head : option loc;
  tail : option loc
}.
Arguments mkState {T} _ _ _ _ _.
Arguments nodes {T} _.
Arguments elements {T} _.
Arguments size {T} _.
Arguments head {T} _.
Arguments tail {T} _.

Section List.
Context {T : Type} `{!Greater T} `{!Equal T}.

Local Abbreviation State := (State T).

(** *** Memory *)

Definition read_node (p : loc) : M State Node :=
fun s => match nodes s !! p with
         | Some n => (Return n, s)
         | None => (Fail undefined_behaviour, s)
         end.

Definition write_node (p : loc) (n : Node) : M State unit :=
fun s => match nodes s !! p with
         | Some _ =>
             (Return tt, mkState (<[p := n]> (nodes s)) (elements s)
                                 (size s) (head s) (tail s))
         | None => (Fail undefined_behaviour, s)
         end.

Definition read_element (d : loc) : M State T :=
fun s => match elements s !! d with
         | Some v => (Return v, s)
         | None => (Fail undefined_behaviour, s)
         end.

Definition write_element (d : loc) (v : T) : M State unit :=
fun s => match elements s !! d with
         | Some _ =>
             (Return tt, mkState (nodes s) (<[d := v]> (elements s))
                                 (size s) (head s) (tail s))
         | None => (Fail undefined_behaviour, s)
         end.

(** [new Type(Value)] *)
Definition new_element (Value : T) : M State loc :=
fun s => let d := fresh (dom (elements s)) in
         (Return d, mkState (nodes s) (<[d := Value]> (elements s))
                            (size s) (head s) (tail s)).

(** [new Node(Value, Previous, Next)]: the constructor allocates the
  copy of [Value]. *)
Definition new_Node (Value : T) (Previous Next : option loc)
  : M State loc :=
d <- new_element Value ;;
fun s => let p := fresh (dom (nodes s)) in
         (Return p,
          mkState (<[p := mkNode Previous (Some d) Next]> (nodes s))
                  (elements s) (size s) (head s) (tail s)).

(** [delete p->data; p->data = nullptr; delete p;] *)
Definition delete_Node (p : loc) : M State unit :=
n <- read_node p ;;
(match data n with
 | None => ret tt
 | Some d =>
     fun s => match elements s !! d with
              | Some _ =>
                  (Return tt, mkState (nodes s) (delete d (elements s))
                                      (size s) (head s) (tail s))
              | None => (Fail undefined_behaviour, s)
              end
 end) ;;;
fun s => (Return tt, mkState (delete p (nodes s)) (elements s)
                             (size s) (head s) (tail s)).

Definition set_size (n : Z) : M State unit :=
fun s => (Return tt, mkState (nodes s) (elements s) n (head s) (tail s)).
Definition set_head (p : option loc) : M State unit :=
fun s => (Return tt, mkState (nodes s) (elements s) (size s) p (tail s)).
Definition set_tail (p : option loc) : M State unit :=
fun s => (Return tt, mkState (nodes s) (elements s) (size s) (head s) p).

(** [p->previous = q] and [p->next = q] *)
Definition set_previous (p : loc) (q : option loc) : M State unit :=
n <- read_node p ;; write_node p (mkNode q (data n) (next n)).
Definition set_next (p : loc) (q : option loc) : M State unit :=
n <- read_node p ;; write_node p (mkNode (previous n) (data n) q).

(** *** Node: the operators, on a [Node] object that is a local copy *)

(** [operator++()] *)
Definition pre_increment (this : Node) : M State Node :=
match next this with
| None => ret NIL
| Some p => read_node p
end.

(** [operator--()] *)
Definition pre_decrement (this : Node) : M State Node :=
match previous this with
| None => ret NIL
| Some p => read_node p
end.

(** [operator+=(Count)] *)
Definition add_assign (this : Node) (Count : Z) : M State Node :=
this <- repeat_m (Z.to_nat Count) pre_increment this ;;
repeat_m (Z.to_nat (- Count)) pre_decrement this.

(** [operator-=(Count)] *)
Definition sub_assign (this : Node) (Count : Z) : M State Node :=
this <- repeat_m (Z.to_nat Count) pre_decrement this ;;
repeat_m (Z.to_nat (- Count)) pre_increment this.

(** [operator+(Count)], on the node at [this]; the result is a
  reference to a node. *)
Definition plus (this : loc) (Count : Z) : M State loc :=
if decide (Count = 0) then ret this
else
  Copy <- read_node this ;;
  c <- signed (Count - 1) ;;
  Copy <- add_assign Copy c ;;
  deref (next Copy).

(** [operator-(Count)] *)
Definition minus (this : loc) (Count : Z) : M State loc :=
if decide (Count = 0) then ret this
else
  Copy <- read_node this ;;
  c <- signed (Count + 1) ;;
  Copy <- sub_assign Copy c ;;
  deref (previous Copy).

(** [operator*()]: a reference to the element. *)
Definition element_of (p : loc) : M State loc :=
n <- read_node p ;; deref (data n).

(** *** List: getters *)

Definition Size : M State Z := s <- get_state ;; ret (size s).

Definition IsValidIndex (Index : Z) : M State bool :=
s <- get_state ;; ret (bool_decide (Index < size s)).

Definition IsEmpty : M State bool :=
s <- get_state ;; ret (bool_decide (size s = 0)).

Definition throw_out_of_bounds {A} (Index : Z) : M State A :=
s <- get_state ;; fail (runtime_error Index (size s)).

Definition Traverse (Index : Z) : M State loc :=
valid <- IsValidIndex Index ;;
if negb valid then throw_out_of_bounds Index
else
  s <- get_state ;;
  if decide (Index > size s / 2) then
    t <- deref (tail s) ;;
    minus t (ptrdiff_t (size_t (size s - Index - 1)))
  else
    h <- deref (head s) ;;
    plus h (ptrdiff_t Index).

(** [operator[]] *)
Definition subscript_ (Index : Z) : M State loc :=
valid <- IsValidIndex Index ;;
if negb valid then throw_out_of_bounds Index
else p <- Traverse Index ;; element_of p.

Definition Get (Index : Z) : M State loc := subscript_ Index.
Definition Front : M State loc := subscript_ 0.
Definition Back : M State loc :=
s <- get_state ;; subscript_ (size_t (size s - 1)).

(** [begin()], copied into the iterator of a range-based [for]. *)
Definition begin : M State Node :=
s <- get_state ;;
match head s with
| None => ret NIL
| Some h => read_node h
end.

(** [for (auto& Element : *this)]: the iterator [it] is a [Node], the
  loop ends when [it == NIL], which compares the [data] pointers. *)
Fixpoint range_for {S A R} (incr : Node -> M S Node) (fuel : nat)
  (it : Node) (a : A) (body : loc -> A -> M S (flow A R))
  : M S (flow A R) :=
match data it with
| None => ret (Next a)
| Some Element =>
    match fuel with
    | O => fail out_of_fuel
    | S fuel' =>
        r <- body Element a ;;
        match r with
        | Next a' =>
            it' <- incr it ;; range_for incr fuel' it' a' body
        | Done x => ret (Done x)
        end
    end
end.

(** A walk that visits more nodes than are allocated never ends. *)
Definition walk_fuel (s : State) : nat := S (base.size (nodes s)).

Definition for_each {A R} (a : A) (body : loc -> A -> M State (flow A R))
  : M State (flow A R) :=
it <- begin ;;
s <- get_state ;;
range_for pre_increment (walk_fuel s) it a body.

Definition Find (Value : T) : M State Z :=
r <- for_each 0 (fun Element Index =>
       e <- read_element Element ;;
       if equal Value e then ret (Done Index)
       else Index' <- signed (Index + 1) ;; ret (Next Index')) ;;
match r with
| Done Index => ret Index
| Next _ => ret (-1)
end.

Fixpoint FindLast_loop (fuel : nat) (Value : T) (Index : Z)
  (Node : option loc) : M State Z :=
match Node with
| None => ret (-1)
| Some p =>
    match fuel with
    | O => fail out_of_fuel
    | S fuel' =>
        d <- element_of p ;;
        e <- read_element d ;;
        if equal Value e then ret Index
        else
          Index' <- signed (Index - 1) ;;
          n <- read_node p ;;
          FindLast_loop fuel' Value Index' (previous n)
    end
end.

Definition FindLast (Value : T) : M State Z :=
s <- get_state ;;
FindLast_loop (walk_fuel s) Value (ptrdiff_t (size_t (size s - 1)))
              (tail s).

Definition Contains (Value : T) : M State bool :=
i <- Find Value ;; ret (negb (bool_decide (i = -1))).

Definition Total (Value : T) : M State Z :=
r <- for_each (R := Empty_set) 0 (fun Element Total =>
       e <- read_element Element ;;
       if equal Value e then ret (Next (size_t (Total + 1)))
       else ret (Next Total)) ;;
match r with
| Next Total => ret Total
| Done e => match e with end
end.

(** The list as the [CollectionType] of [Sorting]. *)
#[export] Instance List_Indexable : Indexable State T := {
ref := loc;
subscript := subscript_;
load := read_element;
store := write_element
}.

Definition IsSorted : M State bool :=
s <- get_state ;; Sorting.IsSorted (size s) Sorting.GreaterThan.

(** *** List: setters *)

Definition Set_ (Index : Z) (Value : T) : M State unit :=
r <- subscript_ Index ;; write_element r Value.

Definition Swap (Left Right : Z) : M State unit :=
valid <- IsValidIndex Left ;;
if negb valid then throw_out_of_bounds Left
else
  valid <- IsValidIndex Right ;;
  if negb valid then throw_out_of_bounds Right
  else
    LeftNode <- Traverse Left ;;
    RightNode <- Traverse Right ;;
    l <- element_of LeftNode ;;
    Swapped <- read_element l ;;
    r <- element_of RightNode ;;
    v <- read_element r ;;
    l <- element_of LeftNode ;;
    write_element l v ;;;
    r <- element_of RightNode ;;
    write_element r Swapped.

Definition Fill (Value : T) : M State unit :=
for_each (R := Empty_set) tt (fun Element _ =>
  write_element Element Value ;;; ret (Next tt)) ;;;
ret tt.

Definition BubbleSort : M State unit :=
s <- get_state ;; Sorting.BubbleSort (size s) Sorting.GreaterThan.

Definition MergeSort : M State unit :=
s <- get_state ;; Sorting.MergeSort (size s) Sorting.GreaterThan.

Definition QuickSort : M State unit :=
s <- get_state ;; Sorting.QuickSort (size s) Sorting.GreaterThan.

Definition Reverse : M State unit :=
s <- get_state ;;
for_range (R := Empty_set) 0 (size s / 2) tt (fun Index _ =>
  s <- get_state ;;
  Swap Index (size_t (size s - Index - 1)) ;;;
  ret (Next tt)) ;;;
ret tt.

(** [rand k] is what the [k]-th call of [std::rand()] returns. *)
Definition Shuffle (rand : Z -> Z) : M State unit :=
s <- get_state ;;
for_range (R := Empty_set) 0 (size s) tt (fun Index _ =>
  s <- get_state ;;
  let Random := size_t (rand Index) mod size s in
  Swap Index Random ;;;
  ret (Next tt)) ;;;
ret tt.

(** *** List: expansion *)

Fixpoint Clear_loop (fuel : nat) (Current : option loc) : M State unit :=
match Current with
| None => ret tt
| Some p =>
    match fuel with
    | O => fail out_of_fuel
    | S fuel' =>
        n <- read_node p ;;
        let Next := next n in
        delete_Node p ;;;
        Clear_loop fuel' Next
    end
end.

Definition Clear : M State unit :=
s <- get_state ;;
Clear_loop (walk_fuel s) (head s) ;;;
set_size 0 ;;;
set_head None ;;;
set_tail None.

Definition increment_size : M State unit :=
s <- get_state ;; set_size (size_t (size s + 1)).
Definition decrement_size : M State unit :=
s <- get_state ;; set_size (size_t (size s - 1)).

Definition Insert (Index : Z) (Value : T) : M State loc :=
s <- get_state ;;
if decide (Index > size s) then throw_out_of_bounds Index
else if decide (Index = size s) then
  empty <- IsEmpty ;;
  if empty then
    New <- new_Node Value None None ;;
    set_head (Some New) ;;;
    set_tail (Some New) ;;;
    increment_size ;;;
    element_of New
  else
    t <- deref (tail s) ;;
    New <- new_Node Value (Some t) None ;;
    set_next t (Some New) ;;;
    set_tail (Some New) ;;;
    increment_size ;;;
    element_of New
else
  Next <- Traverse Index ;;
  n <- read_node Next ;;
  New <- new_Node Value (previous n) (Some Next) ;;
  (match previous n with
   | Some p => set_next p (Some New)
   | None => set_head (Some New)
   end) ;;;
  set_previous Next (Some New) ;;;
  increment_size ;;;
  element_of New.

Definition PushFront (Value : T) : M State loc := Insert 0 Value.
Definition PushBack (Value : T) : M State loc :=
s <- get_state ;; Insert (size s) Value.

Definition Erase (Index : Z) : M State unit :=
valid <- IsValidIndex Index ;;
if negb valid then throw_out_of_bounds Index
else
  s <- get_state ;;
  (if decide (Index = 0) then
     if decide (size s = 1) then
       h <- deref (head s) ;;
       delete_Node h ;;;
       set_head None ;;;
       set_tail None
     else
       h <- deref (head s) ;;
       n <- read_node h ;;
       set_head (next n) ;;;
       h' <- deref (next n) ;;
       n' <- read_node h' ;;
       p <- deref (previous n') ;;
       delete_Node p ;;;
       set_previous h' None
   else if decide (Index = size_t (size s - 1)) then
     t <- deref (tail s) ;;
     n <- read_node t ;;
     set_tail (previous n) ;;;
     t' <- deref (previous n) ;;
     n' <- read_node t' ;;
     p <- deref (next n') ;;
     delete_Node p ;;;
     set_next t' None
   else
     c <- Traverse Index ;;
     n <- read_node c ;;
     Next <- deref (next n) ;;
     nn <- read_node Next ;;
     p <- deref (previous nn) ;;
     pn <- read_node p ;;
     let Previous := previous pn in
     delete_Node p ;;;
     set_previous Next Previous ;;;
     match Previous with
     | Some q => set_next q (Some Next)
     | None => ret tt
     end) ;;;
  decrement_size.

Definition PopFront : M State unit := Erase 0.
Definition PopBack : M State unit :=
s <- get_state ;; Erase (size_t (size s - 1)).

(** *** List: constructors and destructor *)

(** The member initialisers [size(0), head(nullptr), tail(nullptr)] of
  the constructors, on an object whose members hold anything. *)
Definition initialise : M State unit :=
set_size 0 ;;; set_head None ;;; set_tail None.

(** [List(size_t Size, const Type& Value)] *)
Definition List_fill (Size : Z) (Value : T) : M State unit :=
initialise ;;;
for_range (R := Empty_set) 0 Size tt (fun _ _ =>
  PushBack Value ;;; ret (Next tt)) ;;;
ret tt.

(** [Array[Index]], where [Array] points to the first of the elements
  [a]: beyond them the read is undefined. *)
Definition array_at (a : list T) (Index : Z) : M State T :=
match a !! Z.to_nat Index with
| Some v => ret v
| None => fail undefined_behaviour
end.

(** [List(const size_t Size, const Type* Array)] *)
Definition List_array (Size : Z) (Array : list T) : M State unit :=
initialise ;;;
for_range (R := Empty_set) 0 Size tt (fun Index _ =>
  v <- array_at Array Index ;;
  PushBack v ;;; ret (Next tt)) ;;;
ret tt.

(** [List(const std::initializer_list<Type>& List)] *)
Definition List_initializer_list (List : list T) : M State unit :=
initialise ;;;
for_range (R := Empty_set) 0 (Z.of_nat (length List)) tt (fun Index _ =>
  v <- array_at List Index ;;
  PushBack v ;;; ret (Next tt)) ;;;
ret tt.

(** [~List()] *)
Definition destroy : M State unit := Clear.

(** [Node::operator++(int)], on an iterator [this]: the iterator is
  advanced, and the result is a reference to the node at [previous] of
  the advanced iterator. *)
Definition post_increment (this : Node) : M State (Node * loc) :=
this' <- pre_increment this ;;
r <- deref (previous this') ;;
ret (this', r).

(** [Node::operator--(int)] *)
Definition post_decrement (this : Node) : M State (Node * loc) :=
this' <- pre_decrement this ;;
r <- deref (next this') ;;
ret (this', r).

(** *** Helpers of the development: building and observing a list *)

(** [List()], in an empty memory. *)
Definition empty_list : State := mkState ∅ ∅ 0 None None.

(** [List(const std::initializer_list<Type>&)] after [List()]. *)
Fixpoint push_all (l : list T) : M State unit :=
match l with
| [] => ret tt
| v :: l' => PushBack v ;;; push_all l'
end.

Definition list_of (l : list T) : State := snd (push_all l empty_list).

(** The elements from [head] along [next], as a range-based [for]
  sees them. *)
Definition contents : M State (list T) :=
r <- for_each (R := Empty_set) [] (fun Element acc =>
       e <- read_element Element ;; ret (Next (acc ++ [e]))) ;;
match r with
| Next acc => ret acc
| Done e => match e with end
end.

(** The value behind a reference that a getter returns. *)
Definition value_of (m : M State loc) : M State T :=
r <- m ;; read_element r.

(** *** The public operations, as calls *)

Inductive Op : Type :=
| OpSize | OpIsValidIndex (Index : Z) | OpIsEmpty
| OpGet (Index : Z) | OpSubscript (Index : Z) | OpFront | OpBack
| OpFind (Value : T) | OpFindLast (Value : T) | OpContains (Value : T)
| OpTotal (Value : T) | OpIsSorted
| OpSet (Index : Z) (Value : T) | OpSwap (Left Right : Z)
| OpFill (Value : T)
| OpBubbleSort | OpMergeSort | OpQuickSort | OpReverse
| OpShuffle (rand : Z -> Z)
| OpClear
| OpInsert (Index : Z) (Value : T)
| OpPushFront (Value : T) | OpPushBack (Value : T)
| OpErase (Index : Z) | OpPopFront | OpPopBack.

Definition void {A} (m : M State A) : M State unit := m ;;; ret tt.

Definition call (op : Op) : M State unit :=
match op with
| OpSize => void Size
| OpIsValidIndex Index => void (IsValidIndex Index)
| OpIsEmpty => void IsEmpty
| OpGet Index => void (Get Index)
| OpSubscript Index => void (subscript_ Index)
| OpFront => void Front
| OpBack => void Back
| OpFind Value => void (Find Value)
| OpFindLast Value => void (FindLast Value)
| OpContains Value => void (Contains Value)
| OpTotal Value => void (Total Value)
| OpIsSorted => void IsSorted
| OpSet Index Value => Set_ Index Value
| OpSwap Left Right => Swap Left Right
| OpFill Value => Fill Value
| OpBubbleSort => BubbleSort
| OpMergeSort => MergeSort
| OpQuickSort => QuickSort
| OpReverse => Reverse
| OpShuffle rand => Shuffle rand
| OpClear => Clear
| OpInsert Index Value => void (Insert Index Value)
| OpPushFront Value => void (PushFront Value)
| OpPushBack Value => void (PushBack Value)
| OpErase Index => Erase Index
| OpPopFront => PopFront
| OpPopBack => PopBack
end.

(** The index that a call is made with when that index is outside the
  valid range of the operation: [[0, size)] for the accessors, [Erase]
  and [Swap], [[0, size]] for [Insert]; [Front] is [Get(0)] and [Back]
  is [Get(size - 1)], in [size_t]. *)
Definition offending (op : Op) (s : State) : option Z :=
let beyond (Index : Z) :=
  if decide (Index < size s) then None else Some Index in
match op with
| OpGet Index | OpSubscript Index | OpErase Index | OpSet Index _ =>
    beyond Index
| OpSwap Left Right =>
    match beyond Left with
    | Some i => Some i
    | None => beyond Right
    end
| OpInsert Index _ =>
    if decide (Index <= size s) then None else Some Index
| OpFront | OpPopFront => if decide (size s = 0) then Some 0 else None
| OpBack | OpPopBack =>
    if decide (size s = 0) then Some (size_t (size s - 1)) else None
| _ => None
end.

End List.

(** *** Several lists in one memory: assignment *)

Section Assignment.
Context {T : Type} `{!Greater T} `{!Equal T}.

(** The objects of class [List], by address: their members. *)
Record Fields : Type := mkFields {
f_size : Z; f_head : option loc; f_tail : option loc
}.

Record Memory : Type := mkMemory {
m_nodes : gmap loc Node;
m_elements : gmap loc T;
m_lists : gmap loc Fields
}.

(** A member function called on the object at [this]. *)
Definition on {A} (this : loc) (m : M (State T) A) : M Memory A :=
fun mem =>
  match m_lists mem !! this with
  | None => (Fail undefined_behaviour, mem)
  | Some f =>
      let (o, s) := m (mkState (m_nodes mem) (m_elements mem)
                               (f_size f) (f_head f) (f_tail f)) in
      (o, mkMemory (nodes s) (elements s)
                   (<[this := mkFields (size s) (head s) (tail s)]>
                      (m_lists mem)))
  end.

(** [for (auto& Element : Copied) PushBack(Element);] in a member
  function of the object at [this]. *)
Definition push_back_all (this Copied : loc) : M Memory unit :=
it <- on Copied begin ;;
fuel <- on Copied (s <- get_state ;; ret (walk_fuel s)) ;;
range_for (R := Empty_set) (fun n => on Copied (pre_increment n))
  fuel it tt
  (fun Element _ =>
     v <- on Copied (read_element Element) ;;
     on this (PushBack v) ;;;
     ret (Next tt)) ;;;
ret tt.

(** [operator=(const List<Type>& Copied)] *)
Definition copy_assign (this Copied : loc) : M Memory unit :=
if decide (this = Copied) then ret tt
else
  on this Clear ;;;
  push_back_all this Copied.

(** [operator=(List<Type>&& Moved)] *)
Definition move_assign (this Moved : loc) : M Memory unit :=
if decide (this = Moved) then ret tt
else
  on this Clear ;;;
  s <- on Moved get_state ;;
  on this (set_size (size s) ;;; set_head (head s) ;;;
           set_tail (tail s)) ;;;
  on Moved (set_size 0 ;;; set_head None ;;; set_tail None).

(** [List(const List<Type>& Copied)], for the object at [this], whose
  storage is there and whose members hold anything. *)
Definition copy_construct (this Copied : loc) : M Memory unit :=
on this initialise ;;;
push_back_all this Copied.

(** [List(List<Type>&& Moved)] *)
Definition move_construct (this Moved : loc) : M Memory unit :=
s <- on Moved get_state ;;
on this (set_size (size s) ;;; set_head (head s) ;;;
         set_tail (tail s)) ;;;
on Moved (set_size 0 ;;; set_head None ;;; set_tail None).

End Assignment.
End LinkedList.

Definition LessThan (Left Right : Z) : bool := Z.ltb Left Right.

(** ** Stack.h *)

Module Stack.
Import LinkedList.

(** What [Peek], [PeekLast], [Pop] and [PopLast] throw on an empty
    stack: [std::runtime_error("ERROR: The stack is empty!")].  A call
    that throws it gives it as its result; what the list throws goes
    through the failures of [M]. *)
Inductive stack_error : Type := stack_is_empty.

Section Stack.
Context {T : Type} `{!Greater T} `{!Equal T}.

(** The member [data] of a stack is a list. *)
Local Abbreviation Stack := (State T).

Definition Size : M Stack Z := LinkedList.Size.

Definition Peek : M Stack (stack_error + loc) :=
empty <- IsEmpty ;;
if empty then ret (inl stack_is_empty)
else r <- Back ;; ret (inr r).

Definition PeekLast : M Stack (stack_error + loc) :=
empty <- IsEmpty ;;
if empty then ret (inl stack_is_empty)
else r <- Front ;; ret (inr r).

Definition Contains (Value : T) : M Stack bool := LinkedList.Contains Value.

Definition Total (Value : T) : M Stack Z := LinkedList.Total Value.

Definition IsEmpty : M Stack bool := LinkedList.IsEmpty.

Definition Reverse : M Stack unit := LinkedList.Reverse.

Definition Clear : M Stack unit := LinkedList.Clear.

Definition Push (Value : T) : M Stack unit := PushBack Value ;;; ret tt.

Definition PushLast (Value : T) : M Stack unit := PushFront Value ;;; ret tt.

(** [Type back = data.Back(); data.PopBack(); return back;] *)
Definition Pop : M Stack (stack_error + T) :=
empty <- LinkedList.IsEmpty ;;
if empty then ret (inl stack_is_empty)
else
  r <- Back ;;
  back <- read_element r ;;
  PopBack ;;;
  ret (inr back).

Definition PopLast : M Stack (stack_error + T) :=
empty <- LinkedList.IsEmpty ;;
if empty then ret (inl stack_is_empty)
else
  r <- Front ;;
  front <- read_element r ;;
  PopFront ;;;
  ret (inr front).

End Stack.
End Stack.

(** ** Algorithms.h *)

Module Algorithms.
Import LinkedList.

Section Algorithms.
Context {T : Type} `{!Greater T} `{!Equal T}.

(** An [Operation] points to a function from [Type&] to [void]:
    [Operation v] is the value it leaves in an element whose value is
    [v].  An [Accumulator] points to a function from two [const Type&]
    to [Type], or from [Type&] and [const Type&] to [void], for which
    [Accumulator r v] is the value it leaves in its first argument. *)

(** [Map(Collection, Operation)], on a list. *)
Definition Map (Operation : T -> T) : M (State T) unit :=
for_each (R := Empty_set) tt (fun Element _ =>
  v <- read_element Element ;;
  write_element Element (Operation v) ;;;
  ret (Next tt)) ;;;
ret tt.

(** [Map(Size, Collection, Operation)]: [break] leaves the loop. *)
Definition Map_n (Size : Z) (Operation : T -> T) : M (State T) unit :=
for_each (R := unit) Size (fun Element Size =>
  if decide (Size = 0) then ret (Done tt)
  else
    v <- read_element Element ;;
    write_element Element (Operation v) ;;;
    ret (Next (size_t (Size - 1)))) ;;;
ret tt.

(** [Reduce(Collection, Start, Accumulator)] *)
Definition Reduce (Start : T) (Accumulator : T -> T -> T)
  : M (State T) T :=
r <- for_each (R := Empty_set) Start (fun Element Start =>
       v <- read_element Element ;;
       ret (Next (Accumulator Start v))) ;;
match r with
| Next Start => ret Start
| Done e => match e with end
end.

(** [Reduce(Size, Collection, Start, Accumulator)] *)
Definition Reduce_n (Size : Z) (Start : T) (Accumulator : T -> T -> T)
  : M (State T) T :=
r <- for_each (R := T) (Size, Start) (fun Element a =>
       let (Size, Start) := a in
       if decide (Size = 0) then ret (Done Start)
       else
         v <- read_element Element ;;
         ret (Next (size_t (Size - 1), Accumulator Start v))) ;;
match r with
| Next (_, Start) => ret Start
| Done Start => ret Start
end.

End Algorithms.

Section Sort.
Context {C T : Type} `{!Indexable C T} `{!Greater T}.

(** [Sort(Size, Collection, Comparer)] *)
Definition Sort_n (Size : Z) (Comparer : T -> T -> bool) : M C unit :=
Sorting.QuickSort Size Comparer.

End Sort.

(** [Sort(Collection, Comparer)], on a list: the size is
    [Collection.Size()]. *)
Definition Sort {T : Type} `{!Greater T} `{!Equal T}
    (Comparer : T -> T -> bool) : M (State T) unit :=
n <- LinkedList.Size ;; Sort_n n Comparer.

End Algorithms.

(** * What the properties are stated with *)

Import LinkedList.

(** ** The cells of a list *)

(** A list is described by its cells, in the order of the list: the
    address of the node, the address of the element object and the value
    of the element. *)
Record cell (T : Type) : Type := Cell {
  c_node : loc; c_data : loc; c_value : T
}.
Arguments Cell {T} _ _ _.
Arguments c_node {T} _.
Arguments c_data {T} _.
Arguments c_value {T} _.

Section Specification.
Context {T : Type}.
Local Abbreviation cell := (cell T).
Implicit Types (s : State T) (cells : list cell).

Definition address (cells : list cell) (i : nat) : option loc :=
  c_node <$> cells !! i.

Definition node_at (cells : list cell) (i : nat) : Node :=
  mkNode (match i with O => None | S j => address cells j end)
         (c_data <$> cells !! i)
         (address cells (S i)).

Definition represents (s : State T) (cells : list cell) : Prop :=
  NoDup (c_node <$> cells) /\
  NoDup (c_data <$> cells) /\
  (forall i c, cells !! i = Some c ->
     nodes s !! c_node c = Some (node_at cells i) /\
     elements s !! c_data c = Some (c_value c)) /\
  size s = Z.of_nat (length cells) /\
  head s = address cells 0 /\
  tail s = address cells (pred (length cells)).

Definition Traverse_index (size Index : Z) : Z :=
  if decide (Index > size / 2 /\ Index < size - 1) then Index - 2 else Index.

(** The position of the cell that [Insert(Index, ...)] makes: the end
    when [Index] is [size], else before the node that [Traverse] reaches. *)
Definition Insert_index (size Index : Z) : Z :=
  if decide (Index = size) then size else Traverse_index size Index.

Definition set_value (v : T) (c : cell) : cell := Cell (c_node c) (c_data c) v.

Definition with_elements (s : State T) (e : gmap loc T) : State T :=
  mkState (nodes s) e (size s) (head s) (tail s).

(** The effect of [Swap] on the cells. *)
Definition swap_cells (l r : nat) cells : list cell :=
  match cells !! l, cells !! r with
  | Some cl, Some cr =>
      let cells' := <[l := set_value (c_value cr) cl]> cells in
      match cells' !! r with
      | Some cr' => <[r := set_value (c_value cl) cr']> cells'
      | None => cells'
      end
  | _, _ => cells
  end.

(** The structure a list is made of: some cells represent it. *)
Definition Invariant (s : State T) : Prop := exists cells, represents s cells.

(** Cells at the same addresses; their values may differ. *)
Definition same_shape cells0 cells : Prop :=
  c_node <$> cells = c_node <$> cells0 /\ c_data <$> cells = c_data <$> cells0.

(** What the operations that only assign elements keep: the list is made
    of the nodes and the element objects of [cells0], in this order. *)
Definition Shaped cells0 s : Prop :=
  exists cells, represents s cells /\ same_shape cells0 cells.

Definition element_in cells0 (d : loc) : Prop := d ∈ c_data <$> cells0.

(** An iterator of a range-based [for] that is at position [i]. *)
Definition iterator_at cells0 (i : nat) (it : Node) : Prop :=
  data it = c_data <$> cells0 !! i /\ next it = address cells0 (S i).

(** The node before position [i], if any. *)
Definition before cells (i : nat) : option loc :=
  match i with O => None | S j => address cells j end.

Definition with_nodes s (n : gmap loc Node) : State T :=
  mkState n (elements s) (size s) (head s) (tail s).

(** [n] times [p = p->next] (or [p = p->previous]), from [p]. *)
Fixpoint follow s (link : Node -> option loc) (n : nat) (p : option loc)
    : option loc :=
  match n with
  | O => p
  | S n' =>
      match p with
      | None => None
      | Some q =>
          match nodes s !! q with
          | None => None
          | Some nd => follow s link n' (link nd)
          end
      end
  end.

(** The invariant of the data model, in its words: [size] is 0 exactly
    when [head] and [tail] are absent; in a list that is not empty,
    [size - 1] steps along [next] lead from [head] to [tail] and [size - 1]
    steps along [previous] lead from [tail] to [head]; and for every node
    of the list, [next->previous] and [previous->next] are the node. *)
Definition structural_invariant s : Prop :=
  (size s = 0 <-> head s = None /\ tail s = None) /\
  (size s <> 0 ->
     is_Some (head s) /\ is_Some (tail s) /\
     follow s next (Z.to_nat (size s - 1)) (head s) = tail s /\
     follow s previous (Z.to_nat (size s - 1)) (tail s) = head s) /\
  (forall k p nd,
     (k < Z.to_nat (size s))%nat ->
     follow s next k (head s) = Some p -> nodes s !! p = Some nd ->
     (forall q, next nd = Some q ->
        exists nq, nodes s !! q = Some nq /\ previous nq = Some p) /\
     (forall q, previous nd = Some q ->
        exists nq, nodes s !! q = Some nq /\ next nq = Some p)).

(** The indices of a call are [size_t] values. *)
Definition size_t_indices (op : Op (T := T)) : Prop :=
  match op with
  | OpGet Index | OpSubscript Index | OpSet Index _
  | OpInsert Index _ | OpErase Index => 0 <= Index
  | OpSwap Left Right => 0 <= Left /\ 0 <= Right
  | _ => True
  end.

(** [P] holds in the state that a call leaves, whether it returns or
    throws [runtime_error]; the call does neither anything undefined nor
    runs out of the fuel of the model. *)
Definition leaves {A} (P : State T -> Prop) (r : outcome A * State T) : Prop :=
  match r with
  | (Return _, s') => P s'
  | (Fail (runtime_error _ _), s') => P s'
  | (Fail _, _) => False
  end.

End Specification.

(** The values of a list after [m], next to the outcome of [m]. *)
Definition observe {A} (m : M (State Z) A) (l : list Z)
    : outcome A * outcome (list Z) :=
  let (o, s) := m (list_of l) in (o, fst (contents s)).

Definition insert_at {X} (k : nat) (x : X) (l : list X) : list X :=
  take k l ++ x :: drop k l.

(** [m], started in a state of [P], returns [a] in a state of [Q a], or
    fails with [f] in a state of [E f]. *)
Definition triple {S A} (P : S -> Prop) (m : M S A) (Q : A -> S -> Prop)
    (E : failure -> S -> Prop) : Prop :=
  forall s, P s ->
    match m s with
    | (Return a, s') => Q a s'
    | (Fail f, s') => E f s'
    end.

(** A throw of [runtime_error], in a state of [I]. *)
Definition thrown {C : Type} (I : C -> Prop) (f : failure) (c : C) : Prop :=
  (exists i n, f = runtime_error i n) /\ I c.

(** The cursors of [Merge] stay inside the buffers and are [size_t]. *)
Definition cursors_in (LeftSize RightSize : Z) (c : Sorting.cursors) : Prop :=
  0 <= Sorting.Begin_ c <= LeftSize /\ 0 <= Sorting.End_ c <= RightSize /\
  0 <= Sorting.Middle_ c < 2 ^ 64.

(** ** The order of a comparer *)

(** The order of a comparer: [x] may stand before [y]. *)
Definition precedes {T} (cmp : T -> T -> bool) (x y : T) : Prop :=
  cmp x y = false.

(** A comparer that is a strict total order. *)
Record strict_total_order {T} (cmp : T -> T -> bool) : Prop := {
  sto_irreflexive : forall x, cmp x x = false;
  sto_transitive : forall x y z,
    cmp x y = true -> cmp y z = true -> cmp x z = true;
  sto_connected : forall x y, cmp x y = false -> cmp y x = false -> x = y
}.

#[export] Instance precedes_dec {T} (cmp : T -> T -> bool) x y :
  Decision (precedes cmp x y).
Proof. unfold precedes. apply _. Defined.

Section Passes.
Context {T : Type} (cmp : T -> T -> bool).
Implicit Types (l : list T).

(** No element is followed by one that the comparer puts before it. *)
Fixpoint sortedb l : bool :=
  match l with
  | x :: (y :: _) as l' => negb (cmp x y) && sortedb l'
  | _ => true
  end.

(** One pass of the inner loop over [x :: l], as a function: the value
    carried along is exchanged with its right neighbour whenever
    [Comparer] holds of the two. *)
Fixpoint bubble (x : T) l : list T :=
match l with
| [] => [x]
| y :: l' => if cmp x y then y :: bubble x l' else x :: bubble y l'
end.

(** Whether the pass exchanges anything ([HasSwapped]). *)
Fixpoint swaps (x : T) l : bool :=
match l with
| [] => false
| y :: l' => if cmp x y then true else swaps y l'
end.

End Passes.

(** The list holds the values [l], from [head] to [tail]. *)
Definition holds {T} (s : State T) (l : list T) : Prop :=
  exists cells, represents s cells /\ c_value <$> cells = l.

(** No failure. *)
Definition never {St} (f : failure) (s : St) : Prop := False.

(** The list [s] of the cells [cells] was built in the memory of [s0]:
    the rest of the memory is as in [s0], where the nodes and the element
    objects of the cells were not allocated. *)
Definition built {T} (s0 s : State T) (cells : list (cell T)) : Prop :=
  represents s cells /\
  (forall q, q ∉ c_node <$> cells -> nodes s !! q = nodes s0 !! q) /\
  (forall q, q ∈ c_node <$> cells -> nodes s0 !! q = None) /\
  (forall d, d ∉ c_data <$> cells -> elements s !! d = elements s0 !! d) /\
  (forall d, d ∈ c_data <$> cells -> elements s0 !! d = None).

(** The index of a [for] loop after [n] increments. *)
Fixpoint size_t_iter (n : nat) (Index : Z) : Z :=
  match n with
  | O => Index
  | S n' => size_t_iter n' (size_t (Index + 1))
  end.

(** The cells after [Operation] was run on the first [i] of them. *)
Definition mapped {T} (Operation : T -> T) (i : nat) (cells : list (cell T))
    : list (cell T) :=
  ((fun c => set_value (Operation (c_value c)) c) <$> take i cells)
  ++ drop i cells.

(** The list object with the members [f], in the memory [mem]. *)
Definition state_of {T} (mem : Memory (T := T)) (f : Fields) : State T :=
  mkState (m_nodes mem) (m_elements mem) (f_size f) (f_head f) (f_tail f).

(** The list object at [this] is the list of the cells [cells]. *)
Definition list_at {T} (mem : Memory (T := T)) (this : loc)
    (cells : list (cell T)) : Prop :=
  exists f, m_lists mem !! this = Some f /\ represents (state_of mem f) cells.

(** Two lists that share no node and no element object. *)
Definition apart {T} (cells1 cells2 : list (cell T)) : Prop :=
  (forall q, q ∈ c_node <$> cells1 -> q ∉ c_node <$> cells2) /\
  (forall d, d ∈ c_data <$> cells1 -> d ∉ c_data <$> cells2).

(** A list of integers and a memory with two lists, for the instances of
    the theorems. *)
Definition example_values : list Z := [3; 1; 4; 1; 5].

Definition example_list : State Z := list_of example_values.

Definition example_cells : list (cell Z) :=
  [Cell 1%positive 1%positive 3; Cell 2%positive 2%positive 1;
   Cell 3%positive 3%positive 4; Cell 4%positive 4%positive 1;
   Cell 5%positive 5%positive 5].

(** The list at 10 has the elements 3 and 1, the list at 20 the
    element 4. *)
Definition example_memory : Memory (T := Z) :=
  mkMemory
    {[ 1%positive := mkNode None (Some 1%positive) (Some 2%positive);
       2%positive := mkNode (Some 1%positive) (Some 2%positive) None;
       3%positive := mkNode None (Some 3%positive) None ]}
    {[ 1%positive := 3; 2%positive := 1; 3%positive := 4 ]}
    {[ 10%positive := mkFields 2 (Some 1%positive) (Some 2%positive);
       20%positive := mkFields 1 (Some 3%positive) (Some 3%positive) ]}.

(** * Properties *)

Lemma size_t_range (x : Z) : 0 <= size_t x < 2 ^ 64.
Proof. unfold size_t. apply Z.mod_pos_bound. lia. Qed.

Lemma size_t_small (x : Z) : 0 <= x < 2 ^ 64 -> size_t x = x.
Proof. unfold size_t. apply Z.mod_small. Qed.

Section Errors.
Context {T : Type} `{!Greater T} `{!Equal T}.

Lemma invalid_index_throws {A} (k : M (State T) A) (Index : Z) (s : State T) :
  ~ Index < size s ->
  (valid <- IsValidIndex Index ;;
   if negb valid then throw_out_of_bounds Index else k) s
  = (Fail (runtime_error Index (size s)), s).
Proof.
  intros H. unfold bind, IsValidIndex, get_state, ret; simpl.
  rewrite bool_decide_eq_false_2 by done. reflexivity.
Qed.

Lemma void_Fail {A} (m : M (State T) A) s f s' :
  m s = (Fail f, s') -> void m s = (Fail f, s').
Proof. intros H. unfold void, bind. by rewrite H. Qed.

Lemma subscript_throws (Index : Z) (s : State T) :
  ~ Index < size s ->
  subscript_ Index s = (Fail (runtime_error Index (size s)), s).
Proof. apply invalid_index_throws. Qed.

Lemma Erase_throws (Index : Z) (s : State T) :
  ~ Index < size s ->
  Erase Index s = (Fail (runtime_error Index (size s)), s).
Proof. apply invalid_index_throws. Qed.

(** C7: a call whose index is outside the valid range of its operation
    ([Get], [operator[]], [Set], [Erase] and [Swap] with an index that is
    not below [size], [Insert] with an index above [size], [Front],
    [Back], [PopFront] and [PopBack] on an empty list) throws the
    [runtime_error] that names this index and the size, and the state it
    leaves is the state it was called in. *)
Theorem out_of_range_raises (op : Op) (s : State T) (Index : Z) :
  offending op s = Some Index ->
  call op s = (Fail (runtime_error Index (size s)), s).
Proof.
  destruct op; simpl; try discriminate;
    repeat case_decide; intros; simplify_eq;
    try (apply void_Fail);
    try (by apply subscript_throws);
    try (by apply Erase_throws).
  - unfold Front. apply subscript_throws. lia.
  - unfold Back, bind, get_state; simpl. apply subscript_throws.
    pose proof (size_t_range (size s - 1)). lia.
  - unfold Set_, bind. by rewrite subscript_throws.
  - unfold Swap, bind at 1, IsValidIndex at 1, bind, get_state, ret; simpl.
    rewrite bool_decide_eq_true_2 by done; simpl.
    by apply invalid_index_throws.
  - unfold Swap. by apply invalid_index_throws.
  - unfold Insert, bind, get_state; simpl. rewrite decide_True by lia. done.
  - unfold PopFront. apply Erase_throws. lia.
  - unfold PopBack, bind, get_state; simpl. apply Erase_throws.
    pose proof (size_t_range (size s - 1)). lia.
Qed.
End Errors.

Lemma bind_Return {S A B} (m : M S A) (k : A -> M S B) s a s1 :
  m s = (Return a, s1) -> bind m k s = k a s1.
Proof. intros H. unfold bind. by rewrite H. Qed.

Lemma bind_Fail {S A B} (m : M S A) (k : A -> M S B) s f s1 :
  m s = (Fail f, s1) -> bind m k s = (Fail f, s1).
Proof. intros H. unfold bind. by rewrite H. Qed.

Section Representation.
Context {T : Type} `{!Greater T} `{!Equal T}.
Local Abbreviation cell := (cell T).

Section Walk.
Variables (s : State T) (cells : list cell).
Hypothesis Hrep : represents s cells.

Lemma read_node_at i c :
  cells !! i = Some c -> read_node (c_node c) s = (Return (node_at cells i), s).
Proof.
  intros Hc. destruct Hrep as (_ & _ & H & _). destruct (H i c Hc) as [Hn _].
  unfold read_node. by rewrite Hn.
Qed.

Lemma increments (k i : nat) :
  (i + k < length cells)%nat ->
  repeat_m k pre_increment (node_at cells i) s = (Return (node_at cells (i + k)), s).
Proof.
  revert i. induction k as [|k IH]; intros i Hlt; simpl.
  - by rewrite Nat.add_0_r.
  - destruct (lookup_lt_is_Some_2 cells (S i)) as [c Hc]; [lia|].
    rewrite (bind_Return _ _ _ (node_at cells (S i)) s).
    + rewrite IH by lia. do 3 f_equal. lia.
    + unfold pre_increment; simpl. unfold address. rewrite Hc; simpl.
      by apply read_node_at.
Qed.

Lemma decrements (k i : nat) :
  (k <= i)%nat -> (i < length cells)%nat ->
  repeat_m k pre_decrement (node_at cells i) s = (Return (node_at cells (i - k)), s).
Proof.
  revert i. induction k as [|k IH]; intros i Hle Hlt; simpl.
  - by rewrite Nat.sub_0_r.
  - destruct i as [|i]; [lia|].
    destruct (lookup_lt_is_Some_2 cells i) as [c Hc]; [lia|].
    rewrite (bind_Return _ _ _ (node_at cells i) s).
    + rewrite IH by lia. done.
    + unfold pre_decrement; simpl. unfold address. rewrite Hc; simpl.
      by apply read_node_at.
Qed.

Lemma Traverse_spec (Index : Z) :
  0 <= Index < size s -> size s < 2 ^ 64 ->
  exists c, cells !! Z.to_nat (Traverse_index (size s) Index) = Some c /\
            Traverse Index s = (Return (c_node c), s).
Proof.
  intros HI Hsz.
  pose proof Hrep as (_ & _ & _ & Hlen & Hhead & Htail).
  unfold Traverse.
  rewrite (bind_Return _ _ _ true s); [|unfold IsValidIndex, bind, get_state, ret; simpl; by rewrite bool_decide_eq_true_2 by lia].
  simpl. unfold bind at 1, get_state at 1.
  assert (Hdiv : 0 <= size s / 2 /\ 2 * (size s / 2) <= size s < 2 * (size s / 2) + 2).
  { pose proof (Z.div_mod (size s) 2). pose proof (Z.mod_pos_bound (size s) 2). lia. }
  destruct (decide (Index > size s / 2)) as [Hback|Hfwd].
  - (* from the tail *)
    destruct (lookup_lt_is_Some_2 cells (pred (length cells))) as [ct Hct]; [lia|].
    rewrite (bind_Return _ _ _ (c_node ct) s); [|by rewrite Htail; unfold address; rewrite Hct].
    rewrite (size_t_small (size s - Index - 1)) by lia.
    unfold ptrdiff_t. rewrite size_t_small by lia. rewrite decide_True by lia.
    unfold minus. destruct (decide (size s - Index - 1 = 0)) as [H0|H0].
    + exists ct. split; [|done]. unfold Traverse_index.
      case_decide; [lia|]. rewrite <- Hct. f_equal. lia.
    + rewrite (bind_Return _ _ _ _ s (read_node_at _ _ Hct)).
      unfold signed. rewrite decide_True by lia. 
      rewrite (bind_Return _ _ _ (size s - Index - 1 + 1) s) by done.
      destruct (lookup_lt_is_Some_2 cells (Z.to_nat (Index - 2))) as [c Hc]; [lia|].
      exists c. split; [unfold Traverse_index; by case_decide; [|lia]|].
      rewrite (bind_Return _ _ _ (node_at cells (Z.to_nat (Index - 1))) s).
      * simpl. replace (Z.to_nat (Index - 1)) with (S (Z.to_nat (Index - 2))) by lia.
        simpl. unfold address. by rewrite Hc.
      * unfold sub_assign.
        rewrite (bind_Return _ _ _ (node_at cells (Z.to_nat (Index - 1))) s).
        -- replace (Z.to_nat (- (size s - Index - 1 + 1))) with 0%nat by lia. done.
        -- rewrite decrements by lia. do 3 f_equal. lia.
  - (* from the head *)
    destruct (lookup_lt_is_Some_2 cells 0) as [ch Hch]; [lia|].
    rewrite (bind_Return _ _ _ (c_node ch) s); [|by rewrite Hhead; unfold address; rewrite Hch].
    unfold ptrdiff_t. rewrite size_t_small by lia. rewrite decide_True by lia.
    assert (Hti : Traverse_index (size s) Index = Index).
    { unfold Traverse_index. case_decide; lia. }
    rewrite Hti.
    unfold plus. destruct (decide (Index = 0)) as [->|H0].
    + exists ch. done.
    + rewrite (bind_Return _ _ _ _ s (read_node_at _ _ Hch)).
      unfold signed. rewrite decide_True by lia. 
      rewrite (bind_Return _ _ _ (Index - 1) s) by done.
      destruct (lookup_lt_is_Some_2 cells (Z.to_nat Index)) as [c Hc]; [lia|].
      exists c. split; [done|].
      rewrite (bind_Return _ _ _ (node_at cells (Z.to_nat (Index - 1))) s).
      * simpl. replace (S (Z.to_nat (Index - 1))) with (Z.to_nat Index) by lia.
        unfold address. by rewrite Hc.
      * unfold add_assign.
        rewrite (bind_Return _ _ _ (node_at cells (Z.to_nat (Index - 1))) s).
        -- replace (Z.to_nat (- (Index - 1))) with 0%nat by lia. done.
        -- rewrite increments by lia. done.
Qed.
End Walk.
End Representation.

Section Elements.
Context {T : Type} `{!Greater T} `{!Equal T}.
Local Abbreviation cell := (cell T).
Implicit Types (s : State T) (cells : list cell).

Lemma fmap_insert_same {B} (f : cell -> B) cells i c c' :
  cells !! i = Some c -> f c' = f c -> f <$> <[i := c']> cells = f <$> cells.
Proof.
  intros Hc Hf. rewrite list_fmap_insert, Hf. apply list_insert_id.
  by rewrite list_lookup_fmap, Hc.
Qed.

Lemma address_set_value cells i c v j :
  cells !! i = Some c ->
  address (<[i := set_value v c]> cells) j = address cells j.
Proof.
  intros Hc. unfold address. rewrite <- !list_lookup_fmap.
  by rewrite (fmap_insert_same c_node cells i c).
Qed.

Lemma node_at_set_value cells i c v j :
  cells !! i = Some c ->
  node_at (<[i := set_value v c]> cells) j = node_at cells j.
Proof.
  intros Hc. unfold node_at. f_equal.
  - destruct j; [done|]. by apply address_set_value.
  - rewrite <- !list_lookup_fmap. by rewrite (fmap_insert_same c_data cells i c).
  - by apply address_set_value.
Qed.

Lemma represents_data_inj s cells i j c c' :
  represents s cells -> cells !! i = Some c -> cells !! j = Some c' ->
  c_data c = c_data c' -> i = j.
Proof.
  intros (_ & Hnd & _) Hc Hc' Heq.
  eapply NoDup_lookup; [exact Hnd| |]; rewrite list_lookup_fmap.
  - by rewrite Hc.
  - by rewrite Hc', Heq.
Qed.

Lemma represents_node_inj s cells i j c c' :
  represents s cells -> cells !! i = Some c -> cells !! j = Some c' ->
  c_node c = c_node c' -> i = j.
Proof.
  intros (Hnd & _) Hc Hc' Heq.
  eapply NoDup_lookup; [exact Hnd| |]; rewrite list_lookup_fmap.
  - by rewrite Hc.
  - by rewrite Hc', Heq.
Qed.

Lemma represents_store s cells i c v :
  represents s cells -> cells !! i = Some c ->
  represents (with_elements s (<[c_data c := v]> (elements s)))
             (<[i := set_value v c]> cells).
Proof.
  intros Hrep Hc. pose proof Hrep as (Hn & Hd & Hcells & Hsz & Hh & Ht).
  unfold represents; simpl. rewrite length_insert.
  rewrite (fmap_insert_same c_node cells i c), (fmap_insert_same c_data cells i c) by done.
  rewrite !address_set_value by done.
  do 2 (split; [done|]). split; [|done].
  intros j c' Hc'. rewrite node_at_set_value by done.
  destruct (decide (j = i)) as [->|Hne].
  - rewrite list_lookup_insert_eq in Hc' by (by eapply lookup_lt_Some).
    simplify_eq. simpl. rewrite lookup_insert_eq.
    split; [by apply (Hcells i c)|done].
  - rewrite list_lookup_insert_ne in Hc' by done.
    destruct (Hcells j c' Hc') as [Hnj Hej]. split; [done|].
    rewrite lookup_insert_ne; [done|].
    intros Heq. apply Hne. symmetry. by eapply represents_data_inj.
Qed.

Lemma element_of_spec s cells i c :
  represents s cells -> cells !! i = Some c ->
  element_of (c_node c) s = (Return (c_data c), s).
Proof.
  intros Hrep Hc. unfold element_of.
  rewrite (bind_Return _ _ _ _ s (read_node_at s cells Hrep i c Hc)).
  simpl. by rewrite Hc.
Qed.

Lemma read_element_spec s cells i c :
  represents s cells -> cells !! i = Some c ->
  read_element (c_data c) s = (Return (c_value c), s).
Proof.
  intros (_ & _ & H & _) Hc. destruct (H i c Hc) as [_ He].
  unfold read_element. by rewrite He.
Qed.

Lemma write_element_spec s cells i c v :
  represents s cells -> cells !! i = Some c ->
  write_element (c_data c) v s
  = (Return tt, with_elements s (<[c_data c := v]> (elements s))).
Proof.
  intros (_ & _ & H & _) Hc. destruct (H i c Hc) as [_ He].
  unfold write_element. by rewrite He.
Qed.

Lemma subscript_spec s cells Index :
  represents s cells -> 0 <= Index < size s -> size s < 2 ^ 64 ->
  exists c, cells !! Z.to_nat (Traverse_index (size s) Index) = Some c /\
            subscript_ Index s = (Return (c_data c), s).
Proof.
  intros Hrep HI Hsz.
  destruct (Traverse_spec s cells Hrep Index HI Hsz) as (c & Hc & Htr).
  exists c. split; [done|]. unfold subscript_.
  rewrite (bind_Return _ _ _ true s);
    [|unfold IsValidIndex, bind, get_state, ret; simpl;
      by rewrite bool_decide_eq_true_2 by lia].
  simpl. rewrite (bind_Return _ _ _ _ _ Htr). by eapply element_of_spec.
Qed.

Lemma Swap_spec s cells Left Right :
  represents s cells -> 0 <= Left < size s -> 0 <= Right < size s ->
  size s < 2 ^ 64 ->
  exists cl cr,
    cells !! Z.to_nat (Traverse_index (size s) Left) = Some cl /\
    cells !! Z.to_nat (Traverse_index (size s) Right) = Some cr /\
    Swap Left Right s
    = (Return tt,
       with_elements s (<[c_data cr := c_value cl]>
                          (<[c_data cl := c_value cr]> (elements s)))).
Proof.
  intros Hrep HL HR Hsz.
  destruct (Traverse_spec s cells Hrep Left HL Hsz) as (cl & Hcl & Htl).
  destruct (Traverse_spec s cells Hrep Right HR Hsz) as (cr & Hcr & Htr).
  exists cl, cr. do 2 (split; [done|]).
  unfold Swap.
  rewrite (bind_Return _ _ _ true s);
    [|unfold IsValidIndex, bind, get_state, ret; simpl;
      by rewrite bool_decide_eq_true_2 by lia].
  simpl.
  rewrite (bind_Return _ _ _ true s);
    [|unfold IsValidIndex, bind, get_state, ret; simpl;
      by rewrite bool_decide_eq_true_2 by lia].
  simpl.
  rewrite (bind_Return _ _ _ _ _ Htl), (bind_Return _ _ _ _ _ Htr).
  rewrite (bind_Return _ _ _ _ _ (element_of_spec _ _ _ _ Hrep Hcl)).
  rewrite (bind_Return _ _ _ _ _ (read_element_spec _ _ _ _ Hrep Hcl)).
  rewrite (bind_Return _ _ _ _ _ (element_of_spec _ _ _ _ Hrep Hcr)).
  rewrite (bind_Return _ _ _ _ _ (read_element_spec _ _ _ _ Hrep Hcr)).
  rewrite (bind_Return _ _ _ _ _ (element_of_spec _ _ _ _ Hrep Hcl)).
  rewrite (bind_Return _ _ _ _ _ (write_element_spec _ _ _ _ (c_value cr) Hrep Hcl)).
  pose proof (represents_store _ _ _ _ (c_value cr) Hrep Hcl) as Hrep1.
  set (i := Z.to_nat (Traverse_index (size s) Left)) in *.
  set (j := Z.to_nat (Traverse_index (size s) Right)) in *.
  assert (exists cr', <[i := set_value (c_value cr) cl]> cells !! j = Some cr'
                      /\ c_node cr' = c_node cr /\ c_data cr' = c_data cr)
    as (cr' & Hcr' & Hn' & Hd').
  { destruct (decide (j = i)) as [->|Hne].
    - rewrite list_lookup_insert_eq by (by eapply lookup_lt_Some).
      eexists; split; [done|]. simplify_eq. done.
    - rewrite list_lookup_insert_ne by done. eauto. }
  rewrite <- Hn', <- Hd'.
  rewrite (bind_Return _ _ _ _ _ (element_of_spec _ _ _ _ Hrep1 Hcr')).
  rewrite (write_element_spec _ _ _ _ (c_value cl) Hrep1 Hcr'). done.
Qed.
End Elements.

(** ** Concrete runs *)

(** C1, at a failing input: in the list [0,1,2,3,4], [Insert(3, 9)] puts 9
    at position 1 and [Get(3)] then gives 2, because [Traverse(3)] walks
    back from [tail] to the node at position 1. *)
Theorem Insert_then_Get_misses :
  observe (value_of (p <- Traverse 3 ;; element_of p)) [0; 1; 2; 3; 4]
    = (Return 1, Return [0; 1; 2; 3; 4]) /\
  observe (Insert 3 9 ;;; value_of (Get 3)) [0; 1; 2; 3; 4]
    = (Return 2, Return [0; 9; 1; 2; 3; 4]).
Proof. split; vm_compute; reflexivity. Qed.

(** C5, at a failing input: on the list [0,1,2,3,4,5] one [Reverse()]
    gives [5,2,3,1,4,0] and a second one gives [0,3,1,2,4,5]:
    [Swap(1, 4)] exchanges the nodes at positions 1 and 2. *)
Theorem Reverse_twice_differs :
  observe Reverse [0; 1; 2; 3; 4; 5]
    = (Return tt, Return [5; 2; 3; 1; 4; 0]) /\
  observe (Reverse ;;; Reverse) [0; 1; 2; 3; 4; 5]
    = (Return tt, Return [0; 3; 1; 2; 4; 5]).
Proof. split; vm_compute; reflexivity. Qed.

(** C4, at a failing input: on the empty list the bound [Size - 1] of the
    loop of [Sorting::IsSorted] wraps around to [SIZE_MAX], the first
    iteration reads [Collection[0]] and [List::IsSorted()] throws. *)
Theorem IsSorted_empty_list_throws :
  IsSorted (list_of ([] : list Z))
    = (Fail (runtime_error 0 0), list_of ([] : list Z)).
Proof. lazy. reflexivity. Qed.

(** C6, the claim fails: [QuickSort()] does not turn the list
    [3,1,4,1,5] into [5,4,3,1,1]. *)
Lemma QuickSort_scenario_fails :
  snd (observe QuickSort [3; 1; 4; 1; 5]) <> Return [5; 4; 3; 1; 1].
Proof. vm_compute. discriminate. Qed.

(** C6, amended: with the default comparer [Sorting::QuickSort] puts the
    array [3,1,4,1,5] in the order [1,1,3,4,5]; in the list [3,1,4,1,5],
    [Find(1)] is 1, [FindLast(1)] is 3 and [Total(1)] is 2. *)
Theorem scenario_3_1_4_1_5 :
  Sorting.QuickSort 5 Sorting.GreaterThan [3; 1; 4; 1; 5]
    = (Return tt, [1; 1; 3; 4; 5]) /\
  fst (Find 1 (list_of [3; 1; 4; 1; 5])) = Return 1 /\
  fst (FindLast 1 (list_of [3; 1; 4; 1; 5])) = Return 3 /\
  fst (Total 1 (list_of [3; 1; 4; 1; 5])) = Return 2.
Proof. repeat split; vm_compute; reflexivity. Qed.

(** C2, the claim fails for a comparer that is no order: after
    [BubbleSort] of the array [1,2] with the comparer that is always true,
    [IsSorted] with that comparer is false. *)
Lemma sorts_any_comparer_fails :
  let always (_ _ : Z) := true in
  let a := snd (Sorting.BubbleSort 2 always [1; 2]) in
  fst (Sorting.IsSorted 2 always a) = Return false.
Proof. vm_compute. reflexivity. Qed.

(** ** The comparer of [QuickSort] *)

Section Comparer.
Context {C T : Type} `{!Indexable C T} `{!Greater T}.

Lemma RecursiveQuickSort_any_Comparer (cmp cmp' : T -> T -> bool) fuel :
  forall Low High (c : C),
    Sorting.RecursiveQuickSort fuel Low High cmp c
    = Sorting.RecursiveQuickSort fuel Low High cmp' c.
Proof.
  induction fuel as [|fuel IH]; intros Low High c; simpl; [done|].
  case_decide; [done|]. unfold bind.
  destruct (subscript High c) as [[Pivot|f] c1]; [|done].
  destruct (Sorting.Partition Low High Pivot Sorting.GreaterThan c1)
    as [[PivotIndex|f] c2]; [|done].
  case_decide.
  - rewrite (IH Low (size_t (PivotIndex - 1)) c2).
    destruct (Sorting.RecursiveQuickSort fuel Low _ cmp' c2) as [[[]|f] c3];
      [apply IH|done].
  - apply IH.
Qed.
End Comparer.

(** C3, the claim fails on the code: [RecursiveQuickSort] calls [Partition]
    without its [Comparer], so that every partition step compares with
    [GreaterThan]; the comparer given to [QuickSort] changes nothing.  With
    [LessThan] the array [1,3,2] becomes [1,2,3]: 1, for which
    [LessThan(1, 2)] is true, is before the pivot 2, and 3, for which it is
    false, is after it; [IsSorted] with [LessThan] then says no. *)
Theorem QuickSort_ignores_its_Comparer :
  (forall (Size : Z) (cmp : Z -> Z -> bool) (a : list Z),
     Sorting.QuickSort Size cmp a
     = Sorting.QuickSort Size Sorting.GreaterThan a) /\
  Sorting.QuickSort 3 LessThan [1; 3; 2] = (Return tt, [1; 2; 3]) /\
  Sorting.IsSorted 3 LessThan [1; 2; 3] = (Return false, [1; 2; 3]).
Proof.
  split; [|split; vm_compute; reflexivity].
  intros. apply RecursiveQuickSort_any_Comparer.
Qed.

(** ** Assignment to itself *)

(** C9: copy assignment and move assignment of a list to itself return at
    once; nothing in memory changes, so the size and the elements of the
    list are what they were. *)
Theorem self_assignment_no_op {T : Type} (this : loc) (mem : Memory (T := T)) :
  copy_assign this this mem = (Return tt, mem) /\
  move_assign this this mem = (Return tt, mem).
Proof. unfold copy_assign, move_assign. split; case_decide; done. Qed.

(** C7, an instance: [Get(5)] on the list [1,2,3]. *)
Lemma out_of_range_raises_witness :
  offending (OpGet 5) (list_of [1; 2; 3]) = Some 5 /\
  call (OpGet 5) (list_of [1; 2; 3])
  = (Fail (runtime_error 5 (size (list_of [1; 2; 3]))), list_of [1; 2; 3]).
Proof.
  split; [vm_compute; reflexivity|].
  apply (out_of_range_raises (OpGet 5) (list_of [1; 2; 3]) 5).
  vm_compute; reflexivity.
Defined.

(** ** [Swap], twice *)

Section SwapTwice.
Context {T : Type} `{!Greater T} `{!Equal T}.
Local Abbreviation cell := (cell T).
Implicit Types (s : State T) (cells : list cell).

Lemma with_elements_same s : with_elements s (elements s) = s.
Proof. by destruct s. Qed.

Lemma with_elements_twice s e e' :
  with_elements (with_elements s e) e' = with_elements s e'.
Proof. done. Qed.

Lemma Swap_same s Index :
  Invariant s -> size s < 2 ^ 64 -> 0 <= Index < size s ->
  Swap Index Index s = (Return tt, s).
Proof.
  intros [cells Hrep] Hsz HI.
  destruct (Swap_spec s cells Index Index Hrep HI HI Hsz)
    as (cl & cr & Hcl & Hcr & ->).
  simplify_eq. f_equal.
  destruct Hrep as (_ & _ & H & _). destruct (H _ _ Hcl) as [_ He].
  rewrite !insert_id; [apply with_elements_same|done|].
  by rewrite insert_id.
Qed.

Lemma Swap_twice s Left Right :
  Invariant s -> size s < 2 ^ 64 ->
  0 <= Left < size s -> 0 <= Right < size s ->
  (Swap Left Right ;;; Swap Left Right) s = (Return tt, s).
Proof.
  intros [cells Hrep] Hsz HL HR.
  destruct (Swap_spec s cells Left Right Hrep HL HR Hsz)
    as (cl & cr & Hcl & Hcr & Hswap).
  rewrite (bind_Return _ _ _ _ _ Hswap).
  set (i := Z.to_nat (Traverse_index (size s) Left)) in *.
  set (j := Z.to_nat (Traverse_index (size s) Right)) in *.
  pose proof (represents_store _ _ _ _ (c_value cr) Hrep Hcl) as Hrep1.
  pose proof Hrep as (_ & _ & Hcells & _).
  destruct (Hcells _ _ Hcl) as [_ Hel]. destruct (Hcells _ _ Hcr) as [_ Her].
  destruct (decide (i = j)) as [Heq|Hne].
  - (* both indices reach one node *)
    assert (cl = cr) as -> by congruence.
    assert (Hid : <[c_data cr := c_value cr]>
                    (<[c_data cr := c_value cr]> (elements s)) = elements s)
      by (rewrite (insert_id (elements s)) by done; by apply insert_id).
    rewrite Hid, with_elements_same in *. exact Hswap.
  - assert (Hd : c_data cl <> c_data cr).
    { intros Hd. apply Hne.
      exact (represents_data_inj _ _ _ _ _ _ Hrep Hcl Hcr Hd). }
    assert (Hcr1 : <[i := set_value (c_value cr) cl]> cells !! j = Some cr)
      by (by rewrite list_lookup_insert_ne).
    pose proof (represents_store _ _ _ _ (c_value cl) Hrep1 Hcr1) as Hrep2.
    simpl in Hrep2. rewrite with_elements_twice in Hrep2.
    set (s2 := with_elements s _) in *.
    assert (Hl2 : <[j := set_value (c_value cl) cr]>
                    (<[i := set_value (c_value cr) cl]> cells) !! i
                  = Some (set_value (c_value cr) cl)).
    { rewrite list_lookup_insert_ne by done.
      apply list_lookup_insert_eq. by eapply lookup_lt_Some. }
    assert (Hr2 : <[j := set_value (c_value cl) cr]>
                    (<[i := set_value (c_value cr) cl]> cells) !! j
                  = Some (set_value (c_value cl) cr)).
    { apply list_lookup_insert_eq. rewrite length_insert. by eapply lookup_lt_Some. }
    destruct (Swap_spec s2 _ Left Right Hrep2 HL HR Hsz)
      as (cl2 & cr2 & Hcl2 & Hcr2 & ->).
    change (size s2) with (size s) in *. fold i j in Hcl2, Hcr2.
    rewrite Hl2 in Hcl2. rewrite Hr2 in Hcr2. simplify_eq. simpl.
    f_equal. rewrite <- (with_elements_same s) at 2. unfold s2.
    rewrite with_elements_twice. f_equal. simpl.
    apply map_eq. intros k.
    destruct (decide (k = c_data cr)) as [->|Hkr].
    { by rewrite lookup_insert_eq. }
    rewrite lookup_insert_ne by done.
    destruct (decide (k = c_data cl)) as [->|Hkl].
    { by rewrite lookup_insert_eq. }
    by rewrite !lookup_insert_ne by done.
Qed.
End SwapTwice.

(** ** Triples *)

Section Triples.
Context {St : Type}.
Implicit Types (P : St -> Prop) (E : failure -> St -> Prop).

Lemma triple_ret {A} P (a : A) (Q : A -> St -> Prop) E :
  (forall s, P s -> Q a s) -> triple P (ret a) Q E.
Proof. intros H s Hs. by apply H. Qed.

Lemma triple_fail {A} P f (Q : A -> St -> Prop) E :
  (forall s, P s -> E f s) -> triple P (fail f) Q E.
Proof. intros H s Hs. by apply H. Qed.

Lemma triple_bind {A B} P (m : M St A) (k : A -> M St B) R Q E :
  triple P m R E -> (forall a, triple (R a) (k a) Q E) ->
  triple P (bind m k) Q E.
Proof.
  intros Hm Hk s Hs. unfold bind. specialize (Hm s Hs).
  destruct (m s) as [[a|f] s1]; [by apply Hk|done].
Qed.

Lemma triple_weaken {A} P P' (m : M St A) (Q Q' : A -> St -> Prop) E E' :
  triple P' m Q' E' ->
  (forall s, P s -> P' s) -> (forall a s, Q' a s -> Q a s) ->
  (forall f s, E' f s -> E f s) ->
  triple P m Q E.
Proof.
  intros Hm HP HQ HE s Hs. specialize (Hm s (HP s Hs)).
  destruct (m s) as [[a|f] s1]; auto.
Qed.

Lemma triple_pre {A} P (m : M St A) (Q : A -> St -> Prop) E :
  (forall s, P s -> triple (fun s' => s' = s) m Q E) -> triple P m Q E.
Proof. intros H s Hs. by apply (H s Hs). Qed.

Lemma triple_assume {A} (phi : Prop) P (m : M St A) (Q : A -> St -> Prop) E :
  (phi -> triple P m Q E) -> triple (fun s => P s /\ phi) m Q E.
Proof. intros H s [Hs Hphi]. by apply H. Qed.

Lemma triple_get_state P (Q : St -> St -> Prop) E :
  (forall s, P s -> Q s s) -> triple P get_state Q E.
Proof. intros H s Hs. by apply H. Qed.

Lemma triple_for_loop {A R} (Inv : nat -> A -> St -> Prop)
    (Q : flow A R -> St -> Prop) E (body : Z -> A -> M St (flow A R)) n Low :
  0 <= Low -> Low + Z.of_nat n < 2 ^ 64 ->
  (forall k a, (k < n)%nat ->
     triple (Inv k a) (body (Low + Z.of_nat k) a)
       (fun r s => match r with
                   | Next a' => Inv (S k) a' s
                   | Done x => Q (Done x) s
                   end) E) ->
  (forall a s, Inv n a s -> Q (Next a) s) ->
  forall k a, (k <= n)%nat ->
    triple (Inv k a) (for_loop (n - k) (Low + Z.of_nat k) a body) Q E.
Proof.
  intros HLow Hn Hbody Hend k a Hk.
  remember (n - k)%nat as j eqn:Hj. revert k a Hk Hj.
  induction j as [|j IH]; intros k a Hk Hj; simpl.
  - apply triple_ret. intros s Hs. apply Hend.
    by replace n with k by lia.
  - eapply triple_bind; [apply Hbody; lia|].
    intros [a'|x]; simpl.
    + rewrite size_t_small by lia.
      replace (Low + Z.of_nat k + 1) with (Low + Z.of_nat (S k)) by lia.
      apply IH; lia.
    + by apply triple_ret.
Qed.

Lemma triple_for_range {A R} (Inv : Z -> A -> St -> Prop) P
    (Q : flow A R -> St -> Prop) E (body : Z -> A -> M St (flow A R))
    Low High a :
  0 <= Low < 2 ^ 64 -> High < 2 ^ 64 ->
  (forall s, P s -> Inv Low a s) ->
  (forall i a, Low <= i < High ->
     triple (Inv i a) (body i a)
       (fun r s => match r with
                   | Next a' => Inv (i + 1) a' s
                   | Done x => Q (Done x) s
                   end) E) ->
  (forall a s, Inv (Z.max Low High) a s -> Q (Next a) s) ->
  triple P (for_range Low High a body) Q E.
Proof.
  intros HLow HHigh Hinit Hbody Hend. unfold for_range.
  set (n := Z.to_nat (High - Low)).
  pose proof (triple_for_loop (fun k => Inv (Low + Z.of_nat k)) Q E body n Low)
    as H.
  replace (for_loop n Low a body)
    with (for_loop (n - 0) (Low + Z.of_nat 0%nat) a body)
    by (f_equal; [lia|simpl; lia]).
  intros s Hs. apply H; try lia.
  - intros k a' Hk.
    replace (Low + Z.of_nat (S k)) with (Low + Z.of_nat k + 1) by lia.
    apply Hbody. lia.
  - intros a' s' Hs'. apply Hend.
    replace (Z.max Low High) with (Low + Z.of_nat n) by lia. done.
  - replace (Low + Z.of_nat 0%nat) with Low by lia. by apply Hinit.
Qed.

Lemma triple_while {A} (Inv : A -> St -> Prop) (measure : A -> nat) E
    (cond : A -> bool) (body : A -> M St A) :
  (forall a s, Inv a s -> cond a = true -> (0 < measure a)%nat) ->
  (forall a, cond a = true ->
     triple (Inv a) (body a)
       (fun a' s => Inv a' s /\ (measure a' < measure a)%nat) E) ->
  forall fuel a, (measure a <= fuel)%nat ->
    triple (Inv a) (while_loop fuel cond body a)
      (fun a' s => Inv a' s /\ cond a' = false) E.
Proof.
  intros Hpos Hbody fuel. induction fuel as [|fuel IH]; intros a Hfuel; simpl.
  - destruct (cond a) eqn:Hc.
    + intros s Hs. specialize (Hpos a s Hs Hc). lia.
    + apply triple_ret. auto.
  - destruct (cond a) eqn:Hc.
    + eapply triple_bind; [by apply Hbody|].
      intros a'. intros s [Hs Hlt]. apply IH; [lia|done].
    + apply triple_ret. auto.
Qed.
End Triples.

(** ** What the algorithms of [Sorting] keep, on any collection *)

Section SortingKeeps.
Context {C T : Type} `{!Indexable C T} `{!Greater T}.
Variables (I : C -> Prop) (good : ref C T -> Prop).
Local Abbreviation thrown := (thrown I).

Hypothesis subscript_keeps : forall i, 0 <= i < 2 ^ 64 ->
  triple I (subscript i) (fun r c => I c /\ good r) thrown.
Hypothesis load_keeps : forall r, good r ->
  triple I (load r) (fun _ => I) thrown.
Hypothesis store_keeps : forall r v, good r ->
  triple I (store r v) (fun _ => I) thrown.

Lemma triple_and_good {A} (m : M C A) (r : ref C T) (Q : A -> C -> Prop) :
  good r -> triple I m Q thrown ->
  triple (fun c => I c /\ good r) m Q thrown.
Proof. intros Hr Hm c [Hc _]. by apply Hm. Qed.

Lemma at_index_keeps i :
  0 <= i < 2 ^ 64 -> triple I (Sorting.at_index i) (fun _ => I) thrown.
Proof.
  intros Hi. eapply triple_bind; [by apply subscript_keeps|].
  intros r c [Hc Hr]. by apply load_keeps.
Qed.

Lemma set_index_keeps i v :
  0 <= i < 2 ^ 64 -> triple I (Sorting.set_index i v) (fun _ => I) thrown.
Proof.
  intros Hi. eapply triple_bind; [by apply subscript_keeps|].
  intros r c [Hc Hr]. by apply store_keeps.
Qed.

Lemma assign_index_keeps i j :
  0 <= i < 2 ^ 64 -> 0 <= j < 2 ^ 64 ->
  triple I (Sorting.assign_index i j) (fun _ => I) thrown.
Proof.
  intros Hi Hj. eapply triple_bind; [by apply at_index_keeps|].
  intros v. by apply set_index_keeps.
Qed.

Lemma swap_index_keeps i j :
  0 <= i < 2 ^ 64 -> 0 <= j < 2 ^ 64 ->
  triple I (Sorting.swap_index i j) (fun _ => I) thrown.
Proof.
  intros Hi Hj. eapply triple_bind; [by apply at_index_keeps|].
  intros v. eapply triple_bind; [by apply assign_index_keeps|].
  intros ?. by apply set_index_keeps.
Qed.

Lemma IsSorted_keeps Size cmp :
  triple I (Sorting.IsSorted Size cmp) (fun _ => I) thrown.
Proof.
  pose proof (size_t_range (Size - 1)).
  eapply triple_bind.
  - apply (triple_for_range (fun _ _ => I) I (fun _ => I)); [lia|lia|auto| |auto].
    intros i [] Hi.
    eapply triple_bind; [apply at_index_keeps; lia|]. intros a.
    eapply triple_bind; [apply at_index_keeps, size_t_range|]. intros b.
    destruct (cmp a b); (apply triple_ret; simpl; auto).
  - intros r. destruct r as [u|b]; (apply triple_ret; simpl; auto).
Qed.

Lemma BubbleSort_keeps Size cmp :
  triple I (Sorting.BubbleSort Size cmp) (fun _ => I) thrown.
Proof.
  pose proof (size_t_range (Size - 1)).
  eapply triple_bind; [|intros ?; apply triple_ret; intros c Hc; exact Hc].
  apply (triple_for_range (fun _ _ => I) I (fun _ => I)); [lia|lia|auto| |auto].
  intros Left [] HLeft.
  pose proof (size_t_range (Size - Left - 1)).
  eapply triple_bind.
  - apply (triple_for_range (fun _ _ => I) I (fun _ => I)); [lia|lia|auto| |auto].
    intros Right HasSwapped HRight.
    eapply triple_bind; [apply at_index_keeps; lia|]. intros a.
    eapply triple_bind; [apply at_index_keeps, size_t_range|]. intros b.
    destruct (cmp a b); [|(apply triple_ret; simpl; auto)].
    eapply triple_bind; [apply swap_index_keeps; [lia|apply size_t_range]|].
    intros ?. (apply triple_ret; simpl; auto).
  - intros r. destruct r as [HasSwapped|e]; [|destruct e].
    destruct HasSwapped; (apply triple_ret; simpl; auto).
Qed.

Lemma copy_out_keeps From Size :
  0 <= Size < 2 ^ 64 ->
  triple I (Sorting.copy_out From Size)
    (fun Buffer c => I c /\ length Buffer = Z.to_nat Size) thrown.
Proof.
  intros HSize. eapply triple_bind.
  - apply (triple_for_range
             (fun i Buffer c => I c /\ Z.of_nat (length Buffer) = i) I
             (fun r c => match r with
                         | Next Buffer => I c /\ length Buffer = Z.to_nat Size
                         | Done e => False
                         end)); [lia|lia|done| |].
    + intros i Buffer Hi. apply triple_assume. intros Hlen.
      eapply triple_bind; [apply at_index_keeps, size_t_range|].
      intros v. apply triple_ret. intros c Hc. simpl.
      split; [done|]. rewrite length_app. simpl. lia.
    + intros Buffer c [Hc Hlen]. split; [done|]. lia.
  - intros r. destruct r as [Buffer|e]; [|destruct e].
    by apply triple_ret.
Qed.

Lemma buffer_at_keeps (Buffer : list T) Index :
  0 <= Index < Z.of_nat (length Buffer) ->
  triple I (Sorting.buffer_at Buffer Index) (fun _ => I) thrown.
Proof.
  intros Hi. unfold Sorting.buffer_at.
  destruct (lookup_lt_is_Some_2 Buffer (Z.to_nat Index)) as [v ->]; [lia|].
  by apply triple_ret.
Qed.

Lemma take_left_keeps (Left : list T) RightSize c :
  Z.of_nat (length Left) < 2 ^ 64 ->
  cursors_in (Z.of_nat (length Left)) RightSize c ->
  Sorting.Begin_ c < Z.of_nat (length Left) ->
  triple I (Sorting.take_left Left c)
    (fun c' s => (I s /\ cursors_in (Z.of_nat (length Left)) RightSize c') /\
                 Sorting.Begin_ c' = Sorting.Begin_ c + 1 /\
                 Sorting.End_ c' = Sorting.End_ c) thrown.
Proof.
  intros Hlen (HB & HE & HM) Hlt. unfold Sorting.take_left.
  eapply triple_bind; [apply buffer_at_keeps; lia|]. intros v.
  eapply triple_bind; [by apply set_index_keeps|]. intros ?.
  apply triple_ret. intros s Hs. simpl.
  pose proof (size_t_range (Sorting.Middle_ c + 1)).
  rewrite size_t_small by lia. unfold cursors_in; simpl. repeat split; try done; lia.
Qed.

Lemma take_right_keeps (Right : list T) LeftSize c :
  Z.of_nat (length Right) < 2 ^ 64 ->
  cursors_in LeftSize (Z.of_nat (length Right)) c ->
  Sorting.End_ c < Z.of_nat (length Right) ->
  triple I (Sorting.take_right Right c)
    (fun c' s => (I s /\ cursors_in LeftSize (Z.of_nat (length Right)) c') /\
                 Sorting.Begin_ c' = Sorting.Begin_ c /\
                 Sorting.End_ c' = Sorting.End_ c + 1) thrown.
Proof.
  intros Hlen (HB & HE & HM) Hlt. unfold Sorting.take_right.
  eapply triple_bind; [apply buffer_at_keeps; lia|]. intros v.
  eapply triple_bind; [by apply set_index_keeps|]. intros ?.
  apply triple_ret. intros s Hs. simpl.
  pose proof (size_t_range (Sorting.Middle_ c + 1)).
  rewrite size_t_small by lia. unfold cursors_in; simpl. repeat split; try done; lia.
Qed.

Lemma Merge_keeps Begin Middle End cmp :
  0 <= Begin < 2 ^ 64 ->
  triple I (Sorting.Merge Begin Middle End cmp) (fun _ => I) thrown.
Proof.
  intros HBegin. unfold Sorting.Merge.
  set (LeftSize := size_t (Middle - Begin + 1)).
  set (RightSize := size_t (End - Middle)).
  pose proof (size_t_range (Middle - Begin + 1)).
  pose proof (size_t_range (End - Middle)).
  eapply triple_bind; [apply copy_out_keeps; fold LeftSize; lia|].
  intros Left. apply triple_assume. intros HLeft.
  eapply triple_bind; [apply copy_out_keeps; fold RightSize; lia|].
  intros Right. apply triple_assume. intros HRight.
  assert (HL : Z.of_nat (length Left) = LeftSize) by (fold LeftSize in HLeft; lia).
  assert (HR : Z.of_nat (length Right) = RightSize) by (fold RightSize in HRight; lia).
  set (J := fun c s => I s /\ cursors_in LeftSize RightSize c).
  assert (Hleft : forall c, Sorting.Begin_ c < LeftSize ->
            triple (J c) (Sorting.take_left Left c)
              (fun c' s => J c' s /\
                 Sorting.Begin_ c' = Sorting.Begin_ c + 1 /\
                 Sorting.End_ c' = Sorting.End_ c) thrown).
  { intros c Hlt s [Hs Hc].
    pose proof (take_left_keeps Left RightSize c) as Htl. rewrite HL in Htl.
    exact (Htl ltac:(lia) Hc Hlt s Hs). }
  assert (Hright : forall c, Sorting.End_ c < RightSize ->
            triple (J c) (Sorting.take_right Right c)
              (fun c' s => J c' s /\
                 Sorting.Begin_ c' = Sorting.Begin_ c /\
                 Sorting.End_ c' = Sorting.End_ c + 1) thrown).
  { intros c Hlt s [Hs Hc].
    pose proof (take_right_keeps Right LeftSize c) as Htr. rewrite HR in Htr.
    exact (Htr ltac:(lia) Hc Hlt s Hs). }
  match goal with
  | |- triple _ (bind (while_loop ?f ?c1 ?b1 ?a)
                   (fun c => bind (while_loop _ ?c2 ?b2 _)
                     (fun c' => bind (while_loop _ ?c3 ?b3 _) _))) _ _ =>
      set (fuel := f); set (cond1 := c1); set (body1 := b1);
      set (cond2 := c2); set (cond3 := c3)
  end.
  eapply (triple_bind _ _ _ (fun c s => J c s /\ cond1 c = false)).
  { intros s Hs.
    apply (triple_while J
             (fun c => Z.to_nat (LeftSize - Sorting.Begin_ c
                                 + (RightSize - Sorting.End_ c))) thrown).
    - intros c s' [_ (HB & HE & _)] Hcond.
      apply andb_true_iff in Hcond as [H1 H2].
      apply bool_decide_eq_true in H1, H2. lia.
    - intros c Hcond. apply andb_true_iff in Hcond as [H1 H2].
      apply bool_decide_eq_true in H1, H2.
      intros s' [Hs' Hc]. pose proof Hc as (HB & HE & HM).
      revert s' Hs'. unfold body1.
      eapply triple_bind; [apply buffer_at_keeps; lia|]. intros l.
      eapply triple_bind; [apply buffer_at_keeps; lia|]. intros r.
      destruct (negb (cmp l r)).
      + intros s' Hs'. specialize (Hleft c H1 s' (conj Hs' Hc)).
        destruct (Sorting.take_left Left c s') as [[c'|f] s1]; [|done].
        destruct Hleft as [HJ [Hb He]]. split; [done|]. lia.
      + intros s' Hs'. specialize (Hright c H2 s' (conj Hs' Hc)).
        destruct (Sorting.take_right Right c s') as [[c'|f] s1]; [|done].
        destruct Hright as [HJ [Hb He]]. split; [done|]. lia.
    - unfold fuel. simpl. lia.
    - split; [done|]. unfold cursors_in; simpl. lia. }
  intros c1.
  eapply (triple_bind _ _ _ (fun c s => J c s /\ cond2 c = false)).
  { intros s [[Hs Hc1] _].
    apply (triple_while J (fun c => Z.to_nat (LeftSize - Sorting.Begin_ c)) thrown).
    - intros c s' [_ (HB & HE & _)] Hcond.
      apply bool_decide_eq_true in Hcond. lia.
    - intros c Hcond. apply bool_decide_eq_true in Hcond.
      intros s' Hs'. specialize (Hleft c Hcond s' Hs').
      destruct (Sorting.take_left Left c s') as [[c'|f] s1]; [|done].
      destruct Hleft as [HJ [Hb He]]. split; [done|]. lia.
    - unfold fuel. destruct Hc1 as (HB & HE & _). lia.
    - done. }
  intros c2.
  eapply (triple_bind _ _ _ (fun c s => J c s /\ cond3 c = false)).
  { intros s [[Hs Hc2] _].
    apply (triple_while J (fun c => Z.to_nat (RightSize - Sorting.End_ c)) thrown).
    - intros c s' [_ (HB & HE & _)] Hcond.
      apply bool_decide_eq_true in Hcond. lia.
    - intros c Hcond. apply bool_decide_eq_true in Hcond.
      intros s' Hs'. specialize (Hright c Hcond s' Hs').
      destruct (Sorting.take_right Right c s') as [[c'|f] s1]; [|done].
      destruct Hright as [HJ [Hb He]]. split; [done|]. lia.
    - unfold fuel. destruct Hc2 as (HB & HE & _). lia.
    - done. }
  intros c3. apply triple_ret. by intros s [[Hs _] _].
Qed.

(** The recursion of [RecursiveMergeSort] on a range below [2^63] is not
    deeper than the range is long. *)
Lemma RecursiveMergeSort_keeps cmp fuel :
  forall Begin End,
    0 <= Begin -> End < 2 ^ 63 -> (Z.to_nat (End - Begin) < fuel)%nat ->
    triple I (Sorting.RecursiveMergeSort fuel Begin End cmp)
      (fun _ => I) thrown.
Proof.
  induction fuel as [|fuel IH]; intros Begin End HB HE Hfuel; [lia|].
  simpl. case_decide as Hge; [by apply triple_ret|].
  assert (Hmid : Begin <= (Begin + End) / 2 < End).
  { pose proof (Z.div_mod (Begin + End) 2). 
    pose proof (Z.mod_pos_bound (Begin + End) 2). lia. }
  rewrite (size_t_small (Begin + End)) by lia.
  rewrite (size_t_small ((Begin + End) / 2 + 1)) by lia.
  eapply triple_bind; [apply IH; lia|]. intros ?.
  eapply triple_bind; [apply IH; lia|]. intros ?.
  apply Merge_keeps. lia.
Qed.

Lemma Partition_keeps Low High Pivot cmp :
  0 <= Low -> Low < High < 2 ^ 64 -> good Pivot ->
  triple I (Sorting.Partition Low High Pivot cmp)
    (fun PivotIndex c => I c /\ Low <= PivotIndex <= High) thrown.
Proof.
  intros HLow HHigh HPivot. unfold Sorting.Partition.
  eapply triple_bind.
  - apply (triple_for_range
             (fun Index PivotIndex c => I c /\ Low <= PivotIndex <= Index) I
             (fun r c => match r with
                         | Next PivotIndex => I c /\ Low <= PivotIndex <= High
                         | Done e => False
                         end)); [lia|lia| | |].
    + intros c Hc. split; [done|lia].
    + intros Index PivotIndex HIndex. apply triple_assume. intros HPI.
      eapply triple_bind; [apply at_index_keeps; lia|]. intros x.
      eapply triple_bind; [by apply load_keeps|]. intros p.
      destruct (negb (cmp x p)).
      * eapply triple_bind; [apply swap_index_keeps; lia|]. intros ?.
        apply triple_ret. intros c Hc. simpl. split; [done|].
        rewrite size_t_small by lia. lia.
      * apply triple_ret. intros c Hc. simpl. split; [done|]. lia.
    + intros PivotIndex c [Hc HPI]. split; [done|]. lia.
  - intros r. destruct r as [PivotIndex|e]; [|destruct e].
    apply triple_assume. intros HPI.
    eapply triple_bind; [apply swap_index_keeps; lia|]. intros ?.
    apply triple_ret. by intros c Hc.
Qed.

(** The recursion of [RecursiveQuickSort] is not deeper than the range is
    long, whatever the pivots are. *)
Lemma RecursiveQuickSort_keeps cmp fuel :
  forall Low High,
    0 <= Low -> High < 2 ^ 64 - 1 -> (Z.to_nat (High - Low) < fuel)%nat ->
    triple I (Sorting.RecursiveQuickSort fuel Low High cmp)
      (fun _ => I) thrown.
Proof.
  induction fuel as [|fuel IH]; intros Low High HL HH Hfuel; [lia|].
  simpl. case_decide as Hge; [by apply triple_ret|].
  eapply triple_bind; [apply subscript_keeps; lia|]. intros Pivot.
  intros c [Hc HPivot]. revert c Hc.
  eapply triple_bind; [apply Partition_keeps; (done || lia)|].
  intros PivotIndex. apply triple_assume. intros HPI.
  eapply triple_bind.
  - case_decide.
    + rewrite size_t_small by lia. apply IH; lia.
    + by apply triple_ret.
  - intros ?. rewrite size_t_small by lia. apply IH; lia.
Qed.

Lemma MergeSort_keeps Size cmp :
  1 <= Size <= 2 ^ 63 ->
  triple I (Sorting.MergeSort Size cmp) (fun _ => I) thrown.
Proof.
  intros HSize. unfold Sorting.MergeSort, Sorting.depth.
  rewrite size_t_small by lia. apply RecursiveMergeSort_keeps; lia.
Qed.

Lemma QuickSort_keeps Size cmp :
  1 <= Size < 2 ^ 64 ->
  triple I (Sorting.QuickSort Size cmp) (fun _ => I) thrown.
Proof.
  intros HSize. unfold Sorting.QuickSort, Sorting.depth.
  rewrite size_t_small by lia. apply RecursiveQuickSort_keeps; lia.
Qed.

End SortingKeeps.

Lemma bind_ret_l {S A B} (a : A) (k : A -> M S B) : bind (ret a) k = k a.
Proof. reflexivity. Qed.

Lemma signed_in_range {S} (x : Z) :
  - 2 ^ 63 <= x < 2 ^ 63 -> signed (S := S) x = ret x.
Proof. intros H. unfold signed. by case_decide. Qed.

(** A [ret] under a triple whose postcondition follows at once. *)
Ltac tret :=
  apply triple_ret; simpl; intros;
  repeat match goal with H : _ /\ _ |- _ => destruct H end;
  repeat split; eauto; try lia.

Section ListKeeps.
Context {T : Type} `{!Greater T} `{!Equal T}.
Local Abbreviation cell := (cell T).
Implicit Types (s : State T) (cells : list cell).

Lemma same_shape_length cells0 cells :
  same_shape cells0 cells -> length cells = length cells0.
Proof. intros [H _]. by rewrite <- (length_fmap c_node), H, length_fmap. Qed.

Lemma same_shape_address cells0 cells i :
  same_shape cells0 cells -> address cells i = address cells0 i.
Proof. intros [H _]. unfold address. by rewrite <- !list_lookup_fmap, H. Qed.

Lemma same_shape_data cells0 cells i :
  same_shape cells0 cells -> c_data <$> cells !! i = c_data <$> cells0 !! i.
Proof. intros [_ H]. by rewrite <- !list_lookup_fmap, H. Qed.

Lemma same_shape_store cells0 cells i c v :
  same_shape cells0 cells -> cells !! i = Some c ->
  same_shape cells0 (<[i := set_value v c]> cells).
Proof.
  intros [Hn Hd] Hc. split.
  - by rewrite (fmap_insert_same c_node cells i c).
  - by rewrite (fmap_insert_same c_data cells i c).
Qed.

Lemma Shaped_Invariant cells0 s : Shaped cells0 s -> Invariant s.
Proof. intros (cells & Hrep & _). by exists cells. Qed.

Lemma Shaped_refl s cells : represents s cells -> Shaped cells s.
Proof. intros Hrep. exists cells. by split. Qed.

Section Shape.
Variable cells0 : list cell.
Hypothesis cells0_small : Z.of_nat (length cells0) < 2 ^ 63.
Local Abbreviation I := (Shaped cells0).
Local Abbreviation thrown := (thrown I).
Local Abbreviation iterator_at := (iterator_at cells0).

Lemma Shaped_inv s :
  I s -> exists cells,
    represents s cells /\ same_shape cells0 cells /\
    size s = Z.of_nat (length cells0).
Proof.
  intros (cells & Hrep & Hshape). exists cells. do 2 (split; [done|]).
  destruct Hrep as (_ & _ & _ & -> & _). by rewrite (same_shape_length cells0).
Qed.

Lemma subscript_Shaped i :
  0 <= i ->
  triple I (subscript_ i) (fun r s => I s /\ element_in cells0 r) thrown.
Proof.
  intros Hi s Hs. destruct (Shaped_inv s Hs) as (cells & Hrep & Hshape & Hsize).
  assert (Hsz : size s < 2 ^ 64) by lia.
  destruct (decide (i < size s)) as [Hlt|Hge].
  - destruct (subscript_spec s cells i Hrep ltac:(lia) Hsz) as (c & Hc & ->).
    split; [done|]. unfold element_in. destruct Hshape as [_ <-].
    apply list_elem_of_fmap. exists c. split; [done|].
    by eapply list_elem_of_lookup_2.
  - rewrite subscript_throws by done. split; [eauto|done].
Qed.

Lemma element_in_cell cells d :
  same_shape cells0 cells -> element_in cells0 d ->
  exists i c, cells !! i = Some c /\ c_data c = d.
Proof.
  intros [_ Hd] Hin. unfold element_in in Hin. rewrite <- Hd in Hin.
  apply list_elem_of_fmap in Hin as (c & -> & Hc).
  apply list_elem_of_lookup in Hc as [i Hi]. eauto.
Qed.

Lemma read_element_Shaped d :
  element_in cells0 d -> triple I (read_element d) (fun _ => I) thrown.
Proof.
  intros Hd s Hs. destruct (Shaped_inv s Hs) as (cells & Hrep & Hshape & Hsize).
  assert (Hsz : size s < 2 ^ 64) by lia.
  destruct (element_in_cell cells d Hshape Hd) as (i & c & Hc & <-).
  by rewrite (read_element_spec s cells i c Hrep Hc).
Qed.

Lemma write_element_Shaped d v :
  element_in cells0 d -> triple I (write_element d v) (fun _ => I) thrown.
Proof.
  intros Hd s Hs. destruct (Shaped_inv s Hs) as (cells & Hrep & Hshape & Hsize).
  assert (Hsz : size s < 2 ^ 64) by lia.
  destruct (element_in_cell cells d Hshape Hd) as (i & c & Hc & <-).
  rewrite (write_element_spec s cells i c v Hrep Hc).
  exists (<[i := set_value v c]> cells). split; [by apply represents_store|].
  by apply same_shape_store.
Qed.

Lemma invalid_index_Shaped {A} (k : M (State T) A) Q Index :
  (forall s, Index < size s -> triple (fun s' => s' = s /\ I s) k Q thrown) ->
  triple I (valid <- IsValidIndex Index ;;
            if negb valid then throw_out_of_bounds Index else k) Q thrown.
Proof.
  intros Hk s Hs. destruct (decide (Index < size s)) as [Hlt|Hge].
  - unfold bind, IsValidIndex, get_state, ret; simpl.
    rewrite bool_decide_eq_true_2 by done. simpl. by apply (Hk s Hlt).
  - rewrite invalid_index_throws by done. split; [eauto|done].
Qed.

Lemma Set_Shaped Index v :
  0 <= Index -> triple I (Set_ Index v) (fun _ => I) thrown.
Proof.
  intros Hi. eapply triple_bind; [by apply subscript_Shaped|].
  intros r s [Hs Hr]. by apply write_element_Shaped.
Qed.

Lemma Swap_Shaped Left Right :
  0 <= Left -> 0 <= Right -> triple I (Swap Left Right) (fun _ => I) thrown.
Proof.
  intros HL HR s Hs. destruct (Shaped_inv s Hs) as (cells & Hrep & Hshape & Hsize).
  assert (Hsz : size s < 2 ^ 64) by lia.
  destruct (offending (OpSwap Left Right) s) as [i|] eqn:Hoff.
  { pose proof (out_of_range_raises _ _ _ Hoff) as Hthrow. simpl in Hthrow.
    rewrite Hthrow. split; [eauto|done]. }
  simpl in Hoff. repeat case_decide; try discriminate.
  destruct (Swap_spec s cells Left Right Hrep ltac:(lia) ltac:(lia) Hsz)
    as (cl & cr & Hcl & Hcr & ->).
  set (i := Z.to_nat (Traverse_index (size s) Left)) in *.
  set (j := Z.to_nat (Traverse_index (size s) Right)) in *.
  pose proof (represents_store _ _ _ _ (c_value cr) Hrep Hcl) as Hrep1.
  pose proof (same_shape_store _ _ _ _ (c_value cr) Hshape Hcl) as Hshape1.
  assert (exists cr', <[i := set_value (c_value cr) cl]> cells !! j = Some cr'
                      /\ c_data cr' = c_data cr) as (cr' & Hcr' & Hd').
  { destruct (decide (j = i)) as [Heq|Hne].
    - rewrite Heq, list_lookup_insert_eq by (by eapply lookup_lt_Some).
      eexists; split; [done|]. rewrite Heq in Hcr. by simplify_eq.
    - rewrite list_lookup_insert_ne by done. eauto. }
  pose proof (represents_store _ _ _ _ (c_value cl) Hrep1 Hcr') as Hrep2.
  rewrite Hd' in Hrep2.
  eexists. split; [exact Hrep2|]. by apply same_shape_store.
Qed.

(** *** Loops over the elements *)

Lemma iterator_at_end i : (length cells0 <= i)%nat -> iterator_at i NIL.
Proof.
  intros Hi. unfold iterator_at, address.
  by rewrite !lookup_ge_None_2 by lia.
Qed.

Lemma node_at_iterator cells i :
  same_shape cells0 cells -> iterator_at i (node_at cells i).
Proof.
  intros Hshape. split; simpl.
  - by apply same_shape_data.
  - by apply same_shape_address.
Qed.

Lemma pre_increment_Shaped i it :
  iterator_at i it ->
  triple I (pre_increment it) (fun it' s => I s /\ iterator_at (S i) it') thrown.
Proof.
  intros [Hd Hn] s Hs. destruct (Shaped_inv s Hs) as (cells & Hrep & Hshape & Hsize).
  assert (Hsz : size s < 2 ^ 64) by lia.
  unfold pre_increment. rewrite Hn. unfold address.
  destruct (cells0 !! S i) as [c0|] eqn:Hc0; simpl.
  - assert (exists c, cells !! S i = Some c /\ c_node c = c_node c0)
      as (c & Hc & <-).
    { pose proof (same_shape_address cells0 cells (S i) Hshape) as Ha.
      unfold address in Ha. rewrite Hc0 in Ha.
      destruct (cells !! S i) as [c|]; [|done]. exists c. by simplify_eq. }
    rewrite (read_node_at s cells Hrep (S i) c Hc).
    split; [done|]. by apply node_at_iterator.
  - split; [done|]. apply iterator_at_end.
    apply lookup_ge_None_1 in Hc0. lia.
Qed.

Lemma range_for_Shaped {A R} (J : nat -> A -> Prop)
    (body : loc -> A -> M (State T) (flow A R)) :
  (forall i d a, (i < length cells0)%nat -> J i a -> element_in cells0 d ->
     triple I (body d a)
       (fun r s => I s /\ match r with
                          | Next a' => J (S i) a'
                          | Done _ => True
                          end) thrown) ->
  forall fuel i it a,
    iterator_at i it -> (length cells0 - i <= fuel)%nat -> J i a ->
    triple I (range_for pre_increment fuel it a body) (fun _ => I) thrown.
Proof.
  intros Hbody fuel. induction fuel as [|fuel IH]; intros i it a Hit Hfuel HJ.
  - destruct Hit as [Hd _]. simpl. rewrite Hd.
    rewrite lookup_ge_None_2 by lia. by apply triple_ret.
  - pose proof Hit as [Hd _]. simpl. rewrite Hd.
    destruct (cells0 !! i) as [c0|] eqn:Hc0; simpl; [|by apply triple_ret].
    eapply triple_bind.
    { apply (Hbody i); [by eapply lookup_lt_Some|done|].
      apply list_elem_of_fmap. exists c0. split; [done|].
      by eapply list_elem_of_lookup_2. }
    intros r. destruct r as [a'|x]; [|apply triple_ret; by intros s [Hs _]].
    apply triple_assume. intros HJ'.
    eapply triple_bind; [by apply pre_increment_Shaped|].
    intros it' s [Hs Hit']. revert s Hs. apply (IH (S i)); [done|lia|done].
Qed.

Lemma represents_length_le s cells :
  represents s cells -> (length cells <= base.size (nodes s))%nat.
Proof.
  intros (Hnd & _ & Hcells & _).
  rewrite <- (length_fmap c_node), <- (size_list_to_set (C := gset loc)) by done.
  rewrite <- size_dom. apply subseteq_size.
  intros p Hp. apply elem_of_list_to_set, list_elem_of_fmap in Hp as (c & -> & Hc).
  apply list_elem_of_lookup in Hc as [i Hi].
  apply elem_of_dom. destruct (Hcells i c Hi) as [Hn _]. by rewrite Hn.
Qed.

Lemma begin_Shaped :
  triple I begin (fun it s => I s /\ iterator_at 0 it) thrown.
Proof.
  intros s Hs. destruct (Shaped_inv s Hs) as (cells & Hrep & Hshape & Hsize).
  assert (Hsz : size s < 2 ^ 64) by lia.
  pose proof (same_shape_length _ _ Hshape) as Hlen.
  pose proof Hrep as (_ & _ & _ & _ & Hhead & _).
  unfold begin, bind, get_state. rewrite Hhead. unfold address.
  destruct (cells !! 0%nat) as [c|] eqn:Hc; simpl.
  - rewrite (read_node_at s cells Hrep 0%nat c Hc).
    split; [done|]. by apply node_at_iterator.
  - split; [done|]. apply iterator_at_end.
    apply lookup_ge_None_1 in Hc. lia.
Qed.

Lemma for_each_Shaped {A R} (J : nat -> A -> Prop) a
    (body : loc -> A -> M (State T) (flow A R)) :
  (forall i d a, (i < length cells0)%nat -> J i a -> element_in cells0 d ->
     triple I (body d a)
       (fun r s => I s /\ match r with
                          | Next a' => J (S i) a'
                          | Done _ => True
                          end) thrown) ->
  J 0%nat a ->
  triple I (for_each a body) (fun _ => I) thrown.
Proof.
  intros Hbody HJ. unfold for_each.
  eapply triple_bind; [apply begin_Shaped|].
  intros it s [Hs Hit].
  destruct (Shaped_inv s Hs) as (cells & Hrep & Hshape & Hsize).
  pose proof (represents_length_le s cells Hrep) as Hle.
  pose proof (same_shape_length _ _ Hshape) as Hlen.
  change (bind get_state ?k s) with (k s s). cbv beta.
  apply (range_for_Shaped J body Hbody _ 0%nat);
    [done|unfold walk_fuel; lia|done|done].
Qed.

Lemma triple_void {A} (m : M (State T) A) (Q : A -> State T -> Prop) :
  triple I m Q thrown -> (forall a s, Q a s -> I s) ->
  triple I (void m) (fun _ => I) thrown.
Proof.
  intros Hm HQ. eapply triple_bind; [exact Hm|].
  intros a. apply triple_ret. apply HQ.
Qed.

Lemma Find_Shaped v : triple I (Find v) (fun _ => I) thrown.
Proof.
  eapply triple_bind.
  - apply (for_each_Shaped (fun i Index => Index = Z.of_nat i)); [|done].
    intros i d Index Hi -> Hd.
    eapply triple_bind; [by apply read_element_Shaped|]. intros e.
    destruct (equal v e); [tret|].
    rewrite signed_in_range by lia.
    eapply (triple_bind _ _ _ (fun x s => I s /\ x = Z.of_nat i + 1)); [tret|].
    intros Index'. apply triple_assume. intros ->. tret.
  - intros r. destruct r; tret.
Qed.

Lemma Total_Shaped v : triple I (Total v) (fun _ => I) thrown.
Proof.
  eapply triple_bind.
  - apply (for_each_Shaped (fun _ _ => True)); [|done].
    intros i d n Hi _ Hd.
    eapply triple_bind; [by apply read_element_Shaped|]. intros e.
    destruct (equal v e); tret.
  - intros r. destruct r as [n|e]; [tret|destruct e].
Qed.

Lemma Fill_Shaped v : triple I (Fill v) (fun _ => I) thrown.
Proof.
  eapply triple_bind; [|intros ?; apply triple_ret; intros s Hs; exact Hs].
  apply (for_each_Shaped (fun _ _ => True)); [|done].
  intros i d [] Hi _ Hd.
  eapply triple_bind; [by apply write_element_Shaped|].
  intros ?. tret.
Qed.

Lemma contents_Shaped : triple I contents (fun _ => I) thrown.
Proof.
  eapply triple_bind.
  - apply (for_each_Shaped (fun _ _ => True)); [|done].
    intros i d acc Hi _ Hd.
    eapply triple_bind; [by apply read_element_Shaped|]. intros e.
    tret.
  - intros r. destruct r as [n|e]; [tret|destruct e].
Qed.

Lemma Shaped_cell s i c0 :
  I s -> cells0 !! i = Some c0 ->
  exists cells c, represents s cells /\ same_shape cells0 cells /\
    cells !! i = Some c /\ c_node c = c_node c0 /\ c_data c = c_data c0.
Proof.
  intros Hs Hc0. destruct (Shaped_inv s Hs) as (cells & Hrep & Hshape & _).
  pose proof (same_shape_address cells0 cells i Hshape) as Ha.
  pose proof (same_shape_data cells0 cells i Hshape) as Hd.
  unfold address in Ha. rewrite Hc0 in Ha, Hd.
  destruct (cells !! i) as [c|] eqn:Hc; [|done].
  exists cells, c. simpl in *. by simplify_eq.
Qed.

Lemma FindLast_loop_None fuel v Index :
  FindLast_loop fuel v Index None = ret (-1).
Proof. by destruct fuel. Qed.

Lemma FindLast_loop_Shaped v i :
  forall fuel Index,
    (i < length cells0)%nat -> (i < fuel)%nat -> Index = Z.of_nat i ->
    triple I (FindLast_loop fuel v Index (address cells0 i))
      (fun _ => I) thrown.
Proof.
  induction i as [|i IH]; intros fuel Index Hi Hfuel ->;
    (destruct fuel as [|fuel]; [lia|]);
    destruct (lookup_lt_is_Some_2 cells0 _ Hi) as [c0 Hc0];
    unfold address; rewrite Hc0; simpl; intros s Hs;
    destruct (Shaped_cell s _ c0 Hs Hc0)
      as (cells & c & Hrep & Hshape & Hc & Hn & Hd);
    rewrite <- Hn;
    rewrite (bind_Return _ _ _ _ _ (element_of_spec _ _ _ _ Hrep Hc));
    rewrite (bind_Return _ _ _ _ _ (read_element_spec _ _ _ _ Hrep Hc));
    (destruct (equal v (c_value c)); [done|]);
    rewrite signed_in_range by lia;
    rewrite bind_ret_l;
    rewrite (bind_Return _ _ _ _ _ (read_node_at _ _ Hrep _ _ Hc)); simpl.
  - by rewrite FindLast_loop_None.
  - rewrite (same_shape_address cells0 cells i Hshape).
    apply IH; [lia|lia|lia|done].
Qed.

Lemma FindLast_Shaped v : triple I (FindLast v) (fun _ => I) thrown.
Proof.
  intros s Hs. destruct (Shaped_inv s Hs) as (cells & Hrep & Hshape & Hsize).
  pose proof (represents_length_le s cells Hrep) as Hle.
  pose proof (same_shape_length _ _ Hshape) as Hlen.
  pose proof Hrep as (_ & _ & _ & _ & _ & Htail).
  unfold FindLast. change (bind get_state ?k s) with (k s s). cbv beta.
  rewrite Htail, (same_shape_address cells0 cells _ Hshape), Hlen.
  destruct (decide (length cells0 = 0%nat)) as [H0|H0].
  - rewrite H0. unfold address. rewrite lookup_ge_None_2 by lia.
    simpl. rewrite ?FindLast_loop_None. done.
  - apply FindLast_loop_Shaped; [lia|unfold walk_fuel; lia| |done].
    rewrite size_t_small by lia. unfold ptrdiff_t.
    rewrite size_t_small by lia. case_decide; lia.
Qed.

Lemma get_state_Shaped {A} (k : State T -> M (State T) A) Q :
  (forall s0, size s0 = Z.of_nat (length cells0) -> triple I (k s0) Q thrown) ->
  triple I (bind get_state k) Q thrown.
Proof.
  intros Hk s Hs. destruct (Shaped_inv s Hs) as (_ & _ & _ & Hsize).
  by apply (Hk s Hsize).
Qed.

Lemma Reverse_Shaped : triple I Reverse (fun _ => I) thrown.
Proof.
  apply get_state_Shaped. intros s0 Hsize.
  eapply triple_bind; [|intros ?; apply triple_ret; intros s Hs; exact Hs].
  assert (0 <= size s0 / 2 < 2 ^ 63)
    by (split; [apply Z.div_pos|apply Z.div_lt_upper_bound]; lia).
  apply (triple_for_range (fun _ _ => I) I (fun _ => I)); [lia|lia|auto| |auto].
  intros Index [] HIndex. apply get_state_Shaped. intros s1 Hsize1.
  eapply triple_bind.
  - apply Swap_Shaped; [lia|apply size_t_range].
  - intros ?. tret.
Qed.

Lemma Shuffle_Shaped rand : triple I (Shuffle rand) (fun _ => I) thrown.
Proof.
  apply get_state_Shaped. intros s0 Hsize.
  eapply triple_bind; [|intros ?; apply triple_ret; intros s Hs; exact Hs].
  apply (triple_for_range (fun _ _ => I) I (fun _ => I)); [lia|lia|auto| |auto].
  intros Index [] HIndex. apply get_state_Shaped. intros s1 Hsize1.
  eapply triple_bind.
  - apply Swap_Shaped; [lia|]. apply Z.mod_pos_bound. lia.
  - intros ?. tret.
Qed.

(** The sorts and [IsSorted]: the list is the collection. *)

Lemma IsSorted_Shaped : triple I IsSorted (fun _ => I) thrown.
Proof.
  apply get_state_Shaped. intros s0 Hsize.
  apply (@IsSorted_keeps (State T) T List_Indexable I (element_in cells0)).
  - intros i Hi. apply subscript_Shaped. lia.
  - apply read_element_Shaped.
Qed.

Lemma BubbleSort_Shaped : triple I BubbleSort (fun _ => I) thrown.
Proof.
  apply get_state_Shaped. intros s0 Hsize.
  apply (@BubbleSort_keeps (State T) T List_Indexable I (element_in cells0)).
  - intros i Hi. apply subscript_Shaped. lia.
  - apply read_element_Shaped.
  - apply write_element_Shaped.
Qed.

Lemma subscript_empty s Index :
  size s = 0 -> 0 <= Index ->
  subscript_ Index s = (Fail (runtime_error Index 0), s).
Proof. intros H0 Hi. rewrite subscript_throws by lia. by rewrite H0. Qed.

Lemma at_index_empty s Index :
  size s = 0 -> 0 <= Index ->
  Sorting.at_index Index s = (Fail (runtime_error Index 0), s).
Proof.
  intros H0 Hi. unfold Sorting.at_index.
  apply bind_Fail. by apply subscript_empty.
Qed.

Lemma copy_out_empty s From Size :
  size s = 0 -> 0 < Size ->
  Sorting.copy_out From Size s = (Fail (runtime_error (size_t From) 0), s).
Proof.
  intros H0 HSize. unfold Sorting.copy_out, for_range.
  destruct (Z.to_nat (Size - 0)) as [|n] eqn:Hn; [lia|].
  apply bind_Fail. simpl. apply bind_Fail, bind_Fail.
  rewrite Z.add_0_r. pose proof (size_t_range From).
  apply at_index_empty; [done|lia].
Qed.

Lemma RecursiveMergeSort_unfold {C} `{!Indexable C T} fuel Begin End cmp :
  Sorting.RecursiveMergeSort (C := C) (S fuel) Begin End cmp
  = if decide (Begin >= End) then ret tt
    else
      let Middle := size_t (Begin + End) / 2 in
      Sorting.RecursiveMergeSort fuel Begin Middle cmp ;;;
      Sorting.RecursiveMergeSort fuel (size_t (Middle + 1)) End cmp ;;;
      Sorting.Merge Begin Middle End cmp.
Proof. reflexivity. Qed.

Lemma RecursiveMergeSort_empty cmp s k :
  size s = 0 ->
  forall fuel End,
    1 <= End < 2 ^ Z.of_nat k -> (k < fuel)%nat -> End < 2 ^ 64 ->
    Sorting.RecursiveMergeSort fuel 0 End cmp s
    = (Fail (runtime_error 0 0), s).
Proof.
  intros H0. induction k as [|k IH]; intros fuel End HEnd Hfuel H64.
  { simpl in HEnd. lia. }
  destruct fuel as [|fuel]; [lia|]. rewrite RecursiveMergeSort_unfold.
  rewrite decide_False by lia. cbv zeta.
  rewrite (size_t_small (0 + End)) by lia.
  destruct (decide (End = 1)) as [->|Hne].
  - destruct fuel as [|fuel]; [lia|]. 
    change ((0 + 1) / 2) with 0. change (size_t (0 + 1)) with 1.
    rewrite !RecursiveMergeSort_unfold. 
    rewrite !decide_True by lia. rewrite !bind_ret_l.
    unfold Sorting.Merge. apply bind_Fail.
    by apply copy_out_empty.
  - apply bind_Fail. apply IH; [|lia|].
    + split; [apply Z.div_le_lower_bound; lia|].
      apply Z.div_lt_upper_bound; [lia|].
      rewrite Nat2Z.inj_succ, Z.pow_succ_r in HEnd by lia. lia.
    + apply Z.div_lt_upper_bound; lia.
Qed.

Lemma MergeSort_Shaped : triple I MergeSort (fun _ => I) thrown.
Proof.
  apply get_state_Shaped. intros s0 Hsize.
  destruct (decide (size s0 = 0)) as [H0|H0].
  - intros s Hs. destruct (Shaped_inv s Hs) as (_ & _ & _ & Hsize').
    unfold Sorting.MergeSort. rewrite H0.
    rewrite (RecursiveMergeSort_empty _ s 64); [split; [eauto|done]|lia| | |].
    + change (size_t (0 - 1)) with (2 ^ 64 - 1). simpl. lia.
    + unfold Sorting.depth. change (size_t (0 - 1)) with (2 ^ 64 - 1). lia.
    + change (size_t (0 - 1)) with (2 ^ 64 - 1). lia.
  - apply (@MergeSort_keeps (State T) T List_Indexable I (element_in cells0)).
    + intros i Hi. apply subscript_Shaped. lia.
    + apply read_element_Shaped.
    + apply write_element_Shaped.
    + lia.
Qed.

Lemma QuickSort_Shaped : triple I QuickSort (fun _ => I) thrown.
Proof.
  apply get_state_Shaped. intros s0 Hsize.
  destruct (decide (size s0 = 0)) as [H0|H0].
  - intros s Hs. destruct (Shaped_inv s Hs) as (_ & _ & _ & Hsize').
    unfold Sorting.QuickSort, Sorting.depth. simpl.
    rewrite decide_False by (rewrite H0; change (size_t (0 - 1)) with (2 ^ 64 - 1); lia).
    rewrite (bind_Fail _ _ _ _ _ (subscript_empty s _ ltac:(lia) ltac:(apply size_t_range))).
    split; [eauto|done].
  - apply (@QuickSort_keeps (State T) T List_Indexable _ I (element_in cells0)).
    + intros i Hi. apply subscript_Shaped. lia.
    + apply read_element_Shaped.
    + apply write_element_Shaped.
    + lia.
Qed.

End Shape.
End ListKeeps.

(** ** Lists with one more or one less cell *)

Lemma lookup_insert_at_lt {X} (l : list X) k x i :
  (i < k)%nat -> (k <= length l)%nat -> insert_at k x l !! i = l !! i.
Proof.
  intros Hi Hk. unfold insert_at.
  rewrite lookup_app_l by (rewrite length_take; lia).
  by rewrite lookup_take_lt.
Qed.

Lemma lookup_insert_at_eq {X} (l : list X) k x :
  (k <= length l)%nat -> insert_at k x l !! k = Some x.
Proof.
  intros Hk. unfold insert_at.
  rewrite lookup_app_r by (rewrite length_take; lia).
  rewrite length_take, Nat.min_l by lia. by rewrite Nat.sub_diag.
Qed.

Lemma lookup_insert_at_gt {X} (l : list X) k x i :
  (k <= i)%nat -> (k <= length l)%nat -> insert_at k x l !! S i = l !! i.
Proof.
  intros Hi Hk. unfold insert_at.
  rewrite lookup_app_r by (rewrite length_take; lia).
  rewrite length_take, Nat.min_l by lia.
  replace (S i - k)%nat with (S (i - k)) by lia. simpl.
  rewrite lookup_drop. f_equal. lia.
Qed.

Lemma length_insert_at {X} (l : list X) k x :
  length (insert_at k x l) = S (length l).
Proof.
  unfold insert_at. rewrite length_app. simpl.
  rewrite length_take, length_drop. lia.
Qed.

Lemma insert_at_Permutation {X} (l : list X) k x : insert_at k x l ≡ₚ x :: l.
Proof.
  unfold insert_at. rewrite <- Permutation_middle.
  by rewrite take_drop.
Qed.

Lemma fmap_insert_at {X Y} (f : X -> Y) (l : list X) k x :
  f <$> insert_at k x l = insert_at k (f x) (f <$> l).
Proof. unfold insert_at. by rewrite fmap_app, fmap_cons, fmap_take, fmap_drop. Qed.

Lemma lookup_delete_at {X} (l : list X) k i :
  delete k l !! i = if decide (i < k)%nat then l !! i else l !! S i.
Proof.
  case_decide.
  - by apply list_lookup_delete_lt.
  - apply list_lookup_delete_ge. lia.
Qed.

Section Structure.
Context {T : Type} `{!Greater T} `{!Equal T}.
Local Abbreviation cell := (cell T).
Implicit Types (s : State T) (cells : list cell).

Lemma node_at_eq cells i :
  node_at cells i = mkNode (before cells i) (c_data <$> cells !! i) (address cells (S i)).
Proof. done. Qed.

Lemma represents_fresh_node s cells i c :
  represents s cells -> cells !! i = Some c ->
  c_node c <> fresh (dom (nodes s)).
Proof.
  intros (_ & _ & H & _) Hc Heq. destruct (H i c Hc) as [Hn _].
  apply (is_fresh (dom (nodes s))). rewrite <- Heq.
  apply elem_of_dom. by rewrite Hn.
Qed.

Lemma represents_fresh_element s cells i c :
  represents s cells -> cells !! i = Some c ->
  c_data c <> fresh (dom (elements s)).
Proof.
  intros (_ & _ & H & _) Hc Heq. destruct (H i c Hc) as [_ He].
  apply (is_fresh (dom (elements s))). rewrite <- Heq.
  apply elem_of_dom. by rewrite He.
Qed.

(** A state that has the new cell linked in at position [k]. *)
Lemma represents_insert s cells k v s' :
  let p := fresh (dom (nodes s)) in
  let d := fresh (dom (elements s)) in
  represents s cells -> (k <= length cells)%nat ->
  elements s' = <[d := v]> (elements s) ->
  nodes s' !! p = Some (mkNode (before cells k) (Some d) (address cells k)) ->
  (forall i c, cells !! i = Some c -> i <> k -> S i <> k ->
     nodes s' !! c_node c = Some (node_at cells i)) ->
  (forall i c, cells !! i = Some c -> S i = k ->
     nodes s' !! c_node c
     = Some (mkNode (before cells i) (Some (c_data c)) (Some p))) ->
  (forall c, cells !! k = Some c ->
     nodes s' !! c_node c
     = Some (mkNode (Some p) (Some (c_data c)) (address cells (S k)))) ->
  size s' = size s + 1 ->
  head s' = (if decide (k = 0%nat) then Some p else head s) ->
  tail s' = (if decide (k = length cells) then Some p else tail s) ->
  represents s' (insert_at k (Cell p d v) cells).
Proof.
  intros p d Hrep Hk He Hp Hother Hprev Hnext Hsize Hhead Htail.
  pose proof Hrep as (Hnd & Hdd & Hcells & Hsz & Hh & Ht).
  unfold represents. rewrite !fmap_insert_at, length_insert_at. simpl.
  split; [|split; [|split; [|split; [|split]]]].
  - rewrite insert_at_Permutation. apply NoDup_cons. split; [|done].
    intros Hin. apply list_elem_of_fmap in Hin as (c & Hc & Hin).
    apply list_elem_of_lookup in Hin as [i Hi].
    by eapply represents_fresh_node.
  - rewrite insert_at_Permutation. apply NoDup_cons. split; [|done].
    intros Hin. apply list_elem_of_fmap in Hin as (c & Hc & Hin).
    apply list_elem_of_lookup in Hin as [i Hi].
    by eapply represents_fresh_element.
  - intros i c Hc. rewrite He, node_at_eq. unfold before, address.
    assert (Hfresh : forall j c', cells !! j = Some c' ->
              <[d := v]> (elements s) !! c_data c' = Some (c_value c')).
    { intros j c' Hc'. destruct (Hcells j c' Hc') as [_ Hel].
      rewrite lookup_insert_ne; [done|].
      intros Heq. by eapply represents_fresh_element. }
    destruct (decide (i < k)%nat) as [Hlt|Hge].
    { (* before the new cell *)
      rewrite lookup_insert_at_lt in Hc |- * by done.
      split; [|by eapply Hfresh].
      assert (Hb : match i with
                   | O => None
                   | S j => c_node <$> insert_at k (Cell p d v) cells !! j
                   end = before cells i).
      { destruct i as [|i]; [done|]. by rewrite lookup_insert_at_lt by lia. }
      rewrite Hb, Hc. simpl. destruct (decide (S i = k)) as [Hk'|Hk'].
      - rewrite <- Hk' at 1. rewrite lookup_insert_at_eq by lia.
        by apply Hprev.
      - rewrite lookup_insert_at_lt by lia. rewrite (Hother i c Hc) by lia.
        by rewrite node_at_eq, Hc. }
    destruct (decide (i = k)) as [->|Hne].
    { (* the new cell *)
      rewrite lookup_insert_at_eq in Hc |- * by done. simplify_eq. simpl.
      split; [|by rewrite lookup_insert_eq].
      rewrite lookup_insert_at_gt by lia. rewrite Hp. f_equal. f_equal.
      destruct k as [|k]; [done|]. simpl. unfold address.
      by rewrite lookup_insert_at_lt by lia. }
    (* after the new cell *)
    destruct i as [|i]; [lia|].
    rewrite lookup_insert_at_gt in Hc |- * by lia.
    rewrite lookup_insert_at_gt by lia.
    split; [|by eapply Hfresh]. rewrite Hc.
    destruct (decide (i = k)) as [->|Hk'].
    + rewrite lookup_insert_at_eq by lia. by apply Hnext.
    + destruct i as [|i]; [lia|]. rewrite lookup_insert_at_gt by lia.
      rewrite (Hother (S i) c Hc) by lia. by rewrite node_at_eq, Hc.
  - lia.
  - rewrite Hhead. unfold address. destruct (decide (k = 0%nat)) as [H0|H0].
    + subst k. by rewrite lookup_insert_at_eq by lia.
    + rewrite lookup_insert_at_lt by lia. exact Hh.
  - rewrite Htail. unfold address. simpl.
    destruct (decide (k = length cells)) as [H0|H0].
    + subst k. by rewrite lookup_insert_at_eq by lia.
    + destruct (length cells) as [|n] eqn:Hn; [lia|]. simpl.
      rewrite lookup_insert_at_gt by lia. exact Ht.
Qed.

(** The primitives, step by step *)

Lemma set_next_spec s q n x :
  nodes s !! q = Some n ->
  set_next q x s
  = (Return tt, with_nodes s (<[q := mkNode (previous n) (data n) x]> (nodes s))).
Proof.
  intros Hq. unfold set_next, bind, read_node, write_node, with_nodes.
  rewrite Hq. simpl. by rewrite Hq.
Qed.

Lemma set_previous_spec s q n x :
  nodes s !! q = Some n ->
  set_previous q x s
  = (Return tt, with_nodes s (<[q := mkNode x (data n) (next n)]> (nodes s))).
Proof.
  intros Hq. unfold set_previous, bind, read_node, write_node, with_nodes.
  rewrite Hq. simpl. by rewrite Hq.
Qed.

Lemma element_of_node s q n d :
  nodes s !! q = Some n -> data n = Some d ->
  element_of q s = (Return d, s).
Proof.
  intros Hq Hd. unfold element_of, bind, read_node. rewrite Hq. simpl.
  by rewrite Hd.
Qed.

Lemma read_node_spec s q n :
  nodes s !! q = Some n -> read_node q s = (Return n, s).
Proof. intros Hq. unfold read_node. by rewrite Hq. Qed.

Lemma new_Node_spec s v prev nxt :
  new_Node v prev nxt s
  = (Return (fresh (dom (nodes s))),
     mkState (<[fresh (dom (nodes s))
                := mkNode prev (Some (fresh (dom (elements s)))) nxt]> (nodes s))
             (<[fresh (dom (elements s)) := v]> (elements s))
             (size s) (head s) (tail s)).
Proof. reflexivity. Qed.

Lemma represents_last s cells :
  represents s cells -> tail s = address cells (length cells - 1).
Proof. intros (_ & _ & _ & _ & _ & ->). f_equal. lia. Qed.

(** [Insert] puts the new cell at [Insert_index]; of the memory it
    changes the new node, the new element and the nodes of the list. *)
Lemma Insert_at s cells Index v :
  represents s cells -> 0 <= Index <= size s -> size s < 2 ^ 64 - 1 ->
  exists s',
    Insert Index v s = (Return (fresh (dom (elements s))), s') /\
    (Z.to_nat (Insert_index (size s) Index) <= length cells)%nat /\
    represents s' (insert_at (Z.to_nat (Insert_index (size s) Index))
                     (Cell (fresh (dom (nodes s)))
                           (fresh (dom (elements s))) v) cells) /\
    elements s' = <[fresh (dom (elements s)) := v]> (elements s) /\
    (forall q, q <> fresh (dom (nodes s)) -> q ∉ c_node <$> cells ->
               nodes s' !! q = nodes s !! q).
Proof.
  intros Hrep HIndex Hsz.
  pose proof Hrep as (Hnd & Hdd & Hcells & Hsize & Hhead & Htail).
  set (p := fresh (dom (nodes s))). set (d := fresh (dom (elements s))).
  assert (Hnotin : forall q i c, q ∉ c_node <$> cells -> cells !! i = Some c ->
                                 c_node c <> q).
  { intros q i c Hq Hc <-. apply Hq. apply list_elem_of_fmap.
    exists c. split; [done|]. by eapply list_elem_of_lookup_2. }
  unfold Insert. change (bind get_state ?k s) with (k s s). cbv beta.
  rewrite decide_False by lia.
  destruct (decide (Index = size s)) as [Hend|Hmid].
  - (* at the end *)
    rewrite (bind_Return IsEmpty _ s (bool_decide (size s = 0)) s eq_refl).
    case_bool_decide as Hempty.
    + (* the first cell *)
      assert (cells = []) as -> by (destruct cells; [done|simpl in *; lia]).
      replace (Z.to_nat (Insert_index (size s) Index)) with 0%nat
        by (unfold Insert_index; rewrite decide_True by done; lia).
      eexists. split; [|split; [simpl; lia|split; [|split]]].
      { rewrite (bind_Return _ _ _ _ _ (new_Node_spec _ _ _ _)).
        unfold set_head, set_tail, increment_size, set_size, bind, get_state.
        simpl. erewrite element_of_node; [reflexivity| |]; simpl.
        - apply lookup_insert_eq.
        - done. }
      apply (represents_insert s [] 0 v); simpl; try done.
      * by rewrite lookup_insert_eq.
      * rewrite Hempty. rewrite size_t_small by lia. lia.
      * done.
      * intros q Hqp _. cbn [nodes]. by rewrite lookup_insert_ne.
    + (* after the tail *)
      destruct (lookup_lt_is_Some_2 cells (length cells - 1)) as [ct Hct]; [lia|].
      destruct (Hcells _ _ Hct) as [Hnt _].
      rewrite (represents_last s cells Hrep). unfold address at 1. rewrite Hct. simpl.
      rewrite bind_ret_l.
      assert (Hpt : c_node ct <> p) by (by eapply represents_fresh_node).
      replace (Z.to_nat (Insert_index (size s) Index)) with (length cells)
        by (unfold Insert_index; rewrite decide_True by done; lia).
      eexists. split; [|split; [lia|split; [|split]]].
      * rewrite (bind_Return _ _ _ _ _ (new_Node_spec _ _ _ _)). fold p d.
        match goal with |- bind _ _ ?st = _ => set (s1 := st) end.
        assert (Hnt1 : nodes s1 !! c_node ct = Some (node_at cells (length cells - 1)))
          by (unfold s1; simpl; by rewrite lookup_insert_ne).
        rewrite (bind_Return _ _ _ _ _ (set_next_spec s1 _ _ (Some p) Hnt1)).
        unfold set_tail, increment_size, set_size, bind, get_state. simpl.
        erewrite element_of_node; [reflexivity| |]; simpl.
        -- rewrite lookup_insert_ne by done. fold p. apply lookup_insert_eq.
        -- done.
      * apply (represents_insert s cells (length cells) v);
          cbn [nodes elements size head tail with_nodes]; fold p d;
          [done|lia|done| | | | | | |].
        -- rewrite lookup_insert_ne by done. rewrite lookup_insert_eq.
           do 2 f_equal.
           ++ destruct (length cells) as [|n] eqn:Hn; [lia|]. simpl.
              unfold address. replace (S n - 1)%nat with n in Hct by lia.
              by rewrite Hct.
           ++ unfold address. by rewrite lookup_ge_None_2 by lia.
        -- intros i c Hc Hi HSi.
           pose proof (lookup_lt_Some _ _ _ Hc).
           rewrite !lookup_insert_ne.
           ++ by apply Hcells.
           ++ intros Heq. symmetry in Heq. by eapply represents_fresh_node.
           ++ intros Heq.
              pose proof (represents_node_inj _ _ _ _ _ _ Hrep Hct Hc Heq). lia.
        -- intros i c Hc HSi.
           assert (i = (length cells - 1)%nat) as -> by lia. simplify_eq.
           rewrite lookup_insert_eq. unfold before. simpl.
           by rewrite Hct.
        -- intros c Hc. apply lookup_lt_Some in Hc. lia.
        -- rewrite size_t_small by lia. lia.
        -- rewrite decide_False by lia. done.
        -- by rewrite decide_True.
      * done.
      * intros q Hqp Hq. cbn [nodes with_nodes].
        rewrite lookup_insert_ne by (by eapply Hnotin).
        by rewrite lookup_insert_ne.
  - (* before the node that [Traverse] reaches *)
    destruct (Traverse_spec s cells Hrep Index ltac:(lia) ltac:(lia))
      as (ck & Hck & Htr).
    replace (Insert_index (size s) Index)
      with (Traverse_index (size s) Index)
      by (unfold Insert_index; by rewrite decide_False).
    set (k := Z.to_nat (Traverse_index (size s) Index)) in *.
    pose proof (lookup_lt_Some _ _ _ Hck) as Hk.
    destruct (Hcells _ _ Hck) as [Hnk _].
    assert (Hpk : c_node ck <> p) by (by eapply represents_fresh_node).
    rewrite (bind_Return _ _ _ _ _ Htr).
    rewrite (bind_Return _ _ _ _ _ (read_node_spec _ _ _ Hnk)).
    rewrite (bind_Return _ _ _ _ _ (new_Node_spec _ _ _ _)). fold p d.
    set (s1 := mkState
                 (<[p := mkNode (previous (node_at cells k)) (Some d)
                                (Some (c_node ck))]> (nodes s))
                 (<[d := v]> (elements s)) (size s) (head s) (tail s)).
    exists (mkState
              (<[c_node ck := mkNode (Some p) (Some (c_data ck))
                                     (address cells (S k))]>
                 (match k with
                  | O => nodes s1
                  | S j =>
                      match cells !! j with
                      | Some c =>
                          <[c_node c := mkNode (before cells j)
                                               (Some (c_data c)) (Some p)]>
                            (nodes s1)
                      | None => nodes s1
                      end
                  end))
              (elements s1) (size s + 1)
              (if decide (k = 0%nat) then Some p else head s) (tail s)).
    split; [|split; [lia|split; [|split]]].
    + destruct k as [|j] eqn:Hkj; cbn [previous node_at].
      * (* the new head *)
        assert (Hnk1 : nodes s1 !! c_node ck = Some (node_at cells 0))
          by (unfold s1; simpl; by rewrite lookup_insert_ne).
        unfold set_head at 1. unfold bind at 1. cbn [nodes elements size head tail].
        match goal with |- bind _ _ ?st = _ => set (s2 := st) end.
        rewrite (bind_Return _ _ _ _ _ (set_previous_spec s2 _ _ (Some p) Hnk1)).
        unfold increment_size, set_size, bind at 1 2, get_state.
        subst s2 s1. cbn [nodes elements size head tail with_nodes].
        erewrite element_of_node; cbn [nodes elements size head tail];
          [|rewrite lookup_insert_ne by done; apply lookup_insert_eq|done].
        rewrite size_t_small by lia. do 2 f_equal. simpl. by rewrite Hck.
      * (* between two nodes *)
        destruct (lookup_lt_is_Some_2 cells j) as [cp Hcp]; [lia|].
        destruct (Hcells _ _ Hcp) as [Hnp _].
        assert (Hpp : c_node cp <> p) by (by eapply represents_fresh_node).
        assert (Hpkp : c_node cp <> c_node ck).
        { intros Heq.
          pose proof (represents_node_inj _ _ _ _ _ _ Hrep Hcp Hck Heq). lia. }
        unfold address at 1. rewrite Hcp. cbn [fmap option_fmap option_map].
        assert (Hnp1 : nodes s1 !! c_node cp = Some (node_at cells j))
          by (unfold s1; simpl; by rewrite lookup_insert_ne).
        rewrite (bind_Return _ _ _ _ _ (set_next_spec s1 _ _ (Some p) Hnp1)).
        match goal with |- bind _ _ ?st = _ => set (s2 := st) end.
        assert (Hnk2 : nodes s2 !! c_node ck = Some (node_at cells (S j))).
        { unfold s2, s1; simpl. by rewrite !lookup_insert_ne. }
        rewrite (bind_Return _ _ _ _ _ (set_previous_spec s2 _ _ (Some p) Hnk2)).
        unfold increment_size, set_size, bind at 1 2, get_state.
        subst s2 s1. cbn [nodes elements size head tail with_nodes].
        erewrite element_of_node; cbn [nodes elements size head tail];
          [|rewrite !lookup_insert_ne by done; apply lookup_insert_eq|done].
        rewrite size_t_small by lia. do 2 f_equal. simpl. by rewrite Hck, Hcp.
    + apply (represents_insert s cells k v);
        cbn [nodes elements size head tail with_nodes]; fold p d;
        [done|lia|done| | | | |done|done|].
      * (* the new node *)
        rewrite lookup_insert_ne by done.
        destruct k as [|j] eqn:Hkj.
        -- unfold s1; cbn [nodes]. rewrite lookup_insert_eq.
           unfold address. by rewrite Hck.
        -- destruct (lookup_lt_is_Some_2 cells j) as [cp Hcp]; [lia|].
           rewrite Hcp. rewrite lookup_insert_ne.
           ++ unfold s1; cbn [nodes]. rewrite lookup_insert_eq.
              unfold address. by rewrite Hck.
           ++ intros Heq. by eapply represents_fresh_node.
      * (* the nodes away from it *)
        intros i c Hc Hi HSi.
        rewrite lookup_insert_ne.
        2:{ intros Heq.
            pose proof (represents_node_inj _ _ _ _ _ _ Hrep Hck Hc Heq). lia. }
        assert (Hs1 : nodes s1 !! c_node c = Some (node_at cells i)).
        { unfold s1; cbn [nodes]. rewrite lookup_insert_ne; [by apply Hcells|].
          intros Heq. symmetry in Heq. by eapply represents_fresh_node. }
        destruct k as [|j] eqn:Hkj; [done|].
        destruct (cells !! j) as [cp|] eqn:Hcp; [|done].
        rewrite lookup_insert_ne; [done|].
        intros Heq.
        pose proof (represents_node_inj _ _ _ _ _ _ Hrep Hcp Hc Heq). lia.
      * (* the node before it *)
        intros i c Hc HSi. destruct k as [|j] eqn:Hkj; [lia|].
        assert (i = j) as -> by lia. rewrite Hc.
        rewrite lookup_insert_ne.
        2:{ intros Heq.
            pose proof (represents_node_inj _ _ _ _ _ _ Hrep Hck Hc Heq). lia. }
        by rewrite lookup_insert_eq.
      * (* the node after it *)
        intros c Hc. simplify_eq. by rewrite lookup_insert_eq.
      * rewrite decide_False by lia. done.
    + done.
    + intros q Hqp Hq. cbn [nodes].
      rewrite lookup_insert_ne by (by eapply Hnotin).
      destruct k as [|j];
        [|destruct (cells !! j) as [cj|] eqn:Hcj;
          [rewrite lookup_insert_ne by (by eapply Hnotin)|]];
        unfold s1; cbn [nodes]; by rewrite lookup_insert_ne.
Qed.

Lemma Insert_spec s cells Index v :
  represents s cells -> 0 <= Index <= size s -> size s < 2 ^ 64 - 1 ->
  exists s' k,
    Insert Index v s = (Return (fresh (dom (elements s))), s') /\
    (k <= length cells)%nat /\
    represents s' (insert_at k (Cell (fresh (dom (nodes s)))
                                     (fresh (dom (elements s))) v) cells).
Proof.
  intros Hrep HIndex Hsz.
  destruct (Insert_at s cells Index v Hrep HIndex Hsz)
    as (s' & Hrun & Hk & Hrep' & _).
  by exists s', (Z.to_nat (Insert_index (size s) Index)).
Qed.
End Structure.

(** ** Lists with one cell less *)

Lemma bind_eq {S A B} (m : M S A) (k : A -> M S B) s a s1 r :
  m s = (Return a, s1) -> k a s1 = r -> bind m k s = r.
Proof. intros Hm <-. by apply bind_Return. Qed.

Section Removal.
Context {T : Type} `{!Greater T} `{!Equal T}.
Local Abbreviation cell := (cell T).
Implicit Types (s : State T) (cells : list cell).

(** A state that has the cell at position [k] unlinked. *)
Lemma represents_delete s cells k s' :
  represents s cells -> (k < length cells)%nat ->
  (forall i c, cells !! i = Some c -> i <> k ->
     elements s' !! c_data c = Some (c_value c)) ->
  (forall i c, cells !! i = Some c -> i <> k -> S i <> k -> i <> S k ->
     nodes s' !! c_node c = Some (node_at cells i)) ->
  (forall i c, cells !! i = Some c -> S i = k ->
     nodes s' !! c_node c
     = Some (mkNode (before cells i) (Some (c_data c)) (address cells (S k)))) ->
  (forall c, cells !! S k = Some c ->
     nodes s' !! c_node c
     = Some (mkNode (before cells k) (Some (c_data c))
                    (address cells (S (S k))))) ->
  size s' = size s - 1 ->
  head s' = (if decide (k = 0%nat) then address cells 1 else head s) ->
  tail s' = (if decide (S k = length cells) then before cells k else tail s) ->
  represents s' (delete k cells).
Proof.
  intros Hrep Hk Hel Hother Hprev Hnext Hsize Hhead Htail.
  pose proof Hrep as (Hnd & Hdd & Hcells & Hsz & Hh & Ht).
  unfold represents. rewrite !list_fmap_delete.
  rewrite length_delete by (by apply lookup_lt_is_Some_2).
  split; [|split; [|split; [|split; [|split]]]].
  - exact (sublist_NoDup _ _ Hnd (sublist_delete _ _)).
  - exact (sublist_NoDup _ _ Hdd (sublist_delete _ _)).
  - intros i c Hc. rewrite node_at_eq. unfold before, address.
    destruct (decide (i < k)%nat) as [Hlt|Hge].
    + (* before the cell *)
      rewrite list_lookup_delete_lt in Hc |- * by done.
      split; [|apply (Hel i); [done|lia]]. rewrite Hc.
      assert (Hb : match i with
                   | O => None
                   | S j => c_node <$> delete k cells !! j
                   end = before cells i).
      { destruct i as [|i]; [done|]. by rewrite list_lookup_delete_lt by lia. }
      rewrite Hb. simpl. destruct (decide (S i = k)) as [Hk'|Hk'].
      * rewrite list_lookup_delete_ge by lia.
        rewrite (Hprev i c Hc Hk'). unfold address. by rewrite Hk'.
      * rewrite list_lookup_delete_lt by lia.
        rewrite (Hother i c Hc) by lia. by rewrite node_at_eq, Hc.
    + (* after the cell *)
      rewrite list_lookup_delete_ge in Hc |- * by lia.
      rewrite list_lookup_delete_ge by lia.
      split; [|apply (Hel (S i)); [done|lia]]. rewrite Hc. simpl.
      destruct (decide (i = k)) as [->|Hk'].
      * rewrite (Hnext c Hc). do 2 f_equal.
        destruct k as [|k]; [done|]. simpl. unfold address.
        by rewrite list_lookup_delete_lt by lia.
      * destruct i as [|i]; [lia|].
        rewrite list_lookup_delete_ge by lia.
        rewrite (Hother (S (S i)) c Hc) by lia. by rewrite node_at_eq, Hc.
  - lia.
  - rewrite Hhead. unfold address. destruct (decide (k = 0%nat)) as [->|H0].
    + by rewrite list_lookup_delete_ge by lia.
    + rewrite list_lookup_delete_lt by lia. exact Hh.
  - rewrite Htail. unfold address.
    destruct (decide (S k = length cells)) as [Hlast|Hlast].
    + destruct k as [|k]; simpl.
      * rewrite lookup_ge_None_2; [done|].
        rewrite length_delete by (by apply lookup_lt_is_Some_2). lia.
      * unfold address. rewrite list_lookup_delete_lt by lia.
        f_equal. f_equal. lia.
    + rewrite list_lookup_delete_ge by lia. rewrite Ht. unfold address.
      do 2 f_equal. lia.
Qed.

Lemma delete_Node_spec s p n d v :
  nodes s !! p = Some n -> data n = Some d -> elements s !! d = Some v ->
  delete_Node p s
  = (Return tt, mkState (delete p (nodes s)) (delete d (elements s))
                        (size s) (head s) (tail s)).
Proof.
  intros Hp Hd He. unfold delete_Node, bind, read_node.
  rewrite Hp. simpl. rewrite Hd. simpl. by rewrite He.
Qed.

Lemma IsValidIndex_true s Index (k : M (State T) unit) :
  Index < size s ->
  (valid <- IsValidIndex Index ;;
   if negb valid then throw_out_of_bounds Index else k) s = k s.
Proof.
  intros H. unfold bind, IsValidIndex, get_state, ret; simpl.
  by rewrite bool_decide_eq_true_2.
Qed.

Lemma decrement_size_spec s :
  decrement_size s
  = (Return tt, mkState (nodes s) (elements s) (size_t (size s - 1))
                        (head s) (tail s)).
Proof. reflexivity. Qed.

Lemma deref_Some {A} s (a : A) : deref (S := State T) (Some a) s = (Return a, s).
Proof. reflexivity. Qed.

Lemma set_head_spec s x :
  set_head x s
  = (Return tt, mkState (nodes s) (elements s) (size s) x (tail s)).
Proof. reflexivity. Qed.

Lemma set_tail_spec s x :
  set_tail x s
  = (Return tt, mkState (nodes s) (elements s) (size s) (head s) x).
Proof. reflexivity. Qed.

(** Two cells at different positions have different nodes and elements. *)
Lemma node_ne s cells i j c c' :
  represents s cells -> cells !! i = Some c -> cells !! j = Some c' ->
  i <> j -> c_node c <> c_node c'.
Proof. intros Hrep Hc Hc' Hne Heq. apply Hne. by eapply represents_node_inj. Qed.

Lemma data_ne s cells i j c c' :
  represents s cells -> cells !! i = Some c -> cells !! j = Some c' ->
  i <> j -> c_data c <> c_data c'.
Proof. intros Hrep Hc Hc' Hne Heq. apply Hne. by eapply represents_data_inj. Qed.

Lemma represents_node s cells i c :
  represents s cells -> cells !! i = Some c ->
  nodes s !! c_node c = Some (node_at cells i).
Proof. intros (_ & _ & H & _) Hc. by destruct (H i c Hc). Qed.

Lemma represents_element s cells i c :
  represents s cells -> cells !! i = Some c ->
  elements s !! c_data c = Some (c_value c).
Proof. intros (_ & _ & H & _) Hc. by destruct (H i c Hc). Qed.

Lemma Erase_front s cells c0 c1 :
  represents s cells -> cells !! 0%nat = Some c0 -> cells !! 1%nat = Some c1 ->
  size s < 2 ^ 64 ->
  exists s', Erase 0 s = (Return tt, s') /\ represents s' (delete 0%nat cells).
Proof.
  intros Hrep Hc0 Hc1 Hsz.
  pose proof Hrep as (Hnd & Hdd & Hcells & Hsize & Hhead & Htail).
  pose proof (lookup_lt_Some _ _ _ Hc1) as Hlen.
  destruct (Hcells _ _ Hc0) as [Hn0 He0]. destruct (Hcells _ _ Hc1) as [Hn1 _].
  pose proof (node_ne _ _ _ _ _ _ Hrep Hc0 Hc1 ltac:(lia)) as Hne.
  eexists. split.
  - unfold Erase. rewrite IsValidIndex_true by lia.
    change (bind get_state ?k s) with (k s s). cbv beta.
    rewrite decide_True by done. rewrite decide_False by lia.
    rewrite Hhead. unfold address at 1. rewrite Hc0. simpl fmap.
    eapply bind_eq; [|apply decrement_size_spec].
    eapply bind_eq; [apply deref_Some|].
    eapply bind_eq; [apply read_node_spec; exact Hn0|].
    eapply bind_eq; [apply set_head_spec|].
    cbn [next node_at]. unfold address at 1 2. rewrite Hc1. simpl fmap.
    eapply bind_eq; [apply deref_Some|].
    eapply bind_eq; [apply read_node_spec; exact Hn1|].
    cbn [previous node_at]. unfold address at 1. rewrite Hc0. simpl fmap.
    eapply bind_eq; [apply deref_Some|].
    eapply bind_eq.
    { eapply delete_Node_spec; [exact Hn0|simpl; by rewrite Hc0|exact He0]. }
    eapply set_previous_spec.
    cbn [nodes]. rewrite lookup_delete_ne by done. exact Hn1.
  - apply (represents_delete s cells 0%nat);
      cbn [nodes elements size head tail with_nodes];
      [done|lia| | | | | | |].
    + intros i c Hc Hi.
      rewrite lookup_delete_ne by (by eapply (data_ne s cells 0%nat i)).
      by eapply represents_element.
    + intros i c Hc Hi _ Hi1.
      rewrite lookup_insert_ne by (by eapply (node_ne s cells 1%nat i)).
      rewrite lookup_delete_ne by (by eapply (node_ne s cells 0%nat i)).
      by eapply represents_node.
    + intros i c _ Hi. lia.
    + intros c Hc. simplify_eq. rewrite lookup_insert_eq. simpl.
      by rewrite Hc1.
    + rewrite size_t_small by lia. done.
    + unfold address. by rewrite Hc1.
    + rewrite decide_False by lia. done.
Qed.

Lemma Erase_single s c0 :
  represents s [c0] ->
  exists s', Erase 0 s = (Return tt, s') /\ represents s' [].
Proof.
  intros Hrep.
  pose proof Hrep as (Hnd & Hdd & Hcells & Hsize & Hhead & Htail).
  destruct (Hcells 0%nat c0 eq_refl) as [Hn0 He0]. simpl in Hsize.
  eexists. split.
  - unfold Erase. rewrite IsValidIndex_true by lia.
    change (bind get_state ?k s) with (k s s). cbv beta.
    rewrite !decide_True by done.
    rewrite Hhead. unfold address at 1. simpl fmap.
    eapply bind_eq; [|apply decrement_size_spec].
    eapply bind_eq; [apply deref_Some|].
    eapply bind_eq.
    { eapply delete_Node_spec; [exact Hn0|done|exact He0]. }
    eapply bind_eq; [apply set_head_spec|]. apply set_tail_spec.
  - unfold represents; cbn [nodes elements size head tail].
    rewrite Hsize. repeat split; try apply NoDup_nil_2; done.
Qed.

Lemma Erase_back s cells ct ct' :
  represents s cells -> (2 <= length cells)%nat ->
  cells !! (length cells - 1)%nat = Some ct ->
  cells !! (length cells - 2)%nat = Some ct' ->
  size s < 2 ^ 64 ->
  exists s', Erase (size_t (size s - 1)) s = (Return tt, s') /\
             represents s' (delete (length cells - 1)%nat cells).
Proof.
  intros Hrep Hlen Hct Hct' Hsz.
  pose proof Hrep as (Hnd & Hdd & Hcells & Hsize & Hhead & Htail).
  pose proof (represents_node _ _ _ _ Hrep Hct) as Hnt.
  pose proof (represents_node _ _ _ _ Hrep Hct') as Hnt'.
  pose proof (represents_element _ _ _ _ Hrep Hct) as Het.
  pose proof (node_ne _ _ _ _ _ _ Hrep Hct Hct' ltac:(lia)) as Hne.
  assert (Hb : before cells (length cells - 1) = Some (c_node ct')).
  { replace (length cells - 1)%nat with (S (length cells - 2)) by lia.
    simpl. unfold address. by rewrite Hct'. }
  assert (Ha : address cells (S (length cells - 2)) = Some (c_node ct)).
  { unfold address. replace (S (length cells - 2)) with (length cells - 1)%nat by lia.
    by rewrite Hct. }
  eexists. split.
  - unfold Erase. rewrite size_t_small by lia.
    rewrite IsValidIndex_true by lia.
    change (bind get_state ?k s) with (k s s). cbv beta.
    rewrite decide_False by lia. 
    rewrite size_t_small by lia. rewrite decide_True by done.
    rewrite (represents_last s cells Hrep). unfold address at 1.
    rewrite Hct. simpl fmap.
    eapply bind_eq; [|apply decrement_size_spec].
    eapply bind_eq; [apply deref_Some|].
    eapply bind_eq; [apply read_node_spec; exact Hnt|].
    eapply bind_eq; [apply set_tail_spec|].
    cbn [previous node_at]. fold (before cells (length cells - 1)). rewrite Hb.
    eapply bind_eq; [apply deref_Some|].
    eapply bind_eq; [apply read_node_spec; exact Hnt'|].
    cbn [next node_at]. rewrite Ha.
    eapply bind_eq; [apply deref_Some|].
    eapply bind_eq.
    { eapply delete_Node_spec; [exact Hnt|simpl; by rewrite Hct|exact Het]. }
    eapply set_next_spec.
    cbn [nodes]. rewrite lookup_delete_ne by done. exact Hnt'.
  - apply (represents_delete s cells (length cells - 1)%nat);
      cbn [nodes elements size head tail with_nodes];
      [done|lia| | | | | | |].
    + intros i c Hc Hi.
      rewrite lookup_delete_ne by (by eapply (data_ne s cells _ i)).
      by eapply represents_element.
    + intros i c Hc Hi HSi _.
      rewrite lookup_insert_ne by (eapply (node_ne s cells _ i); [done..|lia]).
      rewrite lookup_delete_ne by (by eapply (node_ne s cells _ i)).
      by eapply represents_node.
    + intros i c Hc Hi. assert (i = (length cells - 2)%nat) as -> by lia.
      simplify_eq. rewrite lookup_insert_eq. simpl. rewrite Hct'. simpl.
      do 2 f_equal. unfold address. by rewrite lookup_ge_None_2 by lia.
    + intros c Hc. apply lookup_lt_Some in Hc. lia.
    + rewrite size_t_small by lia. done.
    + rewrite decide_False by lia. done.
    + rewrite decide_True by lia. done.
Qed.

Lemma Erase_middle s cells Index :
  represents s cells -> 0 < Index < size s - 1 -> size s < 2 ^ 64 ->
  let k := Z.to_nat (Traverse_index (size s) Index) in
  (0 < k)%nat /\ (S k < length cells)%nat /\
  exists s', Erase Index s = (Return tt, s') /\ represents s' (delete k cells).
Proof.
  intros Hrep HIndex Hsz k.
  pose proof Hrep as (Hnd & Hdd & Hcells & Hsize & Hhead & Htail).
  destruct (Traverse_spec s cells Hrep Index ltac:(lia) Hsz) as (ck & Hck & Htr).
  fold k in Hck.
  assert (Hk : (0 < k)%nat /\ (S k < length cells)%nat).
  { assert (2 * (size s / 2) <= size s < 2 * (size s / 2) + 2).
    { pose proof (Z.div_mod (size s) 2).
      pose proof (Z.mod_pos_bound (size s) 2). lia. }
    unfold k, Traverse_index. case_decide; lia. }
  destruct Hk as [Hk0 Hk1]. do 2 (split; [done|]).
  destruct (lookup_lt_is_Some_2 cells (S k)) as [cn Hcn]; [lia|].
  destruct (lookup_lt_is_Some_2 cells (k - 1)) as [cp Hcp]; [lia|].
  pose proof (represents_node _ _ _ _ Hrep Hck) as Hnk.
  pose proof (represents_node _ _ _ _ Hrep Hcn) as Hnn.
  pose proof (represents_node _ _ _ _ Hrep Hcp) as Hnp.
  pose proof (represents_element _ _ _ _ Hrep Hck) as Hek.
  pose proof (node_ne _ _ _ _ _ _ Hrep Hck Hcn ltac:(lia)) as Hne1.
  pose proof (node_ne _ _ _ _ _ _ Hrep Hck Hcp ltac:(lia)) as Hne2.
  pose proof (node_ne _ _ _ _ _ _ Hrep Hcn Hcp ltac:(lia)) as Hne3.
  assert (Hb : before cells k = Some (c_node cp)).
  { replace k with (S (k - 1)) at 1 by lia. simpl. unfold address.
    by rewrite Hcp. }
  assert (Ha : address cells (S k) = Some (c_node cn))
    by (unfold address; by rewrite Hcn).
  assert (Ha' : address cells k = Some (c_node ck))
    by (unfold address; by rewrite Hck).
  eexists. split.
  - unfold Erase. rewrite IsValidIndex_true by lia.
    change (bind get_state ?k s) with (k s s). cbv beta.
    rewrite decide_False by lia.
    rewrite size_t_small by lia. rewrite decide_False by lia.
    eapply bind_eq; [|apply decrement_size_spec].
    eapply bind_eq; [exact Htr|].
    eapply bind_eq; [apply read_node_spec; exact Hnk|].
    cbn [next node_at]. rewrite Ha.
    eapply bind_eq; [apply deref_Some|].
    eapply bind_eq; [apply read_node_spec; exact Hnn|].
    cbn [previous node_at]. rewrite Ha'.
    eapply bind_eq; [apply deref_Some|].
    eapply bind_eq; [apply read_node_spec; exact Hnk|].
    cbn [previous node_at]. fold (before cells k). rewrite Hb.
    eapply bind_eq.
    { eapply delete_Node_spec; [exact Hnk|simpl; by rewrite Hck|exact Hek]. }
    eapply bind_eq.
    { eapply set_previous_spec. cbn [nodes].
      rewrite lookup_delete_ne by done. exact Hnn. }
    eapply set_next_spec. cbn [nodes with_nodes].
    rewrite lookup_insert_ne by done.
    rewrite lookup_delete_ne by done. exact Hnp.
  - apply (represents_delete s cells k);
      cbn [nodes elements size head tail with_nodes];
      [done|lia| | | | | | |].
    + intros i c Hc Hi.
      rewrite lookup_delete_ne by (by eapply (data_ne s cells _ i)).
      by eapply represents_element.
    + intros i c Hc Hi HSi Hi'.
      rewrite lookup_insert_ne by (eapply (node_ne s cells _ i); [done..|lia]).
      rewrite lookup_insert_ne by (eapply (node_ne s cells _ i); [done..|lia]).
      rewrite lookup_delete_ne by (by eapply (node_ne s cells _ i)).
      by eapply represents_node.
    + intros i c Hc Hi. assert (i = (k - 1)%nat) as -> by lia.
      simplify_eq. rewrite lookup_insert_eq. simpl. by rewrite Hcp, Ha.
    + intros c Hc. simplify_eq. rewrite lookup_insert_ne by done.
      rewrite lookup_insert_eq. simpl. by rewrite Hcn, Hb.
    + rewrite size_t_small by lia. done.
    + rewrite decide_False by lia. done.
    + rewrite decide_False by lia. done.
Qed.

Lemma Erase_spec s cells Index :
  represents s cells -> 0 <= Index < size s -> size s < 2 ^ 64 ->
  exists s' k,
    Erase Index s = (Return tt, s') /\ (k < length cells)%nat /\
    represents s' (delete k cells).
Proof.
  intros Hrep HIndex Hsz.
  pose proof Hrep as (_ & _ & _ & Hsize & _).
  destruct (decide (Index = 0)) as [->|H0].
  - destruct cells as [|c0 [|c1 cells]]; [simpl in *; lia| |].
    + destruct (Erase_single s c0 Hrep) as (s' & He & Hr).
      exists s', 0%nat. simpl. split; [done|]. split; [lia|done].
    + destruct (Erase_front s _ c0 c1 Hrep eq_refl eq_refl Hsz) as (s' & He & Hr).
      exists s', 0%nat. simpl. split; [done|]. split; [lia|done].
  - destruct (decide (Index = size s - 1)) as [->|H1].
    + destruct (lookup_lt_is_Some_2 cells (length cells - 1)) as [ct Hct]; [lia|].
      destruct (lookup_lt_is_Some_2 cells (length cells - 2)) as [ct' Hct']; [lia|].
      destruct (Erase_back s cells ct ct' Hrep ltac:(lia) Hct Hct' Hsz)
        as (s' & He & Hr).
      rewrite size_t_small in He by lia.
      exists s', (length cells - 1)%nat. split; [done|]. split; [lia|done].
    + destruct (Erase_middle s cells Index Hrep ltac:(lia) Hsz)
        as (Hk0 & Hk1 & s' & He & Hr).
      exists s', (Z.to_nat (Traverse_index (size s) Index)).
      split; [done|]. split; [lia|done].
Qed.

Lemma Clear_loop_None fuel s : Clear_loop fuel None s = (Return tt, s).
Proof. by destruct fuel. Qed.

Lemma Clear_loop_spec cells n :
  NoDup (c_node <$> cells) -> NoDup (c_data <$> cells) ->
  forall j fuel s,
    (j + n = length cells)%nat -> (n <= fuel)%nat ->
    (forall i c, cells !! i = Some c -> (j <= i)%nat ->
       nodes s !! c_node c = Some (node_at cells i) /\
       is_Some (elements s !! c_data c)) ->
    exists n' e',
      Clear_loop fuel (address cells j) s
      = (Return tt, mkState n' e' (size s) (head s) (tail s)) /\
      (forall q, n' !! q = if decide (q ∈ c_node <$> drop j cells) then None
                           else nodes s !! q) /\
      (forall d, e' !! d = if decide (d ∈ c_data <$> drop j cells) then None
                           else elements s !! d).
Proof.
  intros Hnd Hdd. induction n as [|n IH]; intros j fuel s Hj Hfuel Hcells.
  - unfold address. rewrite lookup_ge_None_2 by lia. simpl.
    rewrite Clear_loop_None. exists (nodes s), (elements s).
    rewrite drop_ge by lia. split; [by destruct s|].
    split; intros q; by rewrite decide_False by apply not_elem_of_nil.
  - destruct fuel as [|fuel]; [lia|].
    destruct (lookup_lt_is_Some_2 cells j) as [c Hc]; [lia|].
    destruct (Hcells j c Hc ltac:(lia)) as [Hn [v He]].
    unfold address at 1. rewrite Hc. simpl.
    rewrite (bind_Return _ _ _ _ _ (read_node_spec _ _ _ Hn)).
    assert (Hdata : data (node_at cells j) = Some (c_data c))
      by (simpl; by rewrite Hc).
    rewrite (bind_Return _ _ _ _ _ (delete_Node_spec _ _ _ _ _ Hn Hdata He)).
    cbn [next node_at].
    edestruct (IH (S j) fuel) as (n' & e' & -> & Hn' & He'); [lia|lia| |].
    + intros i c' Hc' Hi. cbn [nodes elements].
      assert (i <> j) by lia.
      rewrite !lookup_delete_ne.
      * apply Hcells; [done|lia].
      * intros Heq. apply H.
        eapply (NoDup_lookup _ i j); [exact Hdd| |]; rewrite list_lookup_fmap.
        -- by rewrite Hc'.
        -- rewrite Hc. simpl. congruence.
      * intros Heq. apply H.
        eapply (NoDup_lookup _ i j); [exact Hnd| |]; rewrite list_lookup_fmap.
        -- by rewrite Hc'.
        -- rewrite Hc. simpl. congruence.
    + exists n', e'. split; [done|]. cbn [nodes elements] in Hn', He'.
      rewrite (drop_S cells c j Hc). cbn [fmap list_fmap].
      split; intros q.
      * rewrite Hn'. destruct (decide (q = c_node c)) as [->|Hq].
        -- rewrite lookup_delete_eq.
           rewrite (decide_True (P := _ ∈ _ :: _)) by left.
           by case_decide.
        -- rewrite lookup_delete_ne by done.
           destruct (decide (q ∈ c_node <$> drop (S j) cells)).
           ++ by rewrite decide_True by (by right).
           ++ rewrite decide_False; [done|].
              intros [?|?]%elem_of_cons; done.
      * rewrite He'. destruct (decide (q = c_data c)) as [->|Hq].
        -- rewrite lookup_delete_eq.
           rewrite (decide_True (P := _ ∈ _ :: _)) by left.
           by case_decide.
        -- rewrite lookup_delete_ne by done.
           destruct (decide (q ∈ c_data <$> drop (S j) cells)).
           ++ by rewrite decide_True by (by right).
           ++ rewrite decide_False; [done|].
              intros [?|?]%elem_of_cons; done.
Qed.

(** [Clear] leaves the empty list; of the memory it frees the nodes and
    the element objects of the list, and nothing else. *)
Lemma Clear_frees s cells :
  represents s cells ->
  exists s',
    Clear s = (Return tt, s') /\ represents s' [] /\
    (forall q, nodes s' !! q = if decide (q ∈ c_node <$> cells) then None
                               else nodes s !! q) /\
    (forall d, elements s' !! d = if decide (d ∈ c_data <$> cells) then None
                                  else elements s !! d).
Proof.
  intros Hrep. pose proof Hrep as (Hnd & Hdd & Hcells & Hsize & Hhead & Htail).
  pose proof (represents_length_le s cells Hrep) as Hle.
  destruct (Clear_loop_spec cells (length cells) Hnd Hdd 0 (walk_fuel s) s)
    as (n' & e' & Hloop & Hn' & He'); [lia|unfold walk_fuel; lia| |].
  { intros i c Hc _. destruct (Hcells i c Hc) as [Hn He]. split; [done|eauto]. }
  rewrite drop_0 in Hn', He'.
  eexists. split; [|split; [|split]].
  - unfold Clear. change (bind get_state ?k s) with (k s s). cbv beta.
    rewrite Hhead. eapply bind_eq; [exact Hloop|]. reflexivity.
  - unfold represents; cbn [nodes elements size head tail].
    repeat split; try apply NoDup_nil_2; done.
  - exact Hn'.
  - exact He'.
Qed.

Lemma Clear_spec s cells :
  represents s cells ->
  exists s', Clear s = (Return tt, s') /\ represents s' [].
Proof.
  intros Hrep. destruct (Clear_frees s cells Hrep) as (s' & ? & ? & _).
  by exists s'.
Qed.

End Removal.

(** ** The invariant of the list *)

Section Structural.
Context {T : Type} `{!Greater T} `{!Equal T}.
Local Abbreviation cell := (cell T).
Implicit Types (s : State T) (cells : list cell).

Lemma follow_next s cells k i :
  represents s cells -> (i + k < length cells)%nat ->
  follow s next k (address cells i) = address cells (i + k).
Proof.
  intros Hrep. revert i. induction k as [|k IH]; intros i Hlt; simpl.
  - by rewrite Nat.add_0_r.
  - destruct (lookup_lt_is_Some_2 cells i) as [c Hc]; [lia|].
    unfold address at 1. rewrite Hc. simpl.
    rewrite (represents_node _ _ _ _ Hrep Hc). cbn [next node_at].
    rewrite IH by lia. f_equal. lia.
Qed.

Lemma follow_previous s cells k i :
  represents s cells -> (k <= i)%nat -> (i < length cells)%nat ->
  follow s previous k (address cells i) = address cells (i - k).
Proof.
  intros Hrep. revert i. induction k as [|k IH]; intros i Hle Hlt; simpl.
  - by rewrite Nat.sub_0_r.
  - destruct (lookup_lt_is_Some_2 cells i) as [c Hc]; [lia|].
    unfold address at 1. rewrite Hc. simpl.
    rewrite (represents_node _ _ _ _ Hrep Hc). cbn [previous node_at].
    destruct i as [|i]; [lia|]. rewrite IH by lia. done.
Qed.

Lemma Invariant_structural s : Invariant s -> structural_invariant s.
Proof.
  intros [cells Hrep].
  pose proof Hrep as (Hnd & Hdd & Hcells & Hsize & Hhead & Htail).
  split; [|split].
  - rewrite Hhead, Htail, Hsize. unfold address. split.
    + intros H0. destruct cells; [done|simpl in *; lia].
    + intros [H0 _]. destruct cells; [done|discriminate].
  - intros Hne. assert (Hlen : (0 < length cells)%nat) by lia.
    destruct (lookup_lt_is_Some_2 cells 0) as [c0 Hc0]; [lia|].
    destruct (lookup_lt_is_Some_2 cells (pred (length cells))) as [ct Hct]; [lia|].
    rewrite Hhead, Htail. unfold address at 1 2. rewrite Hc0, Hct.
    split; [by eexists|]. split; [by eexists|].
    replace (Z.to_nat (size s - 1)) with (pred (length cells)) by lia.
    split.
    + rewrite (follow_next s cells) by (done || lia). done.
    + rewrite (follow_previous s cells) by (done || lia). f_equal. lia.
  - intros k p nd Hk Hfollow Hp. rewrite Hhead in Hfollow.
    rewrite (follow_next s cells) in Hfollow by (done || lia). simpl in Hfollow.
    unfold address in Hfollow.
    destruct (cells !! k) as [c|] eqn:Hc; [|done]. simpl in Hfollow.
    simplify_eq. rewrite (represents_node _ _ _ _ Hrep Hc) in Hp.
    simplify_eq. cbn [next previous node_at]. split.
    + intros q Hq. unfold address in Hq.
      destruct (cells !! S k) as [c'|] eqn:Hc'; [|done].
      simpl in Hq. simplify_eq.
      exists (node_at cells (S k)). split; [by eapply represents_node|].
      simpl. unfold address. by rewrite Hc.
    + intros q Hq. destruct k as [|k]; [done|]. unfold address in Hq.
      destruct (cells !! k) as [c'|] eqn:Hc'; [|done].
      simpl in Hq. simplify_eq.
      exists (node_at cells k). split; [by eapply represents_node|].
      simpl. unfold address. by rewrite Hc.
Qed.

End Structural.

Section Preservation.
Context {T : Type} `{!Greater T} `{!Equal T}.
Local Abbreviation cell := (cell T).
Implicit Types (s : State T) (cells : list cell).

Lemma leaves_Shaped {A} (m : M (State T) A) s cells :
  represents s cells ->
  triple (Shaped cells) m (fun _ => Shaped cells) (thrown (Shaped cells)) ->
  leaves Invariant (m s).
Proof.
  intros Hrep Hm. specialize (Hm s (Shaped_refl s cells Hrep)).
  destruct (m s) as [[a|f] s']; simpl.
  - by eapply Shaped_Invariant.
  - destruct Hm as [(i & n & ->) Hs]. by eapply Shaped_Invariant.
Qed.

Lemma leaves_unchanged {A} (m : M (State T) A) s a :
  Invariant s -> m s = (Return a, s) -> leaves Invariant (m s).
Proof. intros Hs ->. done. Qed.

Lemma leaves_thrown {A} (m : M (State T) A) s i n :
  Invariant s -> m s = (Fail (runtime_error i n), s) -> leaves Invariant (m s).
Proof. intros Hs ->. done. Qed.

Lemma leaves_void {A} (m : M (State T) A) s :
  leaves Invariant (m s) -> leaves Invariant (void m s).
Proof.
  unfold void, bind. destruct (m s) as [[a|f] s']; done.
Qed.

Lemma Insert_leaves s Index v :
  Invariant s -> size s < 2 ^ 63 -> 0 <= Index ->
  leaves Invariant (Insert Index v s).
Proof.
  intros [cells Hrep] Hsz HIndex.
  destruct (decide (Index <= size s)) as [Hle|Hgt].
  - destruct (Insert_spec s cells Index v Hrep ltac:(lia) ltac:(lia))
      as (s' & k & -> & _ & Hrep').
    simpl. by eexists.
  - eapply leaves_thrown; [by exists cells|].
    unfold Insert, bind, get_state; simpl. rewrite decide_True by lia. done.
Qed.

Lemma Erase_leaves s Index :
  Invariant s -> size s < 2 ^ 63 -> 0 <= Index ->
  leaves Invariant (Erase Index s).
Proof.
  intros [cells Hrep] Hsz HIndex.
  destruct (decide (Index < size s)) as [Hlt|Hge].
  - destruct (Erase_spec s cells Index Hrep ltac:(lia) ltac:(lia))
      as (s' & k & -> & _ & Hrep').
    simpl. by eexists.
  - eapply leaves_thrown; [by exists cells|]. by apply Erase_throws.
Qed.

Lemma Invariant_size s : Invariant s -> 0 <= size s.
Proof. intros (cells & _ & _ & _ & -> & _). lia. Qed.


End Preservation.

Section Built.
Context {T : Type} `{!Greater T} `{!Equal T}.
Local Abbreviation cell := (cell T).
Implicit Types (s : State T) (cells : list cell).

Lemma empty_list_Invariant : Invariant (empty_list (T := T)).
Proof.
  exists []. unfold represents; simpl.
  repeat split; try apply NoDup_nil_2; done.
Qed.

Lemma push_all_Invariant (l : list T) :
  forall s,
    Invariant s -> size s + Z.of_nat (length l) < 2 ^ 63 ->
    fst (push_all l s) = Return tt /\
    Invariant (snd (push_all l s)) /\
    size (snd (push_all l s)) = size s + Z.of_nat (length l).
Proof.
  induction l as [|v l IH]; intros s Hinv Hsz.
  - simpl. split; [done|]. split; [done|lia].
  - pose proof Hinv as [cells Hrep].
    pose proof (Invariant_size s Hinv) as H0.
    simpl in Hsz.
    destruct (Insert_spec s cells (size s) v Hrep ltac:(lia) ltac:(lia))
      as (s' & k & HI & _ & Hrep').
    assert (Hstep : push_all (v :: l) s = push_all l s').
    { simpl. unfold bind at 1, PushBack, bind at 1, get_state. by rewrite HI. }
    rewrite Hstep.
    assert (Hsize' : size s' = size s + 1).
    { destruct Hrep' as (_ & _ & _ & -> & _). rewrite length_insert_at.
      destruct Hrep as (_ & _ & _ & -> & _). lia. }
    destruct (IH s') as (Hr & Hinv' & Hsz'); [by eexists|lia|].
    rewrite Hsz'. split; [done|]. split; [done|cbn [length]; lia].
Qed.

(** A list that is built from its elements has the invariant. *)
Lemma list_of_Invariant (l : list T) :
  Z.of_nat (length l) < 2 ^ 63 ->
  Invariant (list_of l) /\ size (list_of l) = Z.of_nat (length l).
Proof.
  intros Hl. unfold list_of.
  destruct (push_all_Invariant l empty_list empty_list_Invariant)
    as (_ & Hinv & Hsz); [simpl; lia|].
  split; [done|]. rewrite Hsz. simpl. lia.
Qed.

(** C10: in a list that has the invariant, two calls of [Swap] with the
    same valid indices leave the state, and so the elements in their order,
    as they were; so does one call of [Swap] with twice the same index. *)
Theorem Swap_twice_unchanged (s : State T) (Left Right : Z) :
  Invariant s -> size s < 2 ^ 64 ->
  0 <= Left < size s -> 0 <= Right < size s ->
  (Swap Left Right ;;; Swap Left Right) s = (Return tt, s) /\
  Swap Left Left s = (Return tt, s).
Proof.
  intros Hinv Hsz HL HR. split.
  - by apply Swap_twice.
  - by apply Swap_same.
Qed.

End Built.

(** C10, an instance: [Swap(1, 4)] on the list [1,2,3,4,5,6], where the
    walk to index 4 goes back from [tail]. *)
Lemma Swap_twice_unchanged_witness :
  (Swap 1 4 ;;; Swap 1 4) (list_of [1; 2; 3; 4; 5; 6])
    = (Return tt, list_of [1; 2; 3; 4; 5; 6]) /\
  Swap 1 1 (list_of [1; 2; 3; 4; 5; 6])
    = (Return tt, list_of [1; 2; 3; 4; 5; 6]).
Proof.
  apply (Swap_twice_unchanged (list_of [1; 2; 3; 4; 5; 6]) 1 4).
  - apply list_of_Invariant. vm_compute. reflexivity.
  - vm_compute. reflexivity.
  - vm_compute. split; [discriminate|reflexivity].
  - vm_compute. split; [discriminate|reflexivity].
Defined.


(** ** The algorithms of [Sorting] on arrays *)

Section Order.
Context {T : Type} (cmp : T -> T -> bool).
Hypothesis cmp_order : strict_total_order cmp.

Lemma cmp_asymmetric x y : cmp x y = true -> cmp y x = false.
Proof.
  intros Hxy. destruct (cmp y x) eqn:Hyx; [|done].
  pose proof (sto_transitive cmp cmp_order x y x Hxy Hyx) as H.
  by rewrite (sto_irreflexive cmp cmp_order) in H.
Qed.

Lemma precedes_total : base.Total (precedes cmp).
Proof.
  intros x y. unfold precedes. destruct (cmp x y) eqn:Hxy; [|by left].
  right. by apply cmp_asymmetric.
Qed.

Lemma precedes_transitive : Transitive (precedes cmp).
Proof.
  intros x y z Hxy Hyz. unfold precedes in *.
  destruct (cmp x z) eqn:Hxz; [|done].
  destruct (cmp y x) eqn:Hyx.
  - by rewrite (sto_transitive cmp cmp_order y x z Hyx Hxz) in Hyz.
  - rewrite (sto_connected cmp cmp_order x y Hxy Hyx) in Hxz. congruence.
Qed.

Lemma precedes_antisymmetric : AntiSymm (=) (precedes cmp).
Proof. intros x y Hxy Hyx. by apply (sto_connected cmp cmp_order). Qed.

Lemma precedes_reflexive : Reflexive (precedes cmp).
Proof. intros x. apply (sto_irreflexive cmp cmp_order). Qed.

End Order.

Section Arrays.
Context {T : Type}.
Implicit Types (a : list T) (x y v : T).

Lemma array_at_index a i x :
  0 <= i -> a !! Z.to_nat i = Some x ->
  Sorting.at_index i a = (Return x, a).
Proof.
  intros Hi Hx. pose proof (lookup_lt_Some _ _ _ Hx).
  unfold Sorting.at_index, bind; simpl. unfold array_subscript.
  rewrite decide_True by lia. unfold array_load. by rewrite Hx.
Qed.

Lemma array_set_index a i v :
  0 <= i < Z.of_nat (length a) ->
  Sorting.set_index i v a = (Return tt, <[Z.to_nat i := v]> a).
Proof.
  intros Hi. unfold Sorting.set_index, bind; simpl. unfold array_subscript.
  rewrite decide_True by lia. unfold array_store.
  by rewrite decide_True by lia.
Qed.

Lemma array_swap_index a i j x y :
  0 <= i -> 0 <= j ->
  a !! Z.to_nat i = Some x -> a !! Z.to_nat j = Some y ->
  Sorting.swap_index i j a
  = (Return tt, <[Z.to_nat j := x]> (<[Z.to_nat i := y]> a)).
Proof.
  intros Hi Hj Hx Hy.
  pose proof (lookup_lt_Some _ _ _ Hx). pose proof (lookup_lt_Some _ _ _ Hy).
  unfold Sorting.swap_index, Sorting.assign_index.
  rewrite (bind_Return _ _ _ _ _ (array_at_index a i x Hi Hx)).
  rewrite (bind_Return _ _ _ _ _ (bind_eq _ _ _ _ _ _ (array_at_index a j y Hj Hy)
             (array_set_index a i y ltac:(lia)))).
  apply array_set_index. rewrite length_insert. lia.
Qed.

(** Exchanging two cells of a list with this shape. *)
Lemma swap_cells_app (l1 l2 l3 : list T) x y :
  <[(length l1 + S (length l2))%nat := x]>
    (<[length l1 := y]> (l1 ++ x :: l2 ++ y :: l3))
  = l1 ++ y :: l2 ++ x :: l3.
Proof.
  rewrite (insert_app_r_alt l1) by lia. rewrite Nat.sub_diag. simpl.
  rewrite (insert_app_r_alt l1) by lia.
  replace (length l1 + S (length l2) - length l1)%nat with (S (length l2)) by lia.
  simpl. f_equal. f_equal.
  rewrite (insert_app_r_alt l2) by lia. by rewrite Nat.sub_diag.
Qed.

Lemma array_swap_app (l1 l2 l3 : list T) x y i j :
  i = Z.of_nat (length l1) -> j = Z.of_nat (length l1 + S (length l2)) ->
  Sorting.swap_index i j (l1 ++ x :: l2 ++ y :: l3)
  = (Return tt, l1 ++ y :: l2 ++ x :: l3).
Proof.
  intros -> ->.
  rewrite (array_swap_index _ _ _ x y); try lia.
  - rewrite !Nat2Z.id. by rewrite swap_cells_app.
  - rewrite Nat2Z.id. by rewrite list_lookup_middle.
  - rewrite Nat2Z.id. rewrite lookup_app_r by lia.
    replace (length l1 + S (length l2) - length l1)%nat with (S (length l2)) by lia.
    simpl. by rewrite list_lookup_middle.
Qed.

Lemma array_swap_same a i x :
  0 <= i -> a !! Z.to_nat i = Some x ->
  Sorting.swap_index i i a = (Return tt, a).
Proof.
  intros Hi Hx. rewrite (array_swap_index _ _ _ x x) by done.
  rewrite (list_insert_id a) by done. by rewrite list_insert_id.
Qed.

End Arrays.

Section ArrayIsSorted.
Context {T : Type} (cmp : T -> T -> bool).
Implicit Types (a l : list T).
Local Abbreviation sortedb := (sortedb cmp).

Lemma sortedb_Sorted l : sortedb l = true <-> Sorted (precedes cmp) l.
Proof.
  induction l as [|x [|y l] IH]; simpl.
  - split; [constructor|done].
  - split; [repeat constructor|done].
  - rewrite andb_true_iff, negb_true_iff. split.
    + intros [Hxy Hl]. constructor; [by apply IH|by constructor].
    + intros Hs. inversion Hs as [|? ? Hs' Hhd]; subst.
      inversion Hhd; subst. split; [done|by apply IH].
Qed.

Lemma IsSorted_loop a k :
  forall i,
    (i + S k = length a)%nat -> Z.of_nat (length a) < 2 ^ 64 ->
    for_loop (S := list T) (R := bool) k (Z.of_nat i) tt
      (fun Index _ =>
         x <- Sorting.at_index Index ;;
         y <- Sorting.at_index (size_t (Index + 1)) ;;
         if cmp x y then ret (Done false) else ret (Next tt)) a
    = (Return (if sortedb (drop i a) then Next tt else Done false), a).
Proof.
  induction k as [|k IH]; intros i Hi Hlen.
  - simpl. destruct (drop i a) as [|x [|y l]] eqn:Hd; try done.
    apply (f_equal length) in Hd. rewrite length_drop in Hd. simpl in Hd. lia.
  - destruct (lookup_lt_is_Some_2 a i) as [x Hx]; [lia|].
    destruct (lookup_lt_is_Some_2 a (S i)) as [y Hy]; [lia|].
    rewrite (drop_S a x i Hx), (drop_S a y (S i) Hy).
    cbn [for_loop sortedb].
    rewrite (bind_Return _ _ _ (if cmp x y then Done false else Next tt) a).
    + destruct (cmp x y); [done|]. simpl negb. rewrite andb_true_l.
      rewrite size_t_small by lia.
      replace (Z.of_nat i + 1) with (Z.of_nat (S i)) by lia.
      rewrite IH by lia. by rewrite (drop_S a y (S i) Hy).
    + rewrite (bind_Return _ _ _ _ _ (array_at_index a (Z.of_nat i) x
                 ltac:(lia) ltac:(by rewrite Nat2Z.id))).
      rewrite size_t_small by lia.
      rewrite (bind_Return _ _ _ _ _ (array_at_index a (Z.of_nat i + 1) y
                 ltac:(lia)
                 ltac:(by replace (Z.to_nat (Z.of_nat i + 1)) with (S i) by lia))).
      by destruct (cmp x y).
Qed.

(** [IsSorted] on an array that has at least one element, with its length
    as [Size]. *)
Lemma IsSorted_array a :
  1 <= Z.of_nat (length a) < 2 ^ 64 ->
  Sorting.IsSorted (Z.of_nat (length a)) cmp a = (Return (sortedb a), a).
Proof.
  intros Hlen. unfold Sorting.IsSorted, for_range.
  rewrite size_t_small by lia.
  replace (Z.to_nat (Z.of_nat (length a) - 1 - 0)) with (length a - 1)%nat by lia.
  rewrite (bind_Return _ _ _ _ _ (IsSorted_loop a (length a - 1) 0 ltac:(lia) ltac:(lia))).
  rewrite drop_0. by destruct (sortedb a).
Qed.

End ArrayIsSorted.

Section ArrayMerge.
Context {T : Type} (cmp : T -> T -> bool).
Implicit Types (a l out rest pre seg post : list T).
Local Abbreviation R := (precedes cmp).

Lemma array_set_middle out rest x v i :
  i = Z.of_nat (length out) ->
  Sorting.set_index i v (out ++ x :: rest) = (Return tt, out ++ v :: rest).
Proof.
  intros ->. rewrite array_set_index.
  - rewrite Nat2Z.id. rewrite insert_app_r_alt by lia.
    by rewrite Nat.sub_diag.
  - rewrite length_app. simpl. lia.
Qed.

Lemma copy_out_loop pre seg post k :
  forall i,
    (i + k = length seg)%nat ->
    Z.of_nat (length (pre ++ seg ++ post)) < 2 ^ 64 ->
    for_loop (S := list T) (R := Empty_set) k (Z.of_nat i) (take i seg)
      (fun Index Buffer =>
         v <- Sorting.at_index (size_t (Z.of_nat (length pre) + Index)) ;;
         ret (Next (Buffer ++ [v]))) (pre ++ seg ++ post)
    = (Return (Next seg), pre ++ seg ++ post).
Proof.
  induction k as [|k IH]; intros i Hi Hlen.
  - simpl. rewrite take_ge by lia. done.
  - rewrite !length_app in Hlen.
    destruct (lookup_lt_is_Some_2 seg i) as [x Hx]; [lia|].
    cbn [for_loop]. rewrite size_t_small by lia.
    erewrite (bind_Return _ _ _ (Next (take i seg ++ [x]))).
    + rewrite size_t_small by lia.
      replace (Z.of_nat i + 1) with (Z.of_nat (S i)) by lia.
      rewrite <- (take_S_r seg i x Hx). apply IH; [lia|].
      rewrite !length_app. lia.
    + erewrite (bind_Return _ _ _ x); [done|].
      apply array_at_index; [lia|].
      replace (Z.to_nat (Z.of_nat (length pre) + Z.of_nat i))
        with (length pre + i)%nat by lia.
      rewrite lookup_app_r by lia. rewrite lookup_app_l by lia.
      rewrite <- Hx. f_equal. lia.
Qed.

Lemma copy_out_array pre seg post From Size :
  From = Z.of_nat (length pre) -> Size = Z.of_nat (length seg) ->
  Z.of_nat (length (pre ++ seg ++ post)) < 2 ^ 64 ->
  Sorting.copy_out From Size (pre ++ seg ++ post)
  = (Return seg, pre ++ seg ++ post).
Proof.
  intros -> -> Hlen. unfold Sorting.copy_out, for_range.
  replace (Z.to_nat (Z.of_nat (length seg) - 0)) with (length seg) by lia.
  rewrite (bind_Return _ _ _ _ _ (copy_out_loop pre seg post (length seg) 0
             ltac:(lia) Hlen)).
  done.
Qed.

Section Loops.
Variables (Left Right : list T).
Hypothesis length_small : Z.of_nat (length Left + length Right) < 2 ^ 63.

Lemma buffer_at_lookup (Buffer : list T) i x a :
  Buffer !! i = Some x ->
  Sorting.buffer_at (C := list T) Buffer (Z.of_nat i) a = (Return x, a).
Proof. intros Hx. unfold Sorting.buffer_at. by rewrite Nat2Z.id, Hx. Qed.

Lemma take_left_array out x rest b e lv :
  Left !! b = Some lv -> Z.of_nat (length out) < 2 ^ 63 ->
  Sorting.take_left Left
    (Sorting.Cursors (Z.of_nat b) e (Z.of_nat (length out)))
    (out ++ x :: rest)
  = (Return (Sorting.Cursors (Z.of_nat (S b)) e
               (Z.of_nat (length (out ++ [lv])))),
     (out ++ [lv]) ++ rest).
Proof.
  intros Hl Hout. unfold Sorting.take_left. cbn [Sorting.Begin_ Sorting.End_ Sorting.Middle_].
  pose proof (lookup_lt_Some _ _ _ Hl).
  rewrite (bind_Return _ _ _ _ _ (buffer_at_lookup Left b lv _ Hl)).
  rewrite (bind_Return _ _ _ _ _ (array_set_middle out rest x lv _ eq_refl)).
  rewrite !size_t_small by lia. rewrite length_app. simpl.
  rewrite <- app_assoc. simpl. unfold ret. do 3 f_equal; lia.
Qed.

Lemma take_right_array out x rest b e rv :
  Right !! e = Some rv -> Z.of_nat (length out) < 2 ^ 63 ->
  Sorting.take_right Right
    (Sorting.Cursors b (Z.of_nat e) (Z.of_nat (length out)))
    (out ++ x :: rest)
  = (Return (Sorting.Cursors b (Z.of_nat (S e))
               (Z.of_nat (length (out ++ [rv])))),
     (out ++ [rv]) ++ rest).
Proof.
  intros Hr Hout. unfold Sorting.take_right. cbn [Sorting.Begin_ Sorting.End_ Sorting.Middle_].
  pose proof (lookup_lt_Some _ _ _ Hr).
  rewrite (bind_Return _ _ _ _ _ (buffer_at_lookup Right e rv _ Hr)).
  rewrite (bind_Return _ _ _ _ _ (array_set_middle out rest x rv _ eq_refl)).
  rewrite !size_t_small by lia. rewrite length_app. simpl.
  rewrite <- app_assoc. simpl. unfold ret. do 3 f_equal; lia.
Qed.

Lemma while_loop_false {St A} fuel (cond : A -> bool) (body : A -> M St A) c :
  cond c = false -> while_loop fuel cond body c = ret c.
Proof. intros H. destruct fuel; simpl; by rewrite H. Qed.

Lemma while_loop_true {St A} fuel (cond : A -> bool) (body : A -> M St A) c :
  cond c = true ->
  while_loop (S fuel) cond body c
  = bind (body c) (while_loop fuel cond body).
Proof. intros H. simpl. by rewrite H. Qed.

Local Abbreviation LeftSize := (Z.of_nat (length Left)).
Local Abbreviation RightSize := (Z.of_nat (length Right)).

Lemma flush_left e n :
  forall fuel b out rest,
    (b + n = length Left)%nat -> (n <= fuel)%nat -> (n <= length rest)%nat ->
    Z.of_nat (length out + length rest) < 2 ^ 63 ->
    while_loop fuel (fun c => bool_decide (Sorting.Begin_ c < LeftSize))
      (Sorting.take_left Left)
      (Sorting.Cursors (Z.of_nat b) e (Z.of_nat (length out))) (out ++ rest)
    = (Return (Sorting.Cursors LeftSize e
                 (Z.of_nat (length (out ++ drop b Left)))),
       (out ++ drop b Left) ++ drop n rest).
Proof.
  induction n as [|n IH]; intros fuel b out rest Hb Hfuel Hrest Hlen.
  - rewrite while_loop_false
      by (cbn [Sorting.Begin_]; apply bool_decide_eq_false; lia).
    rewrite drop_ge by lia. rewrite app_nil_r, drop_0.
    unfold ret. do 3 f_equal. lia.
  - destruct fuel as [|fuel]; [lia|].
    destruct rest as [|x rest]; [simpl in Hrest; lia|].
    destruct (lookup_lt_is_Some_2 Left b) as [lv Hl]; [lia|].
    rewrite while_loop_true
      by (cbn [Sorting.Begin_]; apply bool_decide_eq_true; lia).
    simpl in Hlen, Hrest.
    rewrite (bind_Return _ _ _ _ _ (take_left_array out x rest b e lv Hl ltac:(lia))).
    rewrite IH; [|lia|lia|lia|rewrite length_app; simpl; lia].
    rewrite (drop_S Left lv b Hl). simpl. rewrite <- !app_assoc. done.
Qed.

Lemma flush_right b n :
  forall fuel e out rest,
    (e + n = length Right)%nat -> (n <= fuel)%nat -> (n <= length rest)%nat ->
    Z.of_nat (length out + length rest) < 2 ^ 63 ->
    while_loop fuel (fun c => bool_decide (Sorting.End_ c < RightSize))
      (Sorting.take_right Right)
      (Sorting.Cursors b (Z.of_nat e) (Z.of_nat (length out))) (out ++ rest)
    = (Return (Sorting.Cursors b RightSize
                 (Z.of_nat (length (out ++ drop e Right)))),
       (out ++ drop e Right) ++ drop n rest).
Proof.
  induction n as [|n IH]; intros fuel e out rest He Hfuel Hrest Hlen.
  - rewrite while_loop_false
      by (cbn [Sorting.End_]; apply bool_decide_eq_false; lia).
    rewrite drop_ge by lia. rewrite app_nil_r, drop_0.
    unfold ret. do 3 f_equal. lia.
  - destruct fuel as [|fuel]; [lia|].
    destruct rest as [|x rest]; [simpl in Hrest; lia|].
    destruct (lookup_lt_is_Some_2 Right e) as [rv Hr]; [lia|].
    rewrite while_loop_true
      by (cbn [Sorting.End_]; apply bool_decide_eq_true; lia).
    simpl in Hlen, Hrest.
    rewrite (bind_Return _ _ _ _ _ (take_right_array out x rest b e rv Hr ltac:(lia))).
    rewrite IH; [|lia|lia|lia|rewrite length_app; simpl; lia].
    rewrite (drop_S Right rv e Hr). simpl. rewrite <- !app_assoc. done.
Qed.

(** The first loop of [Merge] takes from both buffers until one is used
    up; what it has written and the merge of what is left are the merge
    of the buffers. *)
Lemma merge_loop n :
  forall fuel b e out rest,
    ((length Left - b) + (length Right - e) = n)%nat ->
    (b <= length Left)%nat -> (e <= length Right)%nat ->
    (n <= fuel)%nat -> (n <= length rest)%nat ->
    Z.of_nat (length out + length rest) < 2 ^ 63 ->
    exists b' e' merged,
      while_loop fuel
        (fun c => bool_decide (Sorting.Begin_ c < LeftSize)
                  && bool_decide (Sorting.End_ c < RightSize))
        (fun c =>
           l <- Sorting.buffer_at Left (Sorting.Begin_ c) ;;
           r <- Sorting.buffer_at Right (Sorting.End_ c) ;;
           if negb (cmp l r) then Sorting.take_left Left c
           else Sorting.take_right Right c)
        (Sorting.Cursors (Z.of_nat b) (Z.of_nat e) (Z.of_nat (length out)))
        (out ++ rest)
      = (Return (Sorting.Cursors (Z.of_nat b') (Z.of_nat e')
                   (Z.of_nat (length (out ++ merged)))),
         (out ++ merged) ++ drop (length merged) rest) /\
      (b' = length Left \/ e' = length Right) /\
      (b <= b' <= length Left)%nat /\ (e <= e' <= length Right)%nat /\
      length merged = ((b' - b) + (e' - e))%nat /\
      merged ++ list_merge R (drop b' Left) (drop e' Right)
      = list_merge R (drop b Left) (drop e Right).
Proof.
  induction n as [|n IH]; intros fuel b e out rest Hn Hb He Hfuel Hrest Hlen.
  - exists b, e, []. rewrite while_loop_false.
    + rewrite app_nil_r, drop_0. split; [done|]. 
      split; [lia|]. split; [lia|]. split; [lia|]. split; [simpl; lia|done].
    + cbn [Sorting.Begin_ Sorting.End_]. apply andb_false_iff.
      left. apply bool_decide_eq_false. lia.
  - destruct (decide (b < length Left /\ e < length Right)%nat) as [[Hb' He']|Hdone].
    + destruct fuel as [|fuel]; [lia|].
      destruct rest as [|x rest]; [simpl in Hrest; lia|].
      destruct (lookup_lt_is_Some_2 Left b) as [lv Hl]; [lia|].
      destruct (lookup_lt_is_Some_2 Right e) as [rv Hr]; [lia|].
      simpl in Hlen, Hrest.
      rewrite while_loop_true.
      2:{ cbn [Sorting.Begin_ Sorting.End_]. apply andb_true_iff.
          split; apply bool_decide_eq_true; lia. }
      cbn [Sorting.Begin_ Sorting.End_].
      rewrite (drop_S Left lv b Hl), (drop_S Right rv e Hr).
      rewrite list_merge_cons.
      destruct (cmp lv rv) eqn:Hcmp.
      * (* the right element goes first *)
        rewrite decide_False by (unfold precedes; congruence).
        destruct (IH fuel b (S e) (out ++ [rv]) rest)
          as (b' & e' & merged & Hw & Hor & Hb2 & He2 & Hlm & Hm);
          [lia|lia|lia|lia|lia|rewrite length_app; simpl; lia|].
        exists b', e', (rv :: merged).
        split; [|split; [done|split; [lia|split; [lia|split; [simpl; lia|]]]]].
        -- erewrite bind_eq; [reflexivity| |].
           { rewrite (bind_Return _ _ _ _ _ (buffer_at_lookup Left b lv _ Hl)).
             rewrite (bind_Return _ _ _ _ _ (buffer_at_lookup Right e rv _ Hr)).
             rewrite Hcmp. simpl negb. cbv iota.
             apply (take_right_array out x rest _ e rv Hr). lia. }
           rewrite Hw. simpl. rewrite <- !app_assoc. done.
        -- simpl. rewrite Hm. by rewrite (drop_S Left lv b Hl).
      * (* the left element goes first *)
        rewrite decide_True by done.
        destruct (IH fuel (S b) e (out ++ [lv]) rest)
          as (b' & e' & merged & Hw & Hor & Hb2 & He2 & Hlm & Hm);
          [lia|lia|lia|lia|lia|rewrite length_app; simpl; lia|].
        exists b', e', (lv :: merged).
        split; [|split; [done|split; [lia|split; [lia|split; [simpl; lia|]]]]].
        -- erewrite bind_eq; [reflexivity| |].
           { rewrite (bind_Return _ _ _ _ _ (buffer_at_lookup Left b lv _ Hl)).
             rewrite (bind_Return _ _ _ _ _ (buffer_at_lookup Right e rv _ Hr)).
             rewrite Hcmp. simpl negb. cbv iota.
             apply (take_left_array out x rest b _ lv Hl). lia. }
           rewrite Hw. simpl. rewrite <- !app_assoc. done.
        -- simpl. rewrite Hm. by rewrite (drop_S Right rv e Hr).
    + exists b, e, []. rewrite while_loop_false.
      * rewrite app_nil_r, drop_0. split; [done|].
        split; [lia|]. split; [lia|]. split; [lia|]. split; [simpl; lia|done].
      * cbn [Sorting.Begin_ Sorting.End_]. apply andb_false_iff.
        destruct (decide (b < length Left)%nat).
        -- right. apply bool_decide_eq_false. lia.
        -- left. apply bool_decide_eq_false. lia.
Qed.

End Loops.

(** [Merge] writes the merge of the two halves over them. *)
Lemma Merge_array pre Left Right post Begin Middle End :
  Begin = Z.of_nat (length pre) ->
  Middle = Begin + Z.of_nat (length Left) - 1 ->
  End = Middle + Z.of_nat (length Right) ->
  Z.of_nat (length (pre ++ Left ++ Right ++ post)) < 2 ^ 63 ->
  Sorting.Merge Begin Middle End cmp (pre ++ Left ++ Right ++ post)
  = (Return tt, pre ++ list_merge R Left Right ++ post).
Proof.
  intros -> -> -> Hlen. rewrite !length_app in Hlen.
  unfold Sorting.Merge. cbv zeta.
  replace (size_t (Z.of_nat (length pre) + Z.of_nat (length Left) - 1
                   - Z.of_nat (length pre) + 1))
    with (Z.of_nat (length Left)) by (rewrite size_t_small; lia).
  replace (size_t (Z.of_nat (length pre) + Z.of_nat (length Left) - 1
                   + Z.of_nat (length Right)
                   - (Z.of_nat (length pre) + Z.of_nat (length Left) - 1)))
    with (Z.of_nat (length Right)) by (rewrite size_t_small; lia).
  replace (size_t (Z.of_nat (length pre) + Z.of_nat (length Left) - 1 + 1))
    with (Z.of_nat (length (pre ++ Left)))
    by (rewrite size_t_small, length_app; lia).
  rewrite (bind_Return _ _ _ _ _ (copy_out_array pre Left (Right ++ post) _ _
             eq_refl eq_refl ltac:(rewrite !length_app; lia))).
  replace (pre ++ Left ++ Right ++ post) with ((pre ++ Left) ++ Right ++ post)
    by (by rewrite <- app_assoc).
  rewrite (bind_Return _ _ _ _ _ (copy_out_array (pre ++ Left) Right post _ _
             eq_refl eq_refl ltac:(rewrite !length_app; lia))).
  replace ((pre ++ Left) ++ Right ++ post) with (pre ++ (Left ++ Right ++ post))
    by (by rewrite <- app_assoc).
  replace (Z.to_nat (Z.of_nat (length Left) + Z.of_nat (length Right)))
    with (length Left + length Right)%nat by lia.
  assert (Hsmall : Z.of_nat (length Left + length Right) < 2 ^ 63) by lia.
  destruct (merge_loop Left Right Hsmall (length Left + length Right)
              (length Left + length Right) 0 0 pre (Left ++ Right ++ post))
    as (b' & e' & merged & Hw & Hor & Hb & He & Hlm & Hm);
    [lia|lia|lia|lia|rewrite !length_app; lia|rewrite !length_app; lia|].
  rewrite !drop_0 in Hm.
  change (Z.of_nat 0) with 0 in Hw. rewrite (bind_Return _ _ _ _ _ Hw).
  set (rest1 := drop (length merged) (Left ++ Right ++ post)).
  assert (Hrest1 : length rest1
                   = ((length Left - b') + (length Right - e') + length post)%nat).
  { unfold rest1. rewrite length_drop, !length_app. lia. }
  rewrite (bind_Return _ _ _ _ _
             (flush_left Left Right Hsmall (Z.of_nat e') (length Left - b')
                (length Left + length Right) b' (pre ++ merged) rest1
                ltac:(lia) ltac:(lia) ltac:(lia)
                ltac:(rewrite length_app; lia))).
  set (rest2 := drop (length Left - b') rest1).
  assert (Hrest2 : length rest2 = ((length Right - e') + length post)%nat).
  { unfold rest2. rewrite length_drop. lia. }
  rewrite (bind_Return _ _ _ _ _
             (flush_right Left Right Hsmall (Z.of_nat (length Left)) (length Right - e')
                (length Left + length Right) e'
                ((pre ++ merged) ++ drop b' Left) rest2
                ltac:(lia) ltac:(lia) ltac:(lia)
                ltac:(rewrite !length_app, length_drop; lia))).
  unfold ret. f_equal. rewrite <- !app_assoc. f_equal.
  assert (Hmerged : merged ++ drop b' Left ++ drop e' Right
                    = list_merge R Left Right).
  { rewrite <- Hm. destruct Hor as [-> | ->].
    - rewrite !drop_all. by rewrite list_merge_nil_l.
    - rewrite !drop_all. rewrite list_merge_nil_r. by rewrite app_nil_r. }
  rewrite <- Hmerged. rewrite <- !app_assoc. do 3 f_equal.
  unfold rest2, rest1. rewrite !drop_drop.
  replace (length merged + (length Left - b') + (length Right - e'))%nat
    with (length Left + length Right)%nat by lia.
  rewrite app_assoc. rewrite drop_app_length'; [done|].
  rewrite length_app. lia.
Qed.

End ArrayMerge.

Section ArrayMergeSort.
Context {T : Type} (cmp : T -> T -> bool).
Hypothesis cmp_order : strict_total_order cmp.
Implicit Types (a l pre seg post : list T).
Local Abbreviation R := (precedes cmp).

(** The recursion sorts the segment it is given and leaves the rest of
    the array alone. *)
Lemma RecursiveMergeSort_array fuel :
  forall pre seg post Begin End,
    Begin = Z.of_nat (length pre) ->
    End = Begin + Z.of_nat (length seg) - 1 ->
    (1 <= length seg <= fuel)%nat ->
    Z.of_nat (length (pre ++ seg ++ post)) < 2 ^ 63 ->
    exists seg',
      Sorting.RecursiveMergeSort fuel Begin End cmp (pre ++ seg ++ post)
      = (Return tt, pre ++ seg' ++ post) /\
      Sorted R seg' /\ seg' ≡ₚ seg.
Proof.
  pose proof (precedes_total cmp cmp_order) as Htotal.
  induction fuel as [|fuel IH]; intros pre seg post Begin End -> -> Hseg Hlen;
    [lia|].
  rewrite !length_app in Hlen.
  cbn [Sorting.RecursiveMergeSort].
  destruct (decide (Z.of_nat (length pre)
                    >= Z.of_nat (length pre) + Z.of_nat (length seg) - 1))
    as [Hone|Hmore].
  - exists seg. split; [done|]. split; [|done].
    destruct seg as [|x [|y seg]]; simpl in *; try lia.
    repeat constructor.
  - cbv zeta. rewrite (size_t_small (_ + _)) by lia.
    set (Middle := (Z.of_nat (length pre)
                    + (Z.of_nat (length pre) + Z.of_nat (length seg) - 1)) / 2).
    assert (HMiddle : Z.of_nat (length pre) <= Middle
                      < Z.of_nat (length pre) + Z.of_nat (length seg) - 1).
    { unfold Middle. split.
      - apply Z.div_le_lower_bound; lia.
      - apply Z.div_lt_upper_bound; lia. }
    set (k := Z.to_nat (Middle - Z.of_nat (length pre) + 1)).
    assert (Hk : (1 <= k < length seg)%nat) by lia.
    replace (pre ++ seg ++ post)
      with (pre ++ take k seg ++ drop k seg ++ post)
      by (by rewrite (app_assoc (take k seg)), take_drop).
    assert (Hl : length (take k seg) = k) by (rewrite length_take; lia).
    assert (Hr : length (drop k seg) = (length seg - k)%nat)
      by (by rewrite length_drop).
    destruct (IH pre (take k seg) (drop k seg ++ post) _ Middle
                eq_refl ltac:(lia) ltac:(lia)
                ltac:(rewrite !length_app; lia))
      as (Left & HLeft & HsL & HpL).
    rewrite (bind_Return _ _ _ _ _ HLeft).
    pose proof (Permutation_length HpL) as HlL.
    rewrite (size_t_small (Middle + 1)) by lia.
    rewrite (app_assoc pre Left).
    destruct (IH (pre ++ Left) (drop k seg) post (Middle + 1)
                (Z.of_nat (length pre) + Z.of_nat (length seg) - 1)
                ltac:(rewrite length_app; lia) ltac:(lia) ltac:(lia)
                ltac:(rewrite !length_app; lia))
      as (Right & HRight & HsR & HpR).
    rewrite (bind_Return _ _ _ _ _ HRight).
    pose proof (Permutation_length HpR) as HlR.
    rewrite <- (app_assoc pre Left).
    rewrite (Merge_array cmp pre Left Right post); [|lia|lia|lia|
      rewrite !length_app; lia].
    exists (list_merge R Left Right). split; [done|]. split.
    + by apply Sorted_list_merge.
    + rewrite merge_Permutation. rewrite HpL, HpR. by rewrite take_drop.
Qed.

(** [MergeSort] on an array: the result is sorted and a permutation. *)
Lemma MergeSort_array a :
  1 <= Z.of_nat (length a) < 2 ^ 63 ->
  exists a',
    Sorting.MergeSort (Z.of_nat (length a)) cmp a = (Return tt, a') /\
    Sorted R a' /\ a' ≡ₚ a.
Proof.
  intros Hlen. unfold Sorting.MergeSort, Sorting.depth.
  rewrite size_t_small by lia.
  destruct (RecursiveMergeSort_array (S (Z.to_nat (Z.of_nat (length a) - 1)))
              [] a [] 0 (Z.of_nat (length a) - 1) eq_refl ltac:(lia)
              ltac:(lia) ltac:(rewrite !length_app; simpl; lia))
    as (a' & Hrun & Hs & Hp).
  simpl in Hrun. rewrite !app_nil_r in Hrun. eauto.
Qed.

End ArrayMergeSort.

Section ArrayBubbleSort.
Context {T : Type} (cmp : T -> T -> bool).
Implicit Types (a l front back pre rest : list T).
Local Abbreviation R := (precedes cmp).
Local Abbreviation bubble := (bubble cmp).
Local Abbreviation swaps := (swaps cmp).

Lemma bubble_Permutation l : forall x, bubble x l ≡ₚ x :: l.
Proof.
  induction l as [|y l IH]; intros x; simpl; [done|].
  destruct (cmp x y).
  - rewrite IH. apply Permutation_swap.
  - by rewrite IH.
Qed.

Lemma swaps_false l :
  forall x, swaps x l = false -> bubble x l = x :: l /\ Sorted R (x :: l).
Proof.
  induction l as [|y l IH]; intros x; simpl.
  - intros _. split; [done|]. repeat constructor.
  - destruct (cmp x y) eqn:Hxy; [done|]. intros Hs.
    destruct (IH y Hs) as [-> Hsorted]. split; [done|].
    constructor; [done|]. by constructor.
Qed.

Lemma bubble_loop rest :
  forall pre x back (hs : bool),
    Z.of_nat (length (pre ++ x :: rest ++ back)) < 2 ^ 63 ->
    for_loop (S := list T) (R := Empty_set) (length rest)
      (Z.of_nat (length pre)) hs
      (fun Right HasSwapped =>
         a <- Sorting.at_index Right ;;
         b <- Sorting.at_index (size_t (Right + 1)) ;;
         if cmp a b then
           Sorting.swap_index Right (size_t (Right + 1)) ;;;
           ret (Next true)
         else ret (Next HasSwapped))
      (pre ++ x :: rest ++ back)
    = (Return (Next (hs || swaps x rest)), pre ++ bubble x rest ++ back).
Proof.
  induction rest as [|y rest IH]; intros pre x back hs Hlen.
  - simpl. by rewrite orb_false_r.
  - rewrite length_app in Hlen. cbn [length] in Hlen.
    rewrite length_app in Hlen. cbn [length] in Hlen.
    cbn [for_loop length].
    rewrite (size_t_small (_ + 1)) by lia.
    assert (Hx : Sorting.at_index (Z.of_nat (length pre))
                   (pre ++ x :: (y :: rest) ++ back)
                 = (Return x, pre ++ x :: (y :: rest) ++ back)).
    { apply array_at_index; [lia|]. rewrite Nat2Z.id.
      by rewrite lookup_app_r, Nat.sub_diag by lia. }
    assert (Hy : Sorting.at_index (Z.of_nat (length pre) + 1)
                   (pre ++ x :: (y :: rest) ++ back)
                 = (Return y, pre ++ x :: (y :: rest) ++ back)).
    { apply array_at_index; [lia|].
      replace (Z.to_nat (Z.of_nat (length pre) + 1))
        with (S (length pre)) by lia.
      rewrite lookup_app_r by lia.
      by replace (S (length pre) - length pre)%nat with 1%nat by lia. }
    cbn [bubble swaps].
    destruct (cmp x y) eqn:Hxy.
    + eapply bind_eq.
      { rewrite (bind_Return _ _ _ _ _ Hx), (bind_Return _ _ _ _ _ Hy), Hxy.
        rewrite (bind_Return _ _ _ _ _
                   (array_swap_app pre [] (rest ++ back) x y
                      (Z.of_nat (length pre)) (Z.of_nat (length pre) + 1)
                      eq_refl ltac:(simpl; lia))).
        reflexivity. }
      cbn [app].
      replace (Z.of_nat (length pre) + 1)
        with (Z.of_nat (length (pre ++ [y])))
        by (rewrite length_app; simpl; lia).
      replace (pre ++ y :: x :: rest ++ back)
        with ((pre ++ [y]) ++ x :: rest ++ back)
        by (by rewrite <- app_assoc).
      rewrite (IH (pre ++ [y]) x back true)
        by (rewrite !length_app; simpl; rewrite length_app; lia).
      rewrite <- app_assoc. simpl. by rewrite orb_true_r.
    + eapply bind_eq.
      { rewrite (bind_Return _ _ _ _ _ Hx), (bind_Return _ _ _ _ _ Hy), Hxy.
        reflexivity. }
      replace (Z.of_nat (length pre) + 1)
        with (Z.of_nat (length (pre ++ [x])))
        by (rewrite length_app; simpl; lia).
      replace (pre ++ x :: (y :: rest) ++ back)
        with ((pre ++ [x]) ++ y :: rest ++ back)
        by (by rewrite <- app_assoc).
      rewrite (IH (pre ++ [x]) y back hs)
        by (rewrite !length_app; simpl; rewrite length_app; lia).
      rewrite <- app_assoc. done.
Qed.

Section Ordered.
Hypothesis cmp_order : strict_total_order cmp.

(** The pass moves a greatest value to the end. *)
Lemma bubble_last l :
  forall x, exists front mx,
    bubble x l = front ++ [mx] /\ forall z, z ∈ x :: l -> R z mx.
Proof.
  pose proof (precedes_transitive cmp cmp_order) as Htrans.
  pose proof (precedes_reflexive cmp cmp_order) as Hrefl.
  induction l as [|y l IH]; intros x.
  - exists [], x. split; [done|]. intros z Hz.
    apply list_elem_of_singleton in Hz as ->. apply Hrefl.
  - simpl. destruct (cmp x y) eqn:Hxy.
    + destruct (IH x) as (front & mx & -> & Hmx).
      exists (y :: front), mx. split; [done|]. intros z Hz.
      assert (Hx : R x mx) by (apply Hmx; left).
      apply elem_of_cons in Hz as [->|Hz]; [done|].
      apply elem_of_cons in Hz as [->|Hz].
      * etrans; [|exact Hx]. by apply cmp_asymmetric.
      * apply Hmx. by right.
    + destruct (IH y) as (front & mx & -> & Hmx).
      exists (x :: front), mx. split; [done|]. intros z Hz.
      apply elem_of_cons in Hz as [->|Hz].
      * etrans; [exact Hxy|]. apply Hmx. left.
      * by apply Hmx.
Qed.

Lemma BubbleSort_loop n :
  forall front back Size,
    length front = S n -> Size = Z.of_nat (length front + length back) ->
    Size < 2 ^ 63 ->
    StronglySorted R back ->
    (forall z y, z ∈ front -> y ∈ back -> R z y) ->
    exists r a',
      for_loop (S := list T) (R := unit) n (Z.of_nat (length back)) tt
        (fun Left _ =>
           r <- for_range (R := Empty_set) 0 (size_t (Size - Left - 1)) false
                  (fun Right HasSwapped =>
                     a <- Sorting.at_index Right ;;
                     b <- Sorting.at_index (size_t (Right + 1)) ;;
                     if cmp a b then
                       Sorting.swap_index Right (size_t (Right + 1)) ;;;
                       ret (Next true)
                     else ret (Next HasSwapped)) ;;
           match r with
           | Next HasSwapped =>
               if negb HasSwapped then ret (Done tt) else ret (Next tt)
           | Done e => match e with end
           end) (front ++ back)
      = (Return r, a') /\ StronglySorted R a' /\ a' ≡ₚ front ++ back.
Proof.
  pose proof (precedes_transitive cmp cmp_order) as Htrans.
  induction n as [|n IH]; intros front back Size Hfront -> Hsize Hback Hcross.
  - exists (Next tt), (front ++ back). split; [done|]. split; [|done].
    destruct front as [|x [|? ?]]; simplify_eq/=.
    constructor; [done|]. apply Forall_forall. intros y Hy.
    apply Hcross; [left|done].
  - destruct front as [|x l]; [done|]. cbn [length] in Hfront, Hsize.
    pose proof (bubble_loop l [] x back false) as Hpass.
    cbn [app length] in Hpass. change (Z.of_nat 0) with 0 in Hpass.
    specialize (Hpass ltac:(rewrite length_app; lia)).
    cbn [orb] in Hpass.
    cbn [for_loop length]. change ((x :: l) ++ back) with (x :: l ++ back).
    assert (Hcount : Z.to_nat (size_t (Z.of_nat (S (length l) + length back)
                                       - Z.of_nat (length back) - 1) - 0)
                     = length l) by (rewrite size_t_small; lia).
    destruct (swaps x l) eqn:Hswaps.
    + destruct (bubble_last l x) as (front' & mx & Hb & Hmx).
      pose proof (bubble_Permutation l x) as Hperm. rewrite Hb in Hperm.
      pose proof (Permutation_length Hperm) as Hl.
      rewrite length_app in Hl. simpl in Hl.
      destruct (IH front' (mx :: back)
                  (Z.of_nat (S (length l) + length back)))
        as (r & a' & Hrun & Hsorted & Hp).
      * lia.
      * simpl. lia.
      * lia.
      * constructor; [done|]. apply Forall_forall. intros y Hy.
        apply Hcross; [|done]. rewrite <- Hperm.
        apply elem_of_app. right. left.
      * intros z y Hz Hy.
        assert (Hz' : z ∈ x :: l).
        { rewrite <- Hperm. apply elem_of_app. by left. }
        apply elem_of_cons in Hy as [->|Hy]; [by apply Hmx|].
        by apply Hcross.
      * exists r, a'. split; [|split; [done|]].
        -- eapply bind_eq.
           { unfold for_range at 1. rewrite Hcount.
             rewrite (bind_Return _ _ _ _ _ Hpass). cbn [negb]. reflexivity. }
           replace (size_t (Z.of_nat (length back) + 1))
             with (Z.of_nat (length (mx :: back)))
             by (rewrite size_t_small; simpl; lia).
           rewrite Hb, <- app_assoc. exact Hrun.
        -- rewrite Hp. change (x :: l ++ back) with ((x :: l) ++ back).
           rewrite <- Hperm, <- app_assoc. done.
    + destruct (swaps_false l x Hswaps) as [Hb Hsorted].
      exists (Done tt), (x :: l ++ back). split; [|split; [|done]].
      * eapply bind_eq.
        { unfold for_range at 1. rewrite Hcount.
          rewrite (bind_Return _ _ _ _ _ Hpass). cbn [negb]. reflexivity. }
        by rewrite Hb.
      * change (x :: l ++ back) with ((x :: l) ++ back).
        apply StronglySorted_app_2; [done| |done].
        by apply Sorted_StronglySorted.
Qed.

(** [BubbleSort] on an array: the result is sorted and a permutation. *)
Lemma BubbleSort_array a :
  1 <= Z.of_nat (length a) < 2 ^ 63 ->
  exists a',
    Sorting.BubbleSort (Z.of_nat (length a)) cmp a = (Return tt, a') /\
    Sorted R a' /\ a' ≡ₚ a.
Proof.
  intros Hlen. unfold Sorting.BubbleSort, for_range.
  rewrite size_t_small by lia.
  destruct (BubbleSort_loop (Z.to_nat (Z.of_nat (length a) - 1 - 0)) a []
              (Z.of_nat (length a)))
    as (r & a' & Hrun & Hsorted & Hp).
  - lia.
  - simpl. lia.
  - lia.
  - constructor.
  - intros z y _ Hy. by apply elem_of_nil in Hy.
  - rewrite app_nil_r in Hrun, Hp. simpl in Hrun.
    rewrite (bind_Return _ _ _ _ _ Hrun).
    exists a'. split; [done|]. split; [|done].
    by apply StronglySorted_Sorted.
Qed.

End Ordered.
End ArrayBubbleSort.

Section ArrayPartition.
Context {T : Type} (cmp : T -> T -> bool).
Implicit Types (a l pre small large rest seg post : list T).

Lemma array_load_middle l1 x l2 (r : nat) :
  r = length l1 -> array_load r (l1 ++ x :: l2) = (Return x, l1 ++ x :: l2).
Proof.
  intros ->. unfold array_load. by rewrite list_lookup_middle.
Qed.

Lemma array_at_middle l1 x l2 i :
  i = Z.of_nat (length l1) ->
  Sorting.at_index i (l1 ++ x :: l2) = (Return x, l1 ++ x :: l2).
Proof.
  intros ->. apply array_at_index; [lia|].
  rewrite Nat2Z.id. by apply list_lookup_middle.
Qed.

(** The loop of [Partition]: the values not above the pivot are
    gathered in front of those above it. *)
Lemma Partition_loop rest :
  forall pre small large p post (Pivot : nat),
    Pivot = (length pre + length small + length large + length rest)%nat ->
    Z.of_nat (length pre + length small + length large + length rest + 1)
    < 2 ^ 63 ->
    Forall (fun z => cmp z p = false) small ->
    Forall (fun z => cmp z p = true) large ->
    exists small' large',
      for_loop (S := list T) (R := Empty_set) (length rest)
        (Z.of_nat (length pre + length small + length large))
        (Z.of_nat (length pre + length small))
        (fun Index PivotIndex =>
           x <- Sorting.at_index (C := list T) Index ;;
           p <- load (C := list T) Pivot ;;
           if negb (cmp x p) then
             Sorting.swap_index PivotIndex Index ;;;
             ret (Next (size_t (PivotIndex + 1)))
           else ret (Next PivotIndex))
        (pre ++ small ++ large ++ rest ++ p :: post)
      = (Return (Next (Z.of_nat (length pre + length small'))),
         pre ++ small' ++ large' ++ p :: post) /\
      small' ++ large' ≡ₚ small ++ large ++ rest /\
      Forall (fun z => cmp z p = false) small' /\
      Forall (fun z => cmp z p = true) large'.
Proof.
  induction rest as [|x rest IH];
    intros pre small large p post Pivot HPivot Hlen Hsmall Hlarge.
  - exists small, large. rewrite app_nil_r. done.
  - cbn [length] in Hlen, HPivot.
    assert (Hx : Sorting.at_index
                   (Z.of_nat (length pre + length small + length large))
                   (pre ++ small ++ large ++ (x :: rest) ++ p :: post)
                 = (Return x,
                    pre ++ small ++ large ++ (x :: rest) ++ p :: post)).
    { rewrite !app_assoc. rewrite <- (app_assoc _ (x :: rest)).
      apply array_at_middle. by rewrite !length_app. }
    assert (Hp : load (C := list T) Pivot
                   (pre ++ small ++ large ++ (x :: rest) ++ p :: post)
                 = (Return p,
                    pre ++ small ++ large ++ (x :: rest) ++ p :: post)).
    { rewrite !app_assoc. apply array_load_middle.
      rewrite !length_app. cbn [length]. lia. }
    destruct (cmp x p) eqn:Hxp.
    + (* above the pivot: it stays where it is *)
      destruct (IH pre small (large ++ [x]) p post Pivot)
        as (small' & large' & Hrun & Hperm & Hs & Hl).
      * rewrite length_app. simpl. lia.
      * rewrite length_app. simpl. lia.
      * done.
      * apply Forall_app. split; [done|]. by constructor.
      * exists small', large'. split; [|split; [|done]].
        -- cbn [for_loop length]. eapply bind_eq.
           { rewrite (bind_Return _ _ _ _ _ Hx), (bind_Return _ _ _ _ _ Hp).
             rewrite Hxp. reflexivity. }
           rewrite size_t_small by lia.
           rewrite <- Hrun. rewrite <- !app_assoc. cbn [app].
           rewrite !length_app. cbn [length].
           do 2 f_equal. lia.
        -- rewrite Hperm. by rewrite <- !app_assoc.
    + (* not above the pivot: it goes to [PivotIndex] *)
      destruct large as [|y large].
      * destruct (IH pre (small ++ [x]) [] p post Pivot)
          as (small' & large' & Hrun & Hperm & Hs & Hl).
        -- rewrite length_app. simpl in *. lia.
        -- rewrite length_app. simpl in *. lia.
        -- apply Forall_app. split; [done|]. by constructor.
        -- done.
        -- exists small', large'. split; [|split; [|done]].
           ++ cbn [for_loop length]. eapply bind_eq.
              { rewrite (bind_Return _ _ _ _ _ Hx), (bind_Return _ _ _ _ _ Hp).
                rewrite Hxp. cbn [negb].
                cbn [length]. rewrite !Nat.add_0_r.
                assert (Hswap :
                  Sorting.swap_index
                    (Z.of_nat (length pre + length small))
                    (Z.of_nat (length pre + length small))
                    (pre ++ small ++ [] ++ (x :: rest) ++ p :: post)
                  = (Return tt,
                     pre ++ small ++ [] ++ (x :: rest) ++ p :: post)).
                { apply (array_swap_same _ _ x); [lia|].
                  rewrite Nat2Z.id. cbn [app]. rewrite app_assoc.
                  apply list_lookup_middle. by rewrite length_app. }
                rewrite (bind_Return _ _ _ _ _ Hswap). reflexivity. }
              cbn [length] in *. rewrite !Nat.add_0_r.
              rewrite !size_t_small by lia.
              rewrite <- Hrun. rewrite <- !app_assoc. cbn [app].
              rewrite !length_app. cbn [length]. rewrite !Nat.add_0_r.
              do 2 f_equal; f_equal; lia.
           ++ rewrite Hperm. by rewrite <- !app_assoc.
      * destruct (IH pre (small ++ [x]) (large ++ [y]) p post Pivot)
          as (small' & large' & Hrun & Hperm & Hs & Hl).
        -- rewrite !length_app. simpl in *. lia.
        -- rewrite !length_app. simpl in *. lia.
        -- apply Forall_app. split; [done|]. by constructor.
        -- apply Forall_cons in Hlarge as [Hy Hlarge].
           apply Forall_app. split; [done|]. by constructor.
        -- exists small', large'. split; [|split; [|done]].
           ++ cbn [for_loop length]. eapply bind_eq.
              { rewrite (bind_Return _ _ _ _ _ Hx), (bind_Return _ _ _ _ _ Hp).
                rewrite Hxp. cbn [negb].
                assert (Hswap :
                  Sorting.swap_index
                    (Z.of_nat (length pre + length small))
                    (Z.of_nat (length pre + length small
                               + length (y :: large)))
                    (pre ++ small ++ (y :: large) ++ (x :: rest) ++ p :: post)
                  = (Return tt,
                     (pre ++ small) ++ x :: large ++ y :: rest ++ p :: post)).
                { rewrite (app_assoc pre small). cbn [app].
                  apply array_swap_app.
                  - by rewrite length_app.
                  - rewrite length_app. cbn [length]. lia. }
                rewrite (bind_Return _ _ _ _ _ Hswap). reflexivity. }
              cbn [length] in *.
              rewrite !size_t_small by lia.
              rewrite <- Hrun. rewrite <- !app_assoc. cbn [app].
              rewrite !length_app. cbn [length].
              do 2 f_equal; f_equal; lia.
           ++ rewrite Hperm. rewrite <- !app_assoc. cbn [app].
              apply Permutation_app_head.
              rewrite <- !Permutation_middle. apply perm_swap.
Qed.

(** [Partition] on the segment [seg ++ [p]] of an array, with the last
    value as the pivot. *)
Lemma Partition_array pre seg p post Low High :
  Low = Z.of_nat (length pre) -> High = Low + Z.of_nat (length seg) ->
  Z.of_nat (length pre + length seg + 1) < 2 ^ 63 ->
  exists small large,
    Sorting.Partition (C := list T) Low High (Z.to_nat High) cmp
      (pre ++ seg ++ p :: post)
    = (Return (Low + Z.of_nat (length small)),
       pre ++ small ++ p :: large ++ post) /\
    small ++ large ≡ₚ seg /\
    Forall (fun z => cmp z p = false) small /\
    Forall (fun z => cmp z p = true) large.
Proof.
  intros -> -> Hlen.
  destruct (Partition_loop seg pre [] [] p post
              (Z.to_nat (Z.of_nat (length pre) + Z.of_nat (length seg))))
    as (small & large & Hrun & Hperm & Hs & Hl).
  - simpl. lia.
  - simpl. lia.
  - constructor.
  - constructor.
  - cbn [app length] in Hrun. rewrite !Nat.add_0_r in Hrun.
    unfold Sorting.Partition, for_range.
    replace (Z.to_nat (Z.of_nat (length pre) + Z.of_nat (length seg)
                       - Z.of_nat (length pre)))
      with (length seg) by lia.
    rewrite (bind_Return _ _ _ _ _ Hrun).
    pose proof (Permutation_length Hperm) as Hlength.
    rewrite length_app in Hlength. cbn [app length] in Hlength.
    destruct large as [|y large].
    + exists small, []. cbn [app].
      split; [|split; [by rewrite app_nil_r in *|done]].
      assert (Hswap :
        Sorting.swap_index (Z.of_nat (length pre + length small))
          (Z.of_nat (length pre) + Z.of_nat (length seg))
          (pre ++ small ++ p :: post)
        = (Return tt, pre ++ small ++ p :: post)).
      { cbn [length] in Hlength.
        replace (Z.of_nat (length pre) + Z.of_nat (length seg))
          with (Z.of_nat (length pre + length small)) by lia.
        apply (array_swap_same _ _ p); [lia|].
        rewrite Nat2Z.id, app_assoc.
        apply list_lookup_middle. by rewrite length_app. }
      rewrite (bind_Return _ _ _ _ _ Hswap).
      unfold ret. do 2 f_equal. lia.
    + exists small, (large ++ [y]).
      split; [|split; [|split; [done|]]].
      * assert (Hswap :
          Sorting.swap_index (Z.of_nat (length pre + length small))
            (Z.of_nat (length pre) + Z.of_nat (length seg))
            (pre ++ small ++ (y :: large) ++ p :: post)
          = (Return tt, (pre ++ small) ++ p :: large ++ y :: post)).
        { rewrite (app_assoc pre small). cbn [app].
          apply array_swap_app.
          - by rewrite length_app.
          - rewrite length_app. cbn [length] in *. lia. }
        rewrite (bind_Return _ _ _ _ _ Hswap).
        unfold ret. rewrite <- !app_assoc. cbn [app].
        do 2 f_equal. lia.
      * rewrite <- Hperm. apply Permutation_app_head.
        symmetry. apply Permutation_cons_append.
      * apply Forall_cons in Hl as [Hy Hl].
        apply Forall_app. split; [done|]. by constructor.
Qed.

End ArrayPartition.

Section ArrayQuickSort.
Context {T : Type} `{!Greater T}.
Hypothesis greater_order : strict_total_order (Sorting.GreaterThan (T := T)).
Implicit Types (a l pre small large seg post : list T).
Local Abbreviation R := (precedes (Sorting.GreaterThan (T := T))).

Lemma array_subscript_in_range a i :
  0 <= i < Z.of_nat (length a) ->
  subscript (C := list T) i a = (Return (Z.to_nat i), a).
Proof.
  intros Hi. cbn [subscript array_Indexable]. unfold array_subscript.
  by rewrite decide_True by lia.
Qed.

(** The recursion sorts its segment by [GreaterThan], whatever its
    [Comparer] is, and leaves the rest of the array alone. *)
Lemma RecursiveQuickSort_array fuel :
  forall pre seg post Low High (Comparer : T -> T -> bool),
    Low = Z.of_nat (length pre) ->
    High = Low + Z.of_nat (length seg) - 1 -> 0 <= High ->
    (1 <= fuel)%nat -> (length seg <= fuel)%nat ->
    Z.of_nat (length (pre ++ seg ++ post)) < 2 ^ 63 ->
    exists seg',
      Sorting.RecursiveQuickSort fuel Low High Comparer (pre ++ seg ++ post)
      = (Return tt, pre ++ seg' ++ post) /\
      StronglySorted R seg' /\ seg' ≡ₚ seg.
Proof.
  pose proof (precedes_transitive _ greater_order) as Htrans.
  induction fuel as [|fuel IH];
    intros pre seg post Low High Comparer -> -> HHigh Hfuel Hseg Hlen; [lia|].
  rewrite !length_app in Hlen.
  cbn [Sorting.RecursiveQuickSort].
  destruct (decide (Z.of_nat (length pre)
                    >= Z.of_nat (length pre) + Z.of_nat (length seg) - 1))
    as [Hone|Hmore].
  - exists seg. split; [done|]. split; [|done].
    destruct seg as [|x [|y seg]]; simpl in *; try lia; repeat constructor.
  - destruct seg as [|p seg _] using rev_ind; [simpl in *; lia|].
    rewrite length_app in *. cbn [length] in *.
    replace (Z.of_nat (length pre) + Z.of_nat (length seg + 1) - 1)
      with (Z.of_nat (length pre) + Z.of_nat (length seg)) by lia.
    rewrite <- (app_assoc seg). cbn [app].
    rewrite (bind_Return _ _ _ _ _
               (array_subscript_in_range (pre ++ seg ++ p :: post)
                  (Z.of_nat (length pre) + Z.of_nat (length seg))
                  ltac:(rewrite !length_app; cbn [length]; lia))).
    destruct (Partition_array Sorting.GreaterThan pre seg p post
                (Z.of_nat (length pre))
                (Z.of_nat (length pre) + Z.of_nat (length seg))
                eq_refl eq_refl ltac:(lia))
      as (small & large & Hpart & Hperm & Hsmall & Hlarge).
    rewrite (bind_Return _ _ _ _ _ Hpart).
    pose proof (Permutation_length Hperm) as Hlength.
    rewrite length_app in Hlength.
    (* the values before the pivot *)
    assert (exists small',
      (if decide (Z.of_nat (length pre) + Z.of_nat (length small) > 0)
       then Sorting.RecursiveQuickSort fuel (Z.of_nat (length pre))
              (size_t (Z.of_nat (length pre) + Z.of_nat (length small) - 1))
              Comparer
       else ret tt) (pre ++ small ++ p :: large ++ post)
      = (Return tt, pre ++ small' ++ p :: large ++ post) /\
      StronglySorted R small' /\ small' ≡ₚ small)
      as (small' & Hleft & Hsl & Hpl).
    { case_decide as Hpos.
      - rewrite size_t_small by lia.
        apply (IH pre small (p :: large ++ post)); [done|lia|lia|lia|lia|].
        rewrite !length_app. cbn [length]. rewrite length_app. lia.
      - exists small. split; [done|]. split; [|done].
        destruct small; [constructor|simpl in *; lia]. }
    rewrite (bind_Return _ _ _ _ _ Hleft).
    pose proof (Permutation_length Hpl) as Hlength'.
    (* the values after the pivot *)
    rewrite size_t_small by lia.
    destruct (IH (pre ++ small' ++ [p]) large post
                (Z.of_nat (length pre) + Z.of_nat (length small) + 1)
                (Z.of_nat (length pre) + Z.of_nat (length seg)) Comparer)
      as (large' & Hright & Hsr & Hpr).
    + rewrite !length_app. cbn [length]. lia.
    + lia.
    + lia.
    + lia.
    + lia.
    + rewrite !length_app. cbn [length]. lia.
    + rewrite <- !app_assoc in Hright. cbn [app] in Hright.
      rewrite Hright.
      exists (small' ++ p :: large'). split; [|split].
      * by rewrite <- !app_assoc.
      * assert (Hp : Forall (R p) large').
        { apply Forall_forall. intros z Hz. rewrite Hpr in Hz.
          rewrite Forall_forall in Hlarge.
          apply (cmp_asymmetric _ greater_order). by apply Hlarge. }
        apply StronglySorted_app_2; [|done|by constructor].
        intros x1 x2 H1 H2. rewrite Hpl in H1.
        rewrite Forall_forall in Hsmall.
        assert (H1p : R x1 p) by (by apply Hsmall).
        apply elem_of_cons in H2 as [->|H2]; [done|].
        etrans; [exact H1p|]. rewrite Forall_forall in Hp. by apply Hp.
      * rewrite Hpl, Hpr. rewrite <- Hperm.
        rewrite <- !app_assoc. apply Permutation_app_head.
        apply Permutation_cons_append.
Qed.

(** [QuickSort] on an array: the result is sorted by [GreaterThan] and a
    permutation, whatever [Comparer] is. *)
Lemma QuickSort_array a (Comparer : T -> T -> bool) :
  1 <= Z.of_nat (length a) < 2 ^ 63 ->
  exists a',
    Sorting.QuickSort (Z.of_nat (length a)) Comparer a = (Return tt, a') /\
    Sorted R a' /\ a' ≡ₚ a.
Proof.
  intros Hlen. unfold Sorting.QuickSort, Sorting.depth.
  rewrite size_t_small by lia.
  destruct (RecursiveQuickSort_array (S (Z.to_nat (Z.of_nat (length a) - 1)))
              [] a [] 0 (Z.of_nat (length a) - 1) Comparer eq_refl)
    as (a' & Hrun & Hs & Hp).
  - lia.
  - lia.
  - lia.
  - lia.
  - rewrite !length_app. simpl. lia.
  - simpl in Hrun. rewrite !app_nil_r in Hrun.
    exists a'. split; [done|]. split; [|done].
    by apply StronglySorted_Sorted.
Qed.

End ArrayQuickSort.

(** ** The three sorts on arrays agree *)

Lemma strict_total_order_ext {T} (cmp cmp' : T -> T -> bool) :
  (forall x y, cmp x y = cmp' x y) ->
  strict_total_order cmp' -> strict_total_order cmp.
Proof.
  intros Hext [Hirr Htrans Hconn]. split.
  - intros x. rewrite Hext. apply Hirr.
  - intros x y z. rewrite !Hext. apply Htrans.
  - intros x y. rewrite !Hext. apply Hconn.
Qed.

Lemma Sorted_precedes_ext {T} (cmp cmp' : T -> T -> bool) (l : list T) :
  (forall x y, cmp x y = cmp' x y) ->
  Sorted (precedes cmp) l -> Sorted (precedes cmp') l.
Proof.
  intros Hext Hsorted. induction Hsorted as [|x l _ IH Hhd]; constructor.
  - exact IH.
  - destruct Hhd as [|y l Hxy]; constructor.
    unfold precedes in *. by rewrite <- Hext.
Qed.

Lemma Z_gtb_order : strict_total_order Z.gtb.
Proof.
  split.
  - intros x. lia.
  - intros x y z. lia.
  - intros x y. lia.
Qed.

(** C2, for arrays and a comparer that is a strict total order:
    [BubbleSort] and [MergeSort] with the comparer, and [QuickSort] when
    the comparer is the default one, finish with the same array; [IsSorted]
    with the same size and comparer is true of it, and it is a permutation
    of the input.  The size is at least 1 and less than 2^63. *)
Theorem sorts_of_arrays_agree {T : Type} `{!Greater T}
    (Comparer : T -> T -> bool) (Size : Z) (a : list T) :
  strict_total_order Comparer ->
  Size = Z.of_nat (length a) -> 1 <= Size < 2 ^ 63 ->
  exists a',
    Sorting.BubbleSort Size Comparer a = (Return tt, a') /\
    Sorting.MergeSort Size Comparer a = (Return tt, a') /\
    ((forall x y, Comparer x y = Sorting.GreaterThan x y) ->
     Sorting.QuickSort Size Comparer a = (Return tt, a')) /\
    Sorting.IsSorted Size Comparer a' = (Return true, a') /\
    a' ≡ₚ a.
Proof.
  intros Horder -> Hsize.
  pose proof (precedes_transitive _ Horder) as Htrans.
  pose proof (precedes_antisymmetric _ Horder) as Hanti.
  destruct (BubbleSort_array Comparer Horder a Hsize)
    as (a' & Hbubble & Hsorted & Hperm).
  destruct (MergeSort_array Comparer Horder a Hsize)
    as (a1 & Hmerge & Hsorted1 & Hperm1).
  assert (a1 = a') as ->.
  { apply (Sorted_unique (precedes Comparer)); [done|done|].
    by rewrite Hperm1, Hperm. }
  exists a'. split; [done|]. split; [done|]. split; [|split; [|done]].
  - intros Hdefault.
    assert (Hdefault' : forall x y : T,
              Sorting.GreaterThan x y = Comparer x y) by done.
    destruct (QuickSort_array
                (strict_total_order_ext _ _ Hdefault' Horder) a Comparer Hsize)
      as (a2 & Hquick & Hsorted2 & Hperm2).
    rewrite Hquick. do 2 f_equal.
    apply (Sorted_unique (precedes Comparer)); [|done|].
    + by apply (Sorted_precedes_ext Sorting.GreaterThan).
    + by rewrite Hperm2, Hperm.
  - pose proof (Permutation_length Hperm) as Hlength.
    rewrite <- Hlength. rewrite IsSorted_array by lia.
    do 2 f_equal. by apply sortedb_Sorted.
Qed.

(** C2, an instance: the array [3,1,2] of integers and [>], which is
    the default comparer of the integers. *)
Lemma sorts_of_arrays_agree_witness :
  exists a',
    Sorting.BubbleSort 3 Z.gtb [3; 1; 2] = (Return tt, a') /\
    Sorting.MergeSort 3 Z.gtb [3; 1; 2] = (Return tt, a') /\
    Sorting.QuickSort 3 Z.gtb [3; 1; 2] = (Return tt, a') /\
    Sorting.IsSorted 3 Z.gtb a' = (Return true, a') /\
    a' ≡ₚ [3; 1; 2].
Proof.
  destruct (sorts_of_arrays_agree Z.gtb 3 [3; 1; 2])
    as (a' & Hbubble & Hmerge & Hquick & Hsorted & Hperm).
  - exact Z_gtb_order.
  - reflexivity.
  - lia.
  - exists a'. split; [exact Hbubble|]. split; [exact Hmerge|].
    split; [apply Hquick; reflexivity|]. split; [exact Hsorted|exact Hperm].
Defined.

(** ** Walks over the elements, step by step *)

Lemma triple_never {St A} (P : St -> Prop) (m : M St A) Q (s : St) :
  triple P m Q never -> P s -> exists a s', m s = (Return a, s') /\ Q a s'.
Proof.
  intros Hm Hs. specialize (Hm s Hs).
  destruct (m s) as [[a|f] s']; [eauto|done].
Qed.

Section Iteration.
Context {T : Type} `{!Greater T} `{!Equal T}.
Local Abbreviation cell := (cell T).
Implicit Types (s : State T) (cells : list cell).

Lemma holds_size s l : holds s l -> size s = Z.of_nat (length l).
Proof.
  intros (cells & Hrep & <-). rewrite length_fmap.
  by destruct Hrep as (_ & _ & _ & -> & _).
Qed.

Lemma begin_at s cells :
  represents s cells ->
  exists it, begin s = (Return it, s) /\ iterator_at cells 0 it.
Proof.
  intros Hrep. pose proof Hrep as (_ & _ & Hcells & _ & Hhead & _).
  unfold begin, bind, get_state. rewrite Hhead. unfold address.
  destruct (cells !! 0%nat) as [c|] eqn:Hc; simpl.
  - rewrite (read_node_at s cells Hrep _ _ Hc). eexists. split; [done|].
    split; simpl; [by rewrite Hc|done].
  - exists NIL. split; [done|]. split; simpl; [by rewrite Hc|].
    unfold address. apply lookup_ge_None_1 in Hc.
    by rewrite lookup_ge_None_2 by lia.
Qed.

Lemma pre_increment_at s cells0 cells i it :
  represents s cells -> same_shape cells0 cells -> iterator_at cells0 i it ->
  exists it', pre_increment it s = (Return it', s) /\
              iterator_at cells0 (S i) it'.
Proof.
  intros Hrep Hshape [Hd Hn]. unfold pre_increment. rewrite Hn.
  rewrite <- (same_shape_address cells0 cells (S i) Hshape).
  unfold address. destruct (cells !! S i) as [c|] eqn:Hc; simpl.
  - rewrite (read_node_at s cells Hrep _ _ Hc). eexists. split; [done|].
    split; simpl.
    + by rewrite <- (same_shape_data cells0 cells), Hc.
    + by rewrite (same_shape_address cells0 cells).
  - exists NIL. split; [done|].
    apply lookup_ge_None_1 in Hc.
    rewrite (same_shape_length cells0 cells Hshape) in Hc.
    split; simpl; unfold address; by rewrite lookup_ge_None_2 by lia.
Qed.

(** The rule of the range-based [for] over a list whose nodes stay as
    they are: the body is run on the element objects in their order. *)
Lemma range_for_cells {A R} cells0 (Inv : nat -> A -> State T -> Prop)
    (Post : flow A R -> State T -> Prop) E
    (body : loc -> A -> M (State T) (flow A R)) :
  (forall i a s, Inv i a s -> Shaped cells0 s) ->
  (forall i c0 a, cells0 !! i = Some c0 ->
     triple (Inv i a) (body (c_data c0) a)
       (fun r s => match r with
                   | Next a' => Inv (S i) a' s
                   | Done x => Post (Done x) s
                   end) E) ->
  (forall a s, Inv (length cells0) a s -> Post (Next a) s) ->
  forall fuel i it a,
    iterator_at cells0 i it -> (length cells0 - i <= fuel)%nat ->
    (i <= length cells0)%nat ->
    triple (Inv i a) (range_for pre_increment fuel it a body) Post E.
Proof.
  intros HInv Hbody Hend fuel.
  induction fuel as [|fuel IH]; intros i it a Hit Hfuel Hi s Hs;
    pose proof Hit as [Hd Hn].
  - assert (i = length cells0) as -> by lia.
    simpl. rewrite Hd, lookup_ge_None_2 by lia. simpl. by apply Hend.
  - simpl. rewrite Hd.
    destruct (cells0 !! i) as [c0|] eqn:Hc0; simpl.
    + pose proof (lookup_lt_Some _ _ _ Hc0) as Hlt.
      unfold bind at 1. specialize (Hbody i c0 a Hc0 s Hs).
      destruct (body (c_data c0) a s) as [[[a'|x]|f] s1]; [|done|done].
      destruct (HInv _ _ _ Hbody) as (cells & Hrep & Hshape).
      destruct (pre_increment_at s1 cells0 cells i it Hrep Hshape Hit)
        as (it' & Hincr & Hit').
      rewrite (bind_Return _ _ _ _ _ Hincr).
      apply (IH (S i) it' a' Hit'); [lia|lia|done].
    + apply lookup_ge_None_1 in Hc0.
      assert (i = length cells0) as -> by lia. by apply Hend.
Qed.

Lemma for_each_cells {A R} cells0 (Inv : nat -> A -> State T -> Prop)
    (Post : flow A R -> State T -> Prop) E
    (body : loc -> A -> M (State T) (flow A R)) a :
  (forall i a s, Inv i a s -> Shaped cells0 s) ->
  (forall i c0 a, cells0 !! i = Some c0 ->
     triple (Inv i a) (body (c_data c0) a)
       (fun r s => match r with
                   | Next a' => Inv (S i) a' s
                   | Done x => Post (Done x) s
                   end) E) ->
  (forall a s, Inv (length cells0) a s -> Post (Next a) s) ->
  triple (Inv 0%nat a) (for_each a body) Post E.
Proof.
  intros HInv Hbody Hend s Hs.
  destruct (HInv _ _ _ Hs) as (cells & Hrep & Hshape).
  destruct (begin_at s cells Hrep) as (it & Hbegin & [Hd Hn]).
  unfold for_each. rewrite (bind_Return _ _ _ _ _ Hbegin).
  change (bind get_state ?k s) with (k s s). cbv beta.
  apply (range_for_cells cells0 Inv Post E body HInv Hbody Hend
           (walk_fuel s) 0 it a); [| | lia | done].
  - split.
    + by rewrite Hd, (same_shape_data cells0 cells).
    + by rewrite Hn, (same_shape_address cells0 cells).
  - unfold walk_fuel. pose proof (represents_length_le s cells Hrep).
    rewrite <- (same_shape_length cells0 cells Hshape). lia.
Qed.

End Iteration.

(** ** What the getters return *)

Section Observers.
Context {T : Type} `{!Greater T} `{!Equal T}.
Local Abbreviation cell := (cell T).
Implicit Types (s : State T) (cells : list cell) (l : list T).

Lemma lookup_values cells i c :
  cells !! i = Some c -> (c_value <$> cells) !! i = Some (c_value c).
Proof. intros Hc. by rewrite list_lookup_fmap, Hc. Qed.

Lemma contents_represents s cells :
  represents s cells -> contents s = (Return (c_value <$> cells), s).
Proof.
  intros Hrep.
  unshelve epose proof (for_each_cells (R := Empty_set) cells
    (fun i acc s' => s' = s /\ acc = c_value <$> take i cells)
    (fun r s' => s' = s /\ r = Next (c_value <$> cells)) never
    (fun Element acc => e <- read_element Element ;; ret (Next (acc ++ [e])))
    [] _ _ _) as Hloop; cbv beta.
  4: destruct (triple_never _ _ _ s Hloop (conj eq_refl eq_refl))
       as (r & s' & Hrun & -> & ->).
  - intros i a s' [-> _]. by apply Shaped_refl.
  - intros i c0 a Hc0 s' [-> ->].
    unfold bind. rewrite (read_element_spec s cells i c0 Hrep Hc0).
    split; [done|]. rewrite (take_S_r cells i c0 Hc0). by rewrite fmap_app.
  - intros a s' [-> ->]. by rewrite firstn_all.
  - unfold contents. by rewrite (bind_Return _ _ _ _ _ Hrun).
Qed.

Lemma Size_represents s cells :
  represents s cells -> Size s = (Return (Z.of_nat (length cells)), s).
Proof.
  intros (_ & _ & _ & Hsize & _). unfold Size, bind, get_state, ret.
  by rewrite Hsize.
Qed.

Lemma Get_represents s cells Index :
  represents s cells -> 0 <= Index < size s -> size s < 2 ^ 64 ->
  exists c,
    cells !! Z.to_nat (Traverse_index (size s) Index) = Some c /\
    value_of (Get Index) s = (Return (c_value c), s).
Proof.
  intros Hrep HIndex Hsz.
  destruct (subscript_spec s cells Index Hrep HIndex Hsz) as (c & Hc & Hsub).
  exists c. split; [done|]. unfold value_of, Get.
  rewrite (bind_Return _ _ _ _ _ Hsub).
  by apply (read_element_spec s cells _ c Hrep Hc).
Qed.

Lemma Find_represents s cells Value :
  represents s cells -> size s < 2 ^ 63 ->
  exists r,
    Find Value s = (Return r, s) /\
    ((r = -1 /\ forall c, c ∈ cells -> equal Value (c_value c) = false) \/
     (0 <= r /\
      exists c, cells !! Z.to_nat r = Some c /\
                equal Value (c_value c) = true /\
                forall j c', (j < Z.to_nat r)%nat -> cells !! j = Some c' ->
                             equal Value (c_value c') = false)).
Proof.
  intros Hrep Hsz.
  pose proof Hrep as (_ & _ & _ & Hsize & _).
  unshelve epose proof (for_each_cells cells
    (fun i Index s' =>
       s' = s /\ Index = Z.of_nat i /\
       forall j c', (j < i)%nat -> cells !! j = Some c' ->
                    equal Value (c_value c') = false)
    (fun r s' =>
       s' = s /\
       match r with
       | Done Index =>
           0 <= Index /\
           exists c, cells !! Z.to_nat Index = Some c /\
                     equal Value (c_value c) = true /\
                     forall j c', (j < Z.to_nat Index)%nat ->
                                  cells !! j = Some c' ->
                                  equal Value (c_value c') = false
       | Next _ => forall c, c ∈ cells -> equal Value (c_value c) = false
       end) never
    (fun Element Index =>
       e <- read_element Element ;;
       if equal Value e then ret (Done Index)
       else Index' <- signed (Index + 1) ;; ret (Next Index'))
    0 _ _ _) as Hloop; cbv beta.
  4: destruct (triple_never _ _ _ s Hloop) as (r & s' & Hrun & -> & Hr).
  - intros i a s' [-> _]. by apply Shaped_refl.
  - intros i c0 a Hc0 s' (-> & -> & Hbefore).
    pose proof (lookup_lt_Some _ _ _ Hc0).
    unfold bind at 1. rewrite (read_element_spec s cells i c0 Hrep Hc0).
    destruct (equal Value (c_value c0)) eqn:Heq.
    + split; [done|]. split; [lia|]. exists c0. rewrite Nat2Z.id. done.
    + rewrite signed_in_range by lia. rewrite bind_ret_l.
      split; [done|]. split; [lia|]. intros j c' Hj Hc'.
      destruct (decide (j = i)) as [->|]; [by simplify_eq|].
      apply (Hbefore j c'); [lia|done].
  - intros a s' (-> & -> & Hbefore). split; [done|]. intros c Hc.
    apply list_elem_of_lookup in Hc as [j Hj].
    apply (Hbefore j c); [|done]. by apply lookup_lt_Some in Hj.
  - split; [done|]. split; [done|]. intros j c' Hj. lia.
  - unfold Find. rewrite (bind_Return _ _ _ _ _ Hrun).
    destruct r as [a|Index].
    + exists (-1). split; [done|]. by left.
    + exists Index. split; [done|]. by right.
Qed.

Lemma Total_represents s cells Value :
  represents s cells -> size s < 2 ^ 64 ->
  Total Value s
  = (Return (Z.of_nat (length (List.filter (equal Value) (c_value <$> cells)))),
     s).
Proof.
  intros Hrep Hsz.
  pose proof Hrep as (_ & _ & _ & Hsize & _).
  unshelve epose proof (for_each_cells (R := Empty_set) cells
    (fun i Total s' =>
       s' = s /\
       Total = Z.of_nat (length (List.filter (equal Value)
                                   (c_value <$> take i cells))))
    (fun r s' =>
       s' = s /\
       r = Next (Z.of_nat (length (List.filter (equal Value)
                                     (c_value <$> cells))))) never
    (fun Element Total =>
       e <- read_element Element ;;
       if equal Value e then ret (Next (size_t (Total + 1)))
       else ret (Next Total))
    0 _ _ _) as Hloop; cbv beta.
  4: destruct (triple_never _ _ _ s Hloop (conj eq_refl eq_refl))
       as (r & s' & Hrun & -> & ->).
  - intros i a s' [-> _]. by apply Shaped_refl.
  - intros i c0 a Hc0 s' (-> & ->).
    pose proof (lookup_lt_Some _ _ _ Hc0).
    unfold bind at 1. rewrite (read_element_spec s cells i c0 Hrep Hc0).
    rewrite (take_S_r cells i c0 Hc0), fmap_app, List.filter_app.
    rewrite length_app. cbn [fmap list_fmap List.filter].
    pose proof (List.filter_length_le (equal Value)
                  (c_value <$> take i cells)) as Hle.
    rewrite length_fmap, length_take in Hle.
    destruct (equal Value (c_value c0)).
    + split; [done|]. rewrite size_t_small by lia. simpl. f_equal. lia.
    + split; [done|]. simpl. f_equal. lia.
  - intros a s' [-> ->]. by rewrite firstn_all.
  - unfold Total. by rewrite (bind_Return _ _ _ _ _ Hrun).
Qed.

Lemma FindLast_loop_represents s cells Value :
  represents s cells -> Z.of_nat (length cells) < 2 ^ 63 ->
  forall j fuel,
    (j < length cells)%nat -> (j < fuel)%nat ->
    exists r,
      FindLast_loop fuel Value (Z.of_nat j) (address cells j) s
      = (Return r, s) /\
      ((r = -1 /\ forall i c, (i <= j)%nat -> cells !! i = Some c ->
                              equal Value (c_value c) = false) \/
       (0 <= r <= Z.of_nat j /\
        exists c, cells !! Z.to_nat r = Some c /\
                  equal Value (c_value c) = true /\
                  forall i c', (Z.to_nat r < i <= j)%nat ->
                               cells !! i = Some c' ->
                               equal Value (c_value c') = false)).
Proof.
  intros Hrep Hlen.
  induction j as [|j IH]; intros fuel Hj Hfuel;
    (destruct fuel as [|fuel]; [lia|]).
  - destruct (lookup_lt_is_Some_2 cells 0) as [c Hc]; [lia|].
    unfold address. rewrite Hc. cbn [fmap option_fmap option_map FindLast_loop].
    rewrite (bind_Return _ _ _ _ _ (element_of_spec s cells _ c Hrep Hc)).
    rewrite (bind_Return _ _ _ _ _ (read_element_spec s cells _ c Hrep Hc)).
    destruct (equal Value (c_value c)) eqn:Heq.
    + exists 0. split; [done|]. right. split; [lia|]. exists c.
      split; [done|]. split; [done|]. intros i c' Hi. simpl in Hi. lia.
    + rewrite signed_in_range by lia. rewrite bind_ret_l.
      rewrite (bind_Return _ _ _ _ _ (read_node_at s cells Hrep _ _ Hc)).
      cbn [previous node_at]. exists (-1). split; [by destruct fuel|].
      left. split; [done|]. intros i c' Hi Hc'.
      assert (i = 0%nat) as -> by lia. by simplify_eq.
  - destruct (lookup_lt_is_Some_2 cells (S j)) as [c Hc]; [lia|].
    unfold address at 1. rewrite Hc.
    cbn [fmap option_fmap option_map FindLast_loop].
    rewrite (bind_Return _ _ _ _ _ (element_of_spec s cells _ c Hrep Hc)).
    rewrite (bind_Return _ _ _ _ _ (read_element_spec s cells _ c Hrep Hc)).
    destruct (equal Value (c_value c)) eqn:Heq.
    + exists (Z.of_nat (S j)). split; [done|]. right. split; [lia|].
      exists c. rewrite Nat2Z.id. split; [done|]. split; [done|].
      intros i c' Hi. lia.
    + rewrite signed_in_range by lia. rewrite bind_ret_l.
      rewrite (bind_Return _ _ _ _ _ (read_node_at s cells Hrep _ _ Hc)).
      cbn [previous node_at].
      replace (Z.of_nat (S j) - 1) with (Z.of_nat j) by lia.
      destruct (IH fuel ltac:(lia) ltac:(lia)) as (r & Hrun & Hr).
      exists r. split; [done|].
      destruct Hr as [[-> Hnone]|(Hr & c1 & Hc1 & Heq1 & Hafter)].
      * left. split; [done|]. intros i c' Hi Hc'.
        destruct (decide (i = S j)) as [->|]; [by simplify_eq|].
        apply (Hnone i c'); [lia|done].
      * right. split; [lia|]. exists c1. split; [done|]. split; [done|].
        intros i c' Hi Hc'.
        destruct (decide (i = S j)) as [->|]; [by simplify_eq|].
        apply (Hafter i c'); [lia|done].
Qed.

Lemma FindLast_represents s cells Value :
  represents s cells -> size s < 2 ^ 63 ->
  exists r,
    FindLast Value s = (Return r, s) /\
    ((r = -1 /\ forall c, c ∈ cells -> equal Value (c_value c) = false) \/
     (0 <= r /\
      exists c, cells !! Z.to_nat r = Some c /\
                equal Value (c_value c) = true /\
                forall j c', (Z.to_nat r < j)%nat -> cells !! j = Some c' ->
                             equal Value (c_value c') = false)).
Proof.
  intros Hrep Hsz.
  pose proof Hrep as (_ & _ & _ & Hsize & _ & Htail).
  unfold FindLast. change (bind get_state ?k s) with (k s s). cbv beta.
  rewrite Htail.
  destruct (decide (length cells = 0)%nat) as [Hempty|Hne].
  - destruct cells; [|done]. exists (-1). split.
    + unfold address. simpl. by destruct (walk_fuel s).
    + left. split; [done|]. intros c Hc. by apply elem_of_nil in Hc.
  - rewrite size_t_small by lia. unfold ptrdiff_t.
    rewrite size_t_small by lia. rewrite decide_True by lia.
    replace (size s - 1) with (Z.of_nat (pred (length cells))) by lia.
    destruct (FindLast_loop_represents s cells Value Hrep ltac:(lia)
                (pred (length cells)) (walk_fuel s))
      as (r & Hrun & Hr); [lia| |].
    { unfold walk_fuel. pose proof (represents_length_le s cells Hrep). lia. }
    exists r. split; [done|].
    destruct Hr as [[-> Hnone]|(Hr & c1 & Hc1 & Heq1 & Hafter)].
    + left. split; [done|]. intros c Hc.
      apply list_elem_of_lookup in Hc as [j Hj].
      apply (Hnone j c); [|done]. apply lookup_lt_Some in Hj. lia.
    + right. split; [lia|]. exists c1. split; [done|]. split; [done|].
      intros j c' Hj Hc'. apply (Hafter j c'); [|done].
      apply lookup_lt_Some in Hc'. lia.
Qed.

Lemma Contains_represents s cells Value :
  represents s cells -> size s < 2 ^ 63 ->
  Contains Value s
  = (Return (existsb (equal Value) (c_value <$> cells)), s).
Proof.
  intros Hrep Hsz.
  destruct (Find_represents s cells Value Hrep Hsz) as (r & Hrun & Hr).
  unfold Contains. rewrite (bind_Return _ _ _ _ _ Hrun). unfold ret.
  do 2 f_equal.
  destruct Hr as [[-> Hnone]|(Hr & c & Hc & Heq & _)].
  - rewrite bool_decide_eq_true_2 by done. simpl. symmetry.
    apply not_true_is_false. intros Hex.
    apply List.existsb_exists in Hex as (v & Hv & Heq).
    apply list_elem_of_In, list_elem_of_fmap in Hv as (c & -> & Hc).
    by rewrite (Hnone c Hc) in Heq.
  - rewrite bool_decide_eq_false_2 by lia. simpl. symmetry.
    apply List.existsb_exists. exists (c_value c). split; [|done].
    apply list_elem_of_In, list_elem_of_fmap. exists c. split; [done|].
    by eapply list_elem_of_lookup_2.
Qed.

End Observers.

(** ** What the setters do *)

Section Setters.
Context {T : Type} `{!Greater T} `{!Equal T}.
Local Abbreviation cell := (cell T).
Implicit Types (s : State T) (cells : list cell) (l : list T).

Lemma values_store cells i c v :
  cells !! i = Some c ->
  c_value <$> <[i := set_value v c]> cells = <[i := v]> (c_value <$> cells).
Proof. intros Hc. by rewrite list_fmap_insert. Qed.

Lemma Set_represents s cells Index v :
  represents s cells -> 0 <= Index < size s -> size s < 2 ^ 64 ->
  exists c s',
    cells !! Z.to_nat (Traverse_index (size s) Index) = Some c /\
    Set_ Index v s = (Return tt, s') /\
    represents s' (<[Z.to_nat (Traverse_index (size s) Index)
                     := set_value v c]> cells) /\
    size s' = size s.
Proof.
  intros Hrep HIndex Hsz.
  destruct (subscript_spec s cells Index Hrep HIndex Hsz) as (c & Hc & Hsub).
  exists c. eexists. split; [done|]. split; [|split].
  - unfold Set_. rewrite (bind_Return _ _ _ _ _ Hsub).
    apply (write_element_spec s cells _ c v Hrep Hc).
  - by apply represents_store.
  - done.
Qed.

Lemma Fill_represents s cells v :
  represents s cells ->
  exists s', Fill v s = (Return tt, s') /\
             represents s' (set_value v <$> cells).
Proof.
  intros Hrep.
  unshelve epose proof (for_each_cells (R := Empty_set) cells
    (fun i (_ : unit) s' =>
       represents s' ((set_value v <$> take i cells) ++ drop i cells))
    (fun _ s' => represents s' (set_value v <$> cells)) never
    (fun Element _ => write_element Element v ;;; ret (Next tt))
    tt _ _ _) as Hloop; cbv beta.
  4: destruct (triple_never _ _ _ s Hloop) as (r & s' & Hrun & Hrep').
  - intros i a s' Hrep'. eexists. split; [exact Hrep'|].
    split; rewrite fmap_app, <- list_fmap_compose;
      rewrite <- fmap_app, take_drop; done.
  - intros i c0 a Hc0 s' Hrep'.
    pose proof (lookup_lt_Some _ _ _ Hc0) as Hlt.
    assert (Hi : ((set_value v <$> take i cells) ++ drop i cells) !! i
                 = Some c0).
    { rewrite lookup_app_r by (rewrite length_fmap, length_take; lia).
      rewrite length_fmap, length_take, lookup_drop.
      rewrite <- Hc0. f_equal. lia. }
    unfold bind.
    rewrite (write_element_spec s' _ i c0 v Hrep' Hi).
    pose proof (represents_store s' _ i c0 v Hrep' Hi) as Hrep''.
    cbn [ret]. unfold ret.
    replace ((set_value v <$> take (S i) cells) ++ drop (S i) cells)
      with (<[i := set_value v c0]>
              ((set_value v <$> take i cells) ++ drop i cells)); [done|].
    rewrite insert_app_r_alt by (rewrite length_fmap, length_take; lia).
    rewrite length_fmap, length_take.
    replace (i - i `min` length cells)%nat with 0%nat by lia.
    rewrite (drop_S cells c0 i Hc0). cbn [insert list_insert].
    rewrite (take_S_r cells i c0 Hc0), fmap_app. cbn [fmap list_fmap].
    by rewrite <- app_assoc.
  - intros a s' Hrep'. rewrite firstn_all, drop_all, app_nil_r in Hrep'. done.
  - by rewrite take_0, drop_0.
  - exists s'. split; [|done]. unfold Fill.
    by rewrite (bind_Return _ _ _ _ _ Hrun).
Qed.

Lemma Swap_represents s cells Left Right :
  represents s cells -> 0 <= Left < size s -> 0 <= Right < size s ->
  size s < 2 ^ 64 ->
  let i := Z.to_nat (Traverse_index (size s) Left) in
  let j := Z.to_nat (Traverse_index (size s) Right) in
  exists cl cr s' cells',
    cells !! i = Some cl /\ cells !! j = Some cr /\
    Swap Left Right s = (Return tt, s') /\
    represents s' cells' /\
    c_value <$> cells'
    = <[j := c_value cl]> (<[i := c_value cr]> (c_value <$> cells)).
Proof.
  intros Hrep HL HR Hsz i j.
  destruct (Swap_spec s cells Left Right Hrep HL HR Hsz)
    as (cl & cr & Hcl & Hcr & Hrun).
  fold i in Hcl. fold j in Hcr.
  pose proof (represents_store _ _ _ _ (c_value cr) Hrep Hcl) as Hrep1.
  assert (exists cr', <[i := set_value (c_value cr) cl]> cells !! j = Some cr'
                      /\ c_data cr' = c_data cr)
    as (cr' & Hcr' & Hd').
  { destruct (decide (j = i)) as [Heq|Hne].
    - rewrite Heq. rewrite list_lookup_insert_eq by (by eapply lookup_lt_Some).
      eexists; split; [done|]. rewrite Heq in Hcr. by simplify_eq.
    - rewrite list_lookup_insert_ne by done. eauto. }
  pose proof (represents_store _ _ _ _ (c_value cl) Hrep1 Hcr') as Hrep2.
  cbn [elements with_elements] in Hrep2. rewrite Hd' in Hrep2.
  exists cl, cr. eexists. eexists. split; [done|]. split; [done|].
  split; [exact Hrun|]. split; [exact Hrep2|].
  rewrite (values_store _ j cr') by done.
  by rewrite (values_store _ i cl) by done.
Qed.

End Setters.

(** ** Lists that grow and shrink *)

Section Expansion.
Context {T : Type} `{!Greater T} `{!Equal T}.
Local Abbreviation cell := (cell T).
Implicit Types (s : State T) (cells : list cell) (l : list T).

Lemma Traverse_index_0 size : 0 <= size -> Traverse_index size 0 = 0.
Proof.
  intros Hsize. unfold Traverse_index. rewrite decide_False; [done|].
  pose proof (Z.div_pos size 2). lia.
Qed.

Lemma Traverse_index_last size : Traverse_index size (size - 1) = size - 1.
Proof. unfold Traverse_index. rewrite decide_False; [done|lia]. Qed.

Lemma Traverse_index_near size Index :
  Index <= size / 2 -> Traverse_index size Index = Index.
Proof. intros H. unfold Traverse_index. rewrite decide_False; [done|lia]. Qed.

Lemma Erase_at s cells Index :
  represents s cells -> 0 <= Index < size s -> size s < 2 ^ 64 ->
  exists s',
    Erase Index s = (Return tt, s') /\
    (Z.to_nat (Traverse_index (size s) Index) < length cells)%nat /\
    represents s' (delete (Z.to_nat (Traverse_index (size s) Index)) cells).
Proof.
  intros Hrep HIndex Hsz.
  pose proof Hrep as (_ & _ & _ & Hsize & _).
  destruct (decide (Index = 0)) as [->|H0].
  - rewrite Traverse_index_0 by lia. change (Z.to_nat 0) with 0%nat.
    destruct cells as [|c0 [|c1 cells]]; [simpl in *; lia| |].
    + destruct (Erase_single s c0 Hrep) as (s' & He & Hr).
      exists s'. simpl. split; [done|]. split; [lia|done].
    + destruct (Erase_front s _ c0 c1 Hrep eq_refl eq_refl Hsz)
        as (s' & He & Hr).
      exists s'. simpl. split; [done|]. split; [lia|done].
  - destruct (decide (Index = size s - 1)) as [->|H1].
    + rewrite Traverse_index_last.
      destruct (lookup_lt_is_Some_2 cells (length cells - 1)) as [ct Hct];
        [lia|].
      destruct (lookup_lt_is_Some_2 cells (length cells - 2)) as [ct' Hct'];
        [lia|].
      destruct (Erase_back s cells ct ct' Hrep ltac:(lia) Hct Hct' Hsz)
        as (s' & He & Hr).
      rewrite size_t_small in He by lia.
      replace (Z.to_nat (size s - 1)) with (length cells - 1)%nat by lia.
      exists s'. split; [done|]. split; [lia|done].
    + destruct (Erase_middle s cells Index Hrep ltac:(lia) Hsz)
        as (Hk0 & Hk1 & s' & He & Hr).
      exists s'. split; [done|]. split; [lia|done].
Qed.

Lemma insert_at_0 {X} (x : X) (l : list X) : insert_at 0 x l = x :: l.
Proof. done. Qed.

Lemma insert_at_length {X} (x : X) (l : list X) :
  insert_at (length l) x l = l ++ [x].
Proof. unfold insert_at. by rewrite firstn_all, drop_all. Qed.

Lemma PushBack_represents s cells v :
  represents s cells -> size s < 2 ^ 64 - 1 ->
  exists s',
    PushBack v s = (Return (fresh (dom (elements s))), s') /\
    represents s' (cells ++ [Cell (fresh (dom (nodes s)))
                                  (fresh (dom (elements s))) v]) /\
    elements s' = <[fresh (dom (elements s)) := v]> (elements s) /\
    (forall q, q <> fresh (dom (nodes s)) -> q ∉ c_node <$> cells ->
               nodes s' !! q = nodes s !! q).
Proof.
  intros Hrep Hsz. pose proof Hrep as (_ & _ & _ & Hsize & _).
  destruct (Insert_at s cells (size s) v Hrep ltac:(lia) Hsz)
    as (s' & Hrun & _ & Hrep' & He & Hn).
  replace (Z.to_nat (Insert_index (size s) (size s))) with (length cells)
    in Hrep' by (unfold Insert_index; rewrite decide_True by done; lia).
  rewrite insert_at_length in Hrep'.
  exists s'. split; [|done]. unfold PushBack.
  change (bind get_state ?k s) with (k s s). exact Hrun.
Qed.

Lemma PushFront_represents s cells v :
  represents s cells -> size s < 2 ^ 64 - 1 ->
  exists s',
    PushFront v s = (Return (fresh (dom (elements s))), s') /\
    represents s' (Cell (fresh (dom (nodes s)))
                        (fresh (dom (elements s))) v :: cells).
Proof.
  intros Hrep Hsz. pose proof Hrep as (_ & _ & _ & Hsize & _).
  destruct (Insert_at s cells 0 v Hrep ltac:(lia) Hsz)
    as (s' & Hrun & _ & Hrep' & _).
  replace (Z.to_nat (Insert_index (size s) 0)) with 0%nat in Hrep'.
  - exists s'. by split.
  - unfold Insert_index. case_decide; [lia|].
    rewrite Traverse_index_0 by lia. done.
Qed.

Lemma push_all_represents l :
  forall s cells,
    represents s cells -> size s + Z.of_nat (length l) < 2 ^ 64 ->
    exists s' cells',
      push_all l s = (Return tt, s') /\
      represents s' (cells ++ cells') /\ c_value <$> cells' = l.
Proof.
  induction l as [|v l IH]; intros s cells Hrep Hsz.
  - exists s, []. rewrite app_nil_r. done.
  - cbn [length] in Hsz.
    destruct (PushBack_represents s cells v Hrep ltac:(lia))
      as (s1 & Hpush & Hrep1 & _).
    assert (size s1 = size s + 1) as Hsize1.
    { destruct Hrep1 as (_ & _ & _ & -> & _).
      destruct Hrep as (_ & _ & _ & -> & _). rewrite length_app. simpl. lia. }
    destruct (IH s1 _ Hrep1 ltac:(lia)) as (s' & cells' & Hrun & Hrep' & Hl).
    exists s'. eexists (_ :: cells'). split; [|split].
    + cbn [push_all]. by rewrite (bind_Return _ _ _ _ _ Hpush).
    + rewrite <- app_assoc in Hrep'. exact Hrep'.
    + rewrite fmap_cons. cbn [c_value]. by rewrite Hl.
Qed.

Lemma empty_list_represents : represents (empty_list (T := T)) [].
Proof.
  unfold represents, empty_list; cbn.
  repeat split; try apply NoDup_nil_2; done.
Qed.

Lemma list_of_holds l :
  Z.of_nat (length l) < 2 ^ 64 -> holds (list_of l) l.
Proof.
  intros Hl.
  destruct (push_all_represents l empty_list [] empty_list_represents)
    as (s' & cells' & Hrun & Hrep & Hv); [simpl; lia|].
  unfold list_of. rewrite Hrun. exists cells'. by split.
Qed.

End Expansion.

(** ** The list, as its user sees it *)

Section User.
Context {T : Type} `{!Greater T} `{!Equal T}.
Local Abbreviation cell := (cell T).
Implicit Types (s : State T) (cells : list cell) (l : list T).

Lemma holds_lookup cells i v :
  (c_value <$> cells) !! i = Some v ->
  exists c, cells !! i = Some c /\ c_value c = v.
Proof.
  rewrite list_lookup_fmap. destruct (cells !! i) as [c|]; [|done].
  intros [= <-]. eauto.
Qed.

(** X1: [Get(Index)] returns the element at position [Index] when
    [Index <= size / 2] or [Index = size - 1], and the element at position
    [Index - 2] otherwise; the list stays as it is. *)
Theorem Get_returns s l Index :
  holds s l -> 0 <= Index < size s -> size s < 2 ^ 64 ->
  exists v,
    value_of (Get Index) s = (Return v, s) /\
    l !! Z.to_nat (if decide (Index <= size s / 2 \/ Index = size s - 1)
                   then Index else Index - 2) = Some v.
Proof.
  intros (cells & Hrep & <-) HIndex Hsz.
  destruct (Get_represents s cells Index Hrep HIndex Hsz) as (c & Hc & Hget).
  exists (c_value c). split; [done|].
  replace (if decide (Index <= size s / 2 \/ Index = size s - 1)
           then Index else Index - 2)
    with (Traverse_index (size s) Index)
    by (unfold Traverse_index; repeat case_decide; lia).
  by apply lookup_values.
Qed.

(** X2: After [Set(Index, Value)], [Get(Index)] returns [Value], for every
    valid index; one element of the list has changed, the one that
    [Get(Index)] reads. *)
Theorem Set_then_Get s l Index Value :
  holds s l -> 0 <= Index < size s -> size s < 2 ^ 64 ->
  exists s',
    Set_ Index Value s = (Return tt, s') /\
    value_of (Get Index) s' = (Return Value, s') /\
    holds s' (<[Z.to_nat (Traverse_index (size s) Index) := Value]> l).
Proof.
  intros (cells & Hrep & <-) HIndex Hsz.
  destruct (Set_represents s cells Index Value Hrep HIndex Hsz)
    as (c & s' & Hc & Hset & Hrep' & Hsize').
  exists s'. split; [done|]. split.
  - destruct (Get_represents s' _ Index Hrep' ltac:(lia) ltac:(lia))
      as (c' & Hc' & Hget).
    rewrite Hsize' in Hc'.
    rewrite list_lookup_insert_eq in Hc' by (by eapply lookup_lt_Some).
    by simplify_eq.
  - eexists. split; [exact Hrep'|]. by apply values_store.
Qed.

(** X3: [Find(Value)] returns the first index whose element equals [Value],
    or -1 when no element does; the list stays as it is. *)
Theorem Find_first_match s l Value :
  holds s l -> size s < 2 ^ 63 ->
  exists r,
    Find Value s = (Return r, s) /\
    ((r = -1 /\ forall v, v ∈ l -> equal Value v = false) \/
     (0 <= r /\
      exists v, l !! Z.to_nat r = Some v /\ equal Value v = true /\
                forall j w, (j < Z.to_nat r)%nat -> l !! j = Some w ->
                            equal Value w = false)).
Proof.
  intros (cells & Hrep & <-) Hsz.
  destruct (Find_represents s cells Value Hrep Hsz) as (r & Hrun & Hr).
  exists r. split; [done|].
  destruct Hr as [[-> Hnone]|(Hr & c & Hc & Heq & Hbefore)].
  - left. split; [done|]. intros v (c & -> & Hc)%list_elem_of_fmap.
    by apply Hnone.
  - right. split; [done|]. exists (c_value c).
    split; [by apply lookup_values|]. split; [done|].
    intros j w Hj (c' & Hc' & <-)%holds_lookup. by apply (Hbefore j).
Qed.

(** X4: [FindLast(Value)] returns the last index whose element equals
    [Value], or -1 when no element does; the list stays as it is. *)
Theorem FindLast_last_match s l Value :
  holds s l -> size s < 2 ^ 63 ->
  exists r,
    FindLast Value s = (Return r, s) /\
    ((r = -1 /\ forall v, v ∈ l -> equal Value v = false) \/
     (0 <= r /\
      exists v, l !! Z.to_nat r = Some v /\ equal Value v = true /\
                forall j w, (Z.to_nat r < j)%nat -> l !! j = Some w ->
                            equal Value w = false)).
Proof.
  intros (cells & Hrep & <-) Hsz.
  destruct (FindLast_represents s cells Value Hrep Hsz) as (r & Hrun & Hr).
  exists r. split; [done|].
  destruct Hr as [[-> Hnone]|(Hr & c & Hc & Heq & Hafter)].
  - left. split; [done|]. intros v (c & -> & Hc)%list_elem_of_fmap.
    by apply Hnone.
  - right. split; [done|]. exists (c_value c).
    split; [by apply lookup_values|]. split; [done|].
    intros j w Hj (c' & Hc' & <-)%holds_lookup. by apply (Hafter j).
Qed.

(** X5: [Total(Value)] returns the number of elements that equal [Value],
    and [Contains(Value)] whether there is one; the list stays as it is. *)
Theorem Total_and_Contains s l Value :
  holds s l -> size s < 2 ^ 63 ->
  Total Value s
  = (Return (Z.of_nat (length (List.filter (equal Value) l))), s) /\
  Contains Value s = (Return (existsb (equal Value) l), s).
Proof.
  intros (cells & Hrep & <-) Hsz. split.
  - apply Total_represents; [done|lia].
  - by apply Contains_represents.
Qed.

(** X6: A range-based [for] over the list visits its elements from the first
    to the last, and [Size()] is their number; neither changes the list. *)
Theorem iteration_visits_all s l :
  holds s l ->
  contents s = (Return l, s) /\ Size s = (Return (Z.of_nat (length l)), s).
Proof.
  intros (cells & Hrep & <-). split.
  - by apply contents_represents.
  - rewrite length_fmap. by apply Size_represents.
Qed.

(** X7: [Fill(Value)] makes every element [Value] and keeps their number. *)
Theorem Fill_sets_every_element s l Value :
  holds s l ->
  exists s', Fill Value s = (Return tt, s') /\
             holds s' (replicate (length l) Value).
Proof.
  intros (cells & Hrep & <-).
  destruct (Fill_represents s cells Value Hrep) as (s' & Hrun & Hrep').
  exists s'. split; [done|]. eexists. split; [exact Hrep'|].
  rewrite length_fmap.
  clear. induction cells as [|c cells IH]; [done|].
  cbn [fmap list_fmap length replicate c_value set_value]. f_equal. exact IH.
Qed.

(** [Swap(Left, Right)] exchanges the elements that [Get(Left)] and
    [Get(Right)] read, and changes no other element. *)
Lemma Swap_holds s l Left Right :
  holds s l -> 0 <= Left < size s -> 0 <= Right < size s ->
  size s < 2 ^ 64 ->
  let i := Z.to_nat (Traverse_index (size s) Left) in
  let j := Z.to_nat (Traverse_index (size s) Right) in
  exists x y s',
    l !! i = Some x /\ l !! j = Some y /\
    Swap Left Right s = (Return tt, s') /\
    holds s' (<[j := x]> (<[i := y]> l)).
Proof.
  intros (cells & Hrep & <-) HL HR Hsz i j.
  destruct (Swap_represents s cells Left Right Hrep HL HR Hsz)
    as (cl & cr & s' & cells' & Hcl & Hcr & Hrun & Hrep' & Hv).
  exists (c_value cl), (c_value cr), s'.
  split; [by apply lookup_values|]. split; [by apply lookup_values|].
  split; [done|]. by exists cells'.
Qed.

(** [PushBack(Value)] appends [Value] and returns a reference to the new
    element. *)
Lemma PushBack_holds s l Value :
  holds s l -> size s < 2 ^ 64 - 1 ->
  exists r s',
    PushBack Value s = (Return r, s') /\
    holds s' (l ++ [Value]) /\ read_element r s' = (Return Value, s').
Proof.
  intros (cells & Hrep & <-) Hsz.
  destruct (PushBack_represents s cells Value Hrep Hsz)
    as (s' & Hrun & Hrep' & He & _).
  eexists _, s'. split; [exact Hrun|]. split.
  - eexists. split; [exact Hrep'|]. by rewrite fmap_app.
  - unfold read_element. rewrite He. by rewrite lookup_insert_eq.
Qed.

(** [PushFront(Value)] puts [Value] in front of the elements. *)
Lemma PushFront_holds s l Value :
  holds s l -> size s < 2 ^ 64 - 1 ->
  exists r s',
    PushFront Value s = (Return r, s') /\ holds s' (Value :: l).
Proof.
  intros (cells & Hrep & <-) Hsz.
  destruct (PushFront_represents s cells Value Hrep Hsz)
    as (s' & Hrun & Hrep').
  eexists _, s'. split; [exact Hrun|]. eexists. by split; [exact Hrep'|].
Qed.

(** X10: [Insert(Index, Value)] puts [Value] at the end when [Index] is the
    size, and else before the element that [Get(Index)] reads; the
    reference that it returns is to the new element. *)
Theorem Insert_inserts s l Index Value :
  holds s l -> 0 <= Index <= size s -> size s < 2 ^ 64 - 1 ->
  exists r s',
    Insert Index Value s = (Return r, s') /\
    holds s' (insert_at (Z.to_nat (Insert_index (size s) Index)) Value l) /\
    read_element r s' = (Return Value, s') /\
    size s' = size s + 1.
Proof.
  intros (cells & Hrep & <-) HIndex Hsz.
  destruct (Insert_at s cells Index Value Hrep HIndex Hsz)
    as (s' & Hrun & Hk & Hrep' & He & _).
  eexists _, s'. split; [exact Hrun|]. split; [|split].
  - eexists. split; [exact Hrep'|]. by rewrite fmap_insert_at.
  - unfold read_element. rewrite He. by rewrite lookup_insert_eq.
  - destruct Hrep' as (_ & _ & _ & -> & _).
    destruct Hrep as (_ & _ & _ & -> & _). rewrite length_insert_at. lia.
Qed.

(** [Erase(Index)] removes the element that [Get(Index)] reads. *)
Lemma Erase_holds s l Index :
  holds s l -> 0 <= Index < size s -> size s < 2 ^ 64 ->
  exists s',
    Erase Index s = (Return tt, s') /\
    holds s' (delete (Z.to_nat (Traverse_index (size s) Index)) l) /\
    size s' = size s - 1.
Proof.
  intros (cells & Hrep & <-) HIndex Hsz.
  destruct (Erase_at s cells Index Hrep HIndex Hsz)
    as (s' & Hrun & Hk & Hrep').
  exists s'. split; [done|]. split.
  - eexists. split; [exact Hrep'|]. by rewrite list_fmap_delete.
  - destruct Hrep' as (_ & _ & _ & Hsize' & _).
    destruct Hrep as (_ & _ & _ & Hsize & _).
    rewrite Hsize', length_delete by (by apply lookup_lt_is_Some_2). lia.
Qed.

(** [PopFront()] removes the first element and [PopBack()] the last. *)
Lemma Pop_holds s l v :
  size s < 2 ^ 64 ->
  (holds s (v :: l) ->
   exists s', PopFront s = (Return tt, s') /\ holds s' l) /\
  (holds s (l ++ [v]) ->
   exists s', PopBack s = (Return tt, s') /\ holds s' l).
Proof.
  intros Hsz. split; intros Hholds.
  - pose proof (holds_size _ _ Hholds) as Hsize. cbn [length] in Hsize.
    destruct (Erase_holds s _ 0 Hholds ltac:(lia) Hsz)
      as (s' & Hrun & Hholds' & _).
    rewrite Traverse_index_0 in Hholds' by lia. by exists s'.
  - pose proof (holds_size _ _ Hholds) as Hsize.
    rewrite length_app in Hsize. cbn [length] in Hsize.
    destruct (Erase_holds s _ (size s - 1) Hholds ltac:(lia) Hsz)
      as (s' & Hrun & Hholds' & _).
    rewrite Traverse_index_last in Hholds'.
    replace (Z.to_nat (size s - 1)) with (length l) in Hholds' by lia.
    rewrite delete_middle in Hholds'. rewrite app_nil_r in Hholds'.
    exists s'. split; [|done]. unfold PopBack.
    change (bind get_state ?k s) with (k s s). cbv beta.
    by rewrite size_t_small by lia.
Qed.

End User.

(** ** Constructors and destructor *)

(** A loop that fails after [n] iterations that go through. *)
Lemma for_loop_app_Fail {S A R} (body : Z -> A -> M S (flow A R)) n m :
  forall Index a a' s s1 f s2,
    for_loop n Index a body s = (Return (Next a'), s1) ->
    for_loop m (size_t_iter n Index) a' body s1 = (Fail f, s2) ->
    for_loop (n + m) Index a body s = (Fail f, s2).
Proof.
  induction n as [|n IH]; intros Index a a' s s1 f s2 Hn Hm.
  - cbn [for_loop Nat.add size_t_iter] in *. unfold ret in Hn.
    by simplify_eq.
  - cbn [for_loop Nat.add size_t_iter] in *. unfold bind in *.
    destruct (body Index a s) as [[[a1|x]|f1] s'] eqn:Hbody; [|done|done].
    by apply (IH _ _ a' _ s1).
Qed.

Lemma size_t_iter_small n :
  forall Index, 0 <= Index -> Index + Z.of_nat n < 2 ^ 64 ->
                size_t_iter n Index = Index + Z.of_nat n.
Proof.
  induction n as [|n IH]; intros Index H0 Hlt; cbn [size_t_iter]; [lia|].
  rewrite size_t_small by lia. rewrite IH by lia. lia.
Qed.

Section Constructors.
Context {T : Type} `{!Greater T} `{!Equal T}.
Local Abbreviation cell := (cell T).
Implicit Types (s : State T) (cells : list cell) (l : list T).

Lemma initialise_built s0 :
  exists s, initialise s0 = (Return tt, s) /\ built s0 s [].
Proof.
  eexists. split; [reflexivity|]. split; [|by repeat split; set_solver].
  unfold represents; cbn. repeat split; try apply NoDup_nil_2; done.
Qed.

Lemma PushBack_built s0 s cells v :
  built s0 s cells -> size s < 2 ^ 64 - 1 ->
  exists r s' c,
    PushBack v s = (Return r, s') /\ built s0 s' (cells ++ [c]) /\
    c_value c = v.
Proof.
  intros (Hrep & Hn & Hn0 & He & He0) Hsz.
  destruct (PushBack_represents s cells v Hrep Hsz)
    as (s' & Hrun & Hrep' & He' & Hn').
  set (p := fresh (dom (nodes s))) in *.
  set (d := fresh (dom (elements s))) in *.
  assert (Hp : p ∉ c_node <$> cells).
  { intros (c & Hc & [i Hi]%list_elem_of_lookup)%list_elem_of_fmap.
    apply (represents_fresh_node s cells i c Hrep Hi). symmetry. exact Hc. }
  assert (Hd : d ∉ c_data <$> cells).
  { intros (c & Hc & [i Hi]%list_elem_of_lookup)%list_elem_of_fmap.
    apply (represents_fresh_element s cells i c Hrep Hi). symmetry. exact Hc. }
  eexists _, s', (Cell p d v). split; [exact Hrun|]. split; [|done].
  split; [done|]. rewrite !fmap_app. cbn [fmap list_fmap c_node c_data].
  split; [|split; [|split]].
  - intros q Hq. rewrite not_elem_of_app, list_elem_of_singleton in Hq.
    rewrite Hn' by tauto. apply Hn. tauto.
  - intros q Hq. apply elem_of_app in Hq as [Hq|Hq]; [by apply Hn0|].
    apply list_elem_of_singleton in Hq as ->.
    rewrite <- (Hn p Hp). apply not_elem_of_dom. apply is_fresh.
  - intros q Hq. rewrite not_elem_of_app, list_elem_of_singleton in Hq.
    rewrite He'. rewrite lookup_insert_ne by (intros <-; tauto).
    apply He. tauto.
  - intros q Hq. apply elem_of_app in Hq as [Hq|Hq]; [by apply He0|].
    apply list_elem_of_singleton in Hq as ->.
    rewrite <- (He d Hd). apply not_elem_of_dom. apply is_fresh.
Qed.

Lemma built_size s0 s cells :
  built s0 s cells -> size s = Z.of_nat (length cells).
Proof. by intros ((_ & _ & _ & ? & _) & _). Qed.

(** The loop of the constructors: one [PushBack] for each value. *)
Lemma PushBack_loop s0 (body : Z -> unit -> M (State T) (flow unit Empty_set))
    vals :
  forall k s cells,
    built s0 s cells ->
    size s + Z.of_nat (length vals) < 2 ^ 64 ->
    Z.of_nat (k + length vals) < 2 ^ 64 ->
    (forall j v s', vals !! j = Some v ->
       body (Z.of_nat (k + j)) tt s'
       = (PushBack v ;;; ret (Next tt)) s') ->
    exists s' cells',
      for_loop (length vals) (Z.of_nat k) tt body s = (Return (Next tt), s') /\
      built s0 s' (cells ++ cells') /\ c_value <$> cells' = vals.
Proof.
  induction vals as [|v vals IH]; intros k s cells Hbuilt Hsz Hk Hbody.
  - exists s, []. rewrite app_nil_r. done.
  - cbn [length] in Hsz, Hk.
    destruct (PushBack_built s0 s cells v Hbuilt ltac:(lia))
      as (r & s1 & c & Hpush & Hbuilt1 & Hc).
    pose proof (built_size _ _ _ Hbuilt) as Hsize.
    pose proof (built_size _ _ _ Hbuilt1) as Hsize1.
    rewrite length_app in Hsize1. cbn [length] in Hsize1.
    destruct (IH (S k) s1 _ Hbuilt1 ltac:(lia) ltac:(lia))
      as (s' & cells' & Hrun & Hbuilt' & Hv).
    { intros j w s' Hj. rewrite <- (Hbody (S j) w s') by done.
      do 2 f_equal. lia. }
    exists s', (c :: cells'). split; [|split].
    + cbn [for_loop length]. eapply bind_eq.
      { rewrite <- (Nat.add_0_r k) at 1. rewrite (Hbody 0%nat v s) by done.
        rewrite (bind_Return _ _ _ _ _ Hpush). reflexivity. }
      cbn beta iota. rewrite size_t_small by lia.
      replace (Z.of_nat k + 1) with (Z.of_nat (S k)) by lia. exact Hrun.
    + by rewrite <- app_assoc in Hbuilt'.
    + rewrite fmap_cons. by rewrite Hc, Hv.
Qed.

Lemma destroy_built s0 s cells :
  built s0 s cells ->
  destroy s = (Return tt, mkState (nodes s0) (elements s0) 0 None None).
Proof.
  intros (Hrep & Hn & Hn0 & He & He0).
  destruct (Clear_frees s cells Hrep) as (s' & Hrun & Hrep' & Hn' & He').
  unfold destroy. rewrite Hrun. f_equal.
  destruct Hrep' as (_ & _ & _ & Hsize' & Hhead' & Htail').
  destruct s' as [n' e' sz' h' t']. cbn in *. subst. f_equal.
  - apply map_eq. intros q. rewrite Hn'. case_decide; [|by apply Hn].
    symmetry. by apply Hn0.
  - apply map_eq. intros q. rewrite He'. case_decide; [|by apply He].
    symmetry. by apply He0.
Qed.

Lemma array_loop_builds s0 s1 Size (Array : list T) :
  0 <= Size <= Z.of_nat (length Array) -> Size < 2 ^ 64 ->
  built s0 s1 [] ->
  exists s,
    for_range (R := Empty_set) 0 Size tt (fun Index _ =>
      v <- array_at Array Index ;;
      PushBack v ;;; ret (Next tt)) s1 = (Return (Next tt), s) /\
    exists cells, built s0 s cells /\
                  c_value <$> cells = take (Z.to_nat Size) Array.
Proof.
  intros HSize Hsz Hbuilt.
  pose proof (built_size _ _ _ Hbuilt) as Hsize1. cbn [length] in Hsize1.
  destruct (PushBack_loop s0
              (fun Index _ =>
                 v <- array_at Array Index ;;
                 PushBack v ;;; ret (Next tt))
              (take (Z.to_nat Size) Array) 0 s1 [] Hbuilt)
    as (s & cells & Hrun & Hbuilt' & Hv).
  - rewrite length_take. lia.
  - rewrite length_take. lia.
  - intros j v s' Hj. apply lookup_take_Some in Hj as [Hj _].
    cbn [Nat.add]. unfold array_at at 1. rewrite Nat2Z.id, Hj.
    by rewrite bind_ret_l.
  - exists s. split; [|by exists cells].
    unfold for_range.
    replace (Z.to_nat (Size - 0))
      with (length (take (Z.to_nat Size) Array))
      by (rewrite length_take; lia).
    exact Hrun.
Qed.

(** X14: [List(Size, Value)] builds the list of [Size] times [Value]; the
    destructor of that list leaves the memory as before the
    construction. *)
Theorem List_fill_builds s0 Size Value :
  0 <= Size < 2 ^ 64 ->
  exists s,
    List_fill Size Value s0 = (Return tt, s) /\
    holds s (replicate (Z.to_nat Size) Value) /\
    destroy s = (Return tt, mkState (nodes s0) (elements s0) 0 None None).
Proof.
  intros HSize.
  destruct (initialise_built s0) as (s1 & Hinit & Hbuilt).
  pose proof (built_size _ _ _ Hbuilt) as Hsize1. cbn [length] in Hsize1.
  destruct (PushBack_loop s0
              (fun _ _ => PushBack Value ;;; ret (Next tt))
              (replicate (Z.to_nat Size) Value) 0 s1 [] Hbuilt)
    as (s & cells & Hrun & Hbuilt' & Hv).
  - rewrite length_replicate. lia.
  - rewrite length_replicate. lia.
  - intros j v s' Hj. apply lookup_replicate in Hj as [-> _]. done.
  - exists s. split; [|split].
    + unfold List_fill. rewrite (bind_Return _ _ _ _ _ Hinit).
      unfold for_range.
      replace (Z.to_nat (Size - 0))
        with (length (replicate (Z.to_nat Size) Value))
        by (rewrite length_replicate; lia).
      by rewrite (bind_Return _ _ _ _ _ Hrun).
    + exists cells. split; [apply Hbuilt'|done].
    + by apply (destroy_built s0 s cells).
Qed.

(** X15: [List(Size, Array)] builds the list of the first [Size] elements of
    the array, and the constructor from an initializer list the list of
    its elements; the destructor of these lists leaves the memory as
    before the construction.  A [Size] beyond the elements of the array
    is undefined behaviour. *)
Theorem List_array_builds s0 Size (Array : list T) :
  0 <= Size < 2 ^ 64 -> Z.of_nat (length Array) < 2 ^ 64 ->
  (Size <= Z.of_nat (length Array) ->
   exists s,
     List_array Size Array s0 = (Return tt, s) /\
     holds s (take (Z.to_nat Size) Array) /\
     destroy s = (Return tt, mkState (nodes s0) (elements s0) 0 None None)) /\
  (Z.of_nat (length Array) < Size ->
   fst (List_array Size Array s0) = Fail undefined_behaviour) /\
  (exists s,
     List_initializer_list Array s0 = (Return tt, s) /\
     holds s Array /\
     destroy s = (Return tt, mkState (nodes s0) (elements s0) 0 None None)).
Proof.
  intros HSize HArray.
  destruct (initialise_built s0) as (s1 & Hinit & Hbuilt).
  split; [|split].
  - intros Hle.
    destruct (array_loop_builds s0 s1 Size Array ltac:(lia) ltac:(lia) Hbuilt)
      as (s & Hrun & cells & Hbuilt' & Hv).
    exists s. split; [|split].
    + unfold List_array. rewrite (bind_Return _ _ _ _ _ Hinit).
      by rewrite (bind_Return _ _ _ _ _ Hrun).
    + exists cells. split; [apply Hbuilt'|done].
    + by apply (destroy_built s0 s cells).
  - intros Hgt.
    destruct (array_loop_builds s0 s1 (Z.of_nat (length Array)) Array
                ltac:(lia) ltac:(lia) Hbuilt)
      as (s & Hrun & cells & Hbuilt' & Hv).
    unfold List_array. rewrite (bind_Return _ _ _ _ _ Hinit).
    unfold for_range in *.
    replace (Z.to_nat (Size - 0))
      with (Z.to_nat (Z.of_nat (length Array) - 0)
            + S (Z.to_nat (Size - Z.of_nat (length Array) - 1)))%nat by lia.
    erewrite bind_Fail; [done|].
    apply for_loop_app_Fail with (a' := tt) (s1 := s); [exact Hrun|].
    cbn [for_loop]. erewrite bind_Fail; [reflexivity|].
    erewrite bind_Fail; [reflexivity|].
    rewrite size_t_iter_small by lia.
    unfold array_at. rewrite lookup_ge_None_2; [reflexivity|]. lia.
  - destruct (array_loop_builds s0 s1 (Z.of_nat (length Array)) Array
                ltac:(lia) ltac:(lia) Hbuilt)
      as (s & Hrun & cells & Hbuilt' & Hv).
    rewrite Nat2Z.id, firstn_all in Hv.
    exists s. split; [|split].
    + unfold List_initializer_list. rewrite (bind_Return _ _ _ _ _ Hinit).
      by rewrite (bind_Return _ _ _ _ _ Hrun).
    + exists cells. split; [apply Hbuilt'|done].
    + by apply (destroy_built s0 s cells).
Qed.

End Constructors.

(** ** Iterators, post-increment *)

Section PostIncrement.
Context {T : Type} `{!Greater T} `{!Equal T}.
Local Abbreviation cell := (cell T).
Implicit Types (s : State T) (cells : list cell) (l : list T).

(** X16: [it++] on an iterator that is at a node of the list: when the node
    has a next node, the iterator goes there and the result is the node it
    was at; at the last node, a null pointer is dereferenced. *)
Theorem post_increment_at s cells i c :
  represents s cells -> cells !! i = Some c ->
  (forall c', cells !! S i = Some c' ->
     post_increment (node_at cells i) s
     = (Return (node_at cells (S i), c_node c), s)) /\
  (cells !! S i = None ->
   post_increment (node_at cells i) s = (Fail undefined_behaviour, s)).
Proof.
  intros Hrep Hc. split.
  - intros c' Hc'. unfold post_increment. eapply bind_eq.
    { unfold pre_increment. cbn [next node_at]. unfold address.
      rewrite Hc'. cbn [fmap option_fmap option_map].
      apply (read_node_at s cells Hrep _ _ Hc'). }
    cbn [previous node_at]. unfold address. by rewrite Hc.
  - intros HNone. unfold post_increment. eapply bind_eq.
    { unfold pre_increment. cbn [next node_at]. unfold address.
      rewrite HNone. reflexivity. }
    reflexivity.
Qed.

End PostIncrement.

(** ** The sorts of an empty list *)

Section EmptySorts.
Context {T : Type} `{!Greater T} `{!Equal T}.
Implicit Types (s : State T).


End EmptySorts.

(** ** [Reverse] and [Shuffle] keep the elements *)

Lemma swap_Permutation_lt {X} (l : list X) i j x y :
  (i < j)%nat -> l !! i = Some x -> l !! j = Some y ->
  <[j := x]> (<[i := y]> l) ≡ₚ l.
Proof.
  intros Hij Hx Hy.
  pose proof (lookup_lt_Some _ _ _ Hy) as Hj.
  assert (Hy' : drop (S i) l !! (j - S i)%nat = Some y).
  { rewrite lookup_drop. rewrite <- Hy. f_equal. lia. }
  remember (take i l) as l1 eqn:E1.
  remember (take (j - S i) (drop (S i) l)) as l2 eqn:E2.
  remember (drop (S (j - S i)) (drop (S i) l)) as l3 eqn:E3.
  assert (Hl : l = l1 ++ x :: l2 ++ y :: l3).
  { subst l1 l2 l3. rewrite (take_drop_middle _ _ _ Hy').
    by rewrite (take_drop_middle _ _ _ Hx). }
  assert (Hi : i = length l1) by (subst l1; rewrite length_take; lia).
  assert (Hj' : j = (length l1 + S (length l2))%nat).
  { subst l1 l2. rewrite !length_take, length_drop. lia. }
  clear E1 E2 E3 Hx Hy Hy' Hj Hij. subst l i j.
  rewrite swap_cells_app.
  apply Permutation_app_head. rewrite <- !Permutation_middle. apply perm_swap.
Qed.

Lemma swap_Permutation {X} (l : list X) i j x y :
  l !! i = Some x -> l !! j = Some y ->
  <[j := x]> (<[i := y]> l) ≡ₚ l.
Proof.
  intros Hx Hy. destruct (lt_eq_lt_dec i j) as [[Hlt| ->]|Hgt].
  - by apply swap_Permutation_lt.
  - simplify_eq. rewrite (list_insert_id l j x Hx).
    by rewrite (list_insert_id l j x Hx).
  - rewrite list_insert_insert_ne by lia. by apply swap_Permutation_lt.
Qed.

Section Permuting.
Context {T : Type} `{!Greater T} `{!Equal T}.
Local Abbreviation cell := (cell T).
Implicit Types (s : State T) (cells : list cell) (l : list T).

Lemma Swap_permutes l Left Right :
  0 <= Left -> 0 <= Right ->
  triple (fun s => (exists l', holds s l' /\ l' ≡ₚ l) /\
                   Left < size s /\ Right < size s /\ size s < 2 ^ 64)
    (Swap Left Right)
    (fun _ s => exists l', holds s l' /\ l' ≡ₚ l) never.
Proof.
  intros HL HR s ((l' & Hholds & Hperm) & HLs & HRs & Hsz).
  destruct (Swap_holds s l' Left Right Hholds) as
    (x & y & s' & Hx & Hy & Hrun & Hholds'); [lia|lia|lia|].
  rewrite Hrun. eexists. split; [exact Hholds'|].
  rewrite <- Hperm. by apply swap_Permutation.
Qed.

Lemma holds_Permutation_size s l l' :
  holds s l' -> l' ≡ₚ l -> size s = Z.of_nat (length l).
Proof. intros Hh Hp. rewrite (holds_size _ _ Hh). by rewrite Hp. Qed.

(** X18: [Reverse()] and [Shuffle()] return, and leave a list of the same
    elements, each as often as before. *)
Theorem Reverse_and_Shuffle_permute s l (rand : Z -> Z) :
  holds s l -> size s < 2 ^ 64 ->
  (exists s' l', Reverse s = (Return tt, s') /\ holds s' l' /\ l' ≡ₚ l) /\
  (exists s' l', Shuffle rand s = (Return tt, s') /\ holds s' l' /\ l' ≡ₚ l).
Proof.
  intros Hholds Hsz. pose proof (holds_size _ _ Hholds) as Hsize.
  assert (Hdiv : 0 <= size s / 2 /\ 2 * (size s / 2) <= size s).
  { pose proof (Z.div_mod (size s) 2).
    pose proof (Z.mod_pos_bound (size s) 2). lia. }
  split.
  - unfold Reverse. change (bind get_state ?k s) with (k s s). cbv beta.
    unshelve epose proof (triple_for_range (R := Empty_set)
      (fun _ (_ : unit) s' => exists l', holds s' l' /\ l' ≡ₚ l)
      (fun s' => exists l', holds s' l' /\ l' ≡ₚ l)
      (fun _ s' => exists l', holds s' l' /\ l' ≡ₚ l) never
      (fun Index _ =>
         s <- get_state ;;
         Swap Index (size_t (size s - Index - 1)) ;;;
         ret (Next tt))
      0 (size s / 2) tt _ _ _ _ _) as Hloop; cbv beta; try done; try lia.
    + intros i [] Hi s1 (l1 & Hh1 & Hp1).
      pose proof (holds_Permutation_size _ _ _ Hh1 Hp1) as Hs1.
      change (bind get_state ?k s1) with (k s1 s1). cbv beta.
      rewrite size_t_small by lia.
      pose proof (Swap_permutes l i (size s1 - i - 1) ltac:(lia) ltac:(lia)
                    s1) as Hswap.
      unfold bind.
      destruct (Swap i (size s1 - i - 1) s1) as [[[]|f] s2]; apply Hswap;
        (split; [by exists l1|lia]).
    + destruct (triple_never _ _ _ s Hloop) as (r & s' & Hrun & l' & Hh & Hp);
        [by exists l|].
      exists s', l'. by rewrite (bind_Return _ _ _ _ _ Hrun).
  - unfold Shuffle. change (bind get_state ?k s) with (k s s). cbv beta.
    unshelve epose proof (triple_for_range (R := Empty_set)
      (fun _ (_ : unit) s' => exists l', holds s' l' /\ l' ≡ₚ l)
      (fun s' => exists l', holds s' l' /\ l' ≡ₚ l)
      (fun _ s' => exists l', holds s' l' /\ l' ≡ₚ l) never
      (fun Index _ =>
         s <- get_state ;;
         let Random := size_t (rand Index) mod size s in
         Swap Index Random ;;;
         ret (Next tt))
      0 (size s) tt _ _ _ _ _) as Hloop; cbv beta; try done; try lia.
    + intros i [] Hi s1 (l1 & Hh1 & Hp1).
      pose proof (holds_Permutation_size _ _ _ Hh1 Hp1) as Hs1.
      change (bind get_state ?k s1) with (k s1 s1). cbv beta zeta.
      pose proof (size_t_range (rand i)).
      pose proof (Z.mod_pos_bound (size_t (rand i)) (size s1) ltac:(lia)).
      pose proof (Swap_permutes l i (size_t (rand i) mod size s1)
                    ltac:(lia) ltac:(lia) s1) as Hswap.
      unfold bind.
      destruct (Swap i (size_t (rand i) mod size s1) s1) as [[[]|f] s2];
        apply Hswap; (split; [by exists l1|lia]).
    + destruct (triple_never _ _ _ s Hloop) as (r & s' & Hrun & l' & Hh & Hp);
        [by exists l|].
      exists s', l'. by rewrite (bind_Return _ _ _ _ _ Hrun).
Qed.

End Permuting.

(** ** The stack *)

Section StackProperties.
Context {T : Type} `{!Greater T} `{!Equal T}.
Local Abbreviation cell := (cell T).
Implicit Types (s : State T) (cells : list cell) (l : list T).

Lemma IsEmpty_run s :
  IsEmpty s = (Return (bool_decide (size s = 0)), s).
Proof. done. Qed.

Lemma Back_holds s l v :
  holds s (l ++ [v]) -> size s < 2 ^ 64 ->
  exists r, Back s = (Return r, s) /\ read_element r s = (Return v, s).
Proof.
  intros (cells & Hrep & Hv) Hsz.
  pose proof Hrep as (_ & _ & _ & Hsize & _).
  assert (Hlen : length cells = S (length l)).
  { rewrite <- (length_fmap c_value), Hv, length_app. simpl. lia. }
  destruct (subscript_spec s cells (size s - 1) Hrep ltac:(lia) Hsz)
    as (c & Hc & Hsub).
  rewrite Traverse_index_last in Hc.
  exists (c_data c). split.
  - unfold Back. change (bind get_state ?k s) with (k s s). cbv beta.
    by rewrite size_t_small by lia.
  - rewrite (read_element_spec s cells _ c Hrep Hc). do 2 f_equal.
    apply lookup_values in Hc. rewrite Hv in Hc.
    replace (Z.to_nat (size s - 1)) with (length l) in Hc by lia.
    rewrite list_lookup_middle in Hc by done. by simplify_eq.
Qed.

Lemma Front_holds s l v :
  holds s (v :: l) -> size s < 2 ^ 64 ->
  exists r, Front s = (Return r, s) /\ read_element r s = (Return v, s).
Proof.
  intros (cells & Hrep & Hv) Hsz.
  pose proof Hrep as (_ & _ & _ & Hsize & _).
  assert (Hlen : length cells = S (length l)).
  { by rewrite <- (length_fmap c_value), Hv. }
  destruct (subscript_spec s cells 0 Hrep ltac:(lia) Hsz) as (c & Hc & Hsub).
  rewrite Traverse_index_0 in Hc by lia.
  exists (c_data c). split; [done|].
  rewrite (read_element_spec s cells _ c Hrep Hc). do 2 f_equal.
  apply lookup_values in Hc. rewrite Hv in Hc.
  change (Z.to_nat 0) with 0%nat in Hc. cbn in Hc. by injection Hc.
Qed.

(** [Pop()] returns the element at the back and removes it; [Peek()]
    returns a reference to it and leaves the stack as it is. *)
Lemma Stack_Pop_holds s l v :
  holds s (l ++ [v]) -> size s < 2 ^ 64 ->
  (exists s', Stack.Pop s = (Return (inr v), s') /\ holds s' l) /\
  (exists r, Stack.Peek s = (Return (inr r), s) /\
             read_element r s = (Return v, s)).
Proof.
  intros Hholds Hsz. pose proof (holds_size _ _ Hholds) as Hsize.
  rewrite length_app in Hsize. cbn [length] in Hsize.
  destruct (Back_holds s l v Hholds Hsz) as (r & Hback & Hread).
  split.
  - destruct (proj2 (Pop_holds s l v Hsz) Hholds)
      as (s' & Hpop & Hholds').
    exists s'. split; [|done]. unfold Stack.Pop.
    rewrite (bind_Return _ _ _ _ _ (IsEmpty_run s)).
    rewrite bool_decide_eq_false_2 by lia.
    rewrite (bind_Return _ _ _ _ _ Hback), (bind_Return _ _ _ _ _ Hread).
    by rewrite (bind_Return _ _ _ _ _ Hpop).
  - exists r. split; [|done]. unfold Stack.Peek.
    rewrite (bind_Return _ _ _ _ _ (IsEmpty_run s)).
    rewrite bool_decide_eq_false_2 by lia.
    by rewrite (bind_Return _ _ _ _ _ Hback).
Qed.

(** X26: [PopLast()] returns the element at the front and removes it;
    [PeekLast()] returns a reference to it; [PushLast(Value)] puts a value
    in front. *)
Theorem Stack_PopLast_takes_the_front s l v :
  holds s (v :: l) -> size s < 2 ^ 64 - 1 ->
  (exists s', Stack.PopLast s = (Return (inr v), s') /\ holds s' l) /\
  (exists r, Stack.PeekLast s = (Return (inr r), s) /\
             read_element r s = (Return v, s)) /\
  (forall Value, exists s',
     Stack.PushLast Value s = (Return tt, s') /\ holds s' (Value :: v :: l)).
Proof.
  intros Hholds Hsz. pose proof (holds_size _ _ Hholds) as Hsize.
  cbn [length] in Hsize.
  destruct (Front_holds s l v Hholds ltac:(lia)) as (r & Hfront & Hread).
  split; [|split].
  - destruct (proj1 (Pop_holds s l v ltac:(lia)) Hholds)
      as (s' & Hpop & Hholds').
    exists s'. split; [|done]. unfold Stack.PopLast.
    rewrite (bind_Return _ _ _ _ _ (IsEmpty_run s)).
    rewrite bool_decide_eq_false_2 by lia.
    rewrite (bind_Return _ _ _ _ _ Hfront), (bind_Return _ _ _ _ _ Hread).
    by rewrite (bind_Return _ _ _ _ _ Hpop).
  - exists r. split; [|done]. unfold Stack.PeekLast.
    rewrite (bind_Return _ _ _ _ _ (IsEmpty_run s)).
    rewrite bool_decide_eq_false_2 by lia.
    by rewrite (bind_Return _ _ _ _ _ Hfront).
  - intros Value.
    destruct (PushFront_holds s _ Value Hholds Hsz)
      as (r' & s' & Hpush & Hholds').
    exists s'. split; [|done]. unfold Stack.PushLast.
    by rewrite (bind_Return _ _ _ _ _ Hpush).
Qed.

(** X27: [Push(Value)] and then [Pop()] gives [Value] back and leaves the
    elements of the stack as they were before the two calls. *)
Theorem Stack_Push_then_Pop s l Value :
  holds s l -> size s < 2 ^ 64 - 1 ->
  exists s1 s2,
    Stack.Push Value s = (Return tt, s1) /\ holds s1 (l ++ [Value]) /\
    Stack.Pop s1 = (Return (inr Value), s2) /\ holds s2 l.
Proof.
  intros Hholds Hsz. pose proof (holds_size _ _ Hholds) as Hsize.
  destruct (PushBack_holds s l Value Hholds Hsz)
    as (r & s1 & Hpush & Hholds1 & _).
  pose proof (holds_size _ _ Hholds1) as Hsize1.
  rewrite length_app in Hsize1. cbn [length] in Hsize1.
  destruct (Stack_Pop_holds s1 l Value Hholds1 ltac:(lia))
    as [(s2 & Hpop & Hholds2) _].
  exists s1, s2. split; [|done]. unfold Stack.Push.
  by rewrite (bind_Return _ _ _ _ _ Hpush).
Qed.

(** X28: On an empty stack [Pop()], [PopLast()], [Peek()] and [PeekLast()]
    throw the error of the empty stack and change nothing. *)
Theorem Stack_empty_throws s :
  size s = 0 ->
  Stack.Pop s = (Return (inl Stack.stack_is_empty), s) /\
  Stack.PopLast s = (Return (inl Stack.stack_is_empty), s) /\
  Stack.Peek s = (Return (inl Stack.stack_is_empty), s) /\
  Stack.PeekLast s = (Return (inl Stack.stack_is_empty), s).
Proof.
  intros Hsize.
  unfold Stack.Pop, Stack.PopLast, Stack.Peek, Stack.PeekLast.
  rewrite !(bind_Return _ _ _ _ _ (IsEmpty_run s)).
  by rewrite !bool_decide_eq_true_2 by done.
Qed.

End StackProperties.

(** ** [Map] and [Reduce] over a list *)

Section AlgorithmsProperties.
Context {T : Type} `{!Greater T} `{!Equal T}.
Local Abbreviation cell := (cell T).
Implicit Types (s : State T) (cells : list cell) (l : list T).

Lemma mapped_shape Operation i cells : same_shape cells (mapped Operation i cells).
Proof.
  unfold mapped. split; rewrite fmap_app, <- list_fmap_compose;
    rewrite <- (take_drop i cells) at 3; by rewrite fmap_app.
Qed.

Lemma mapped_lookup Operation i cells c :
  cells !! i = Some c -> mapped Operation i cells !! i = Some c.
Proof.
  intros Hc. pose proof (lookup_lt_Some _ _ _ Hc). unfold mapped.
  rewrite lookup_app_r by (rewrite length_fmap, length_take; lia).
  rewrite length_fmap, length_take, lookup_drop.
  rewrite <- Hc. f_equal. lia.
Qed.

Lemma mapped_S Operation i cells c :
  cells !! i = Some c ->
  <[i := set_value (Operation (c_value c)) c]> (mapped Operation i cells)
  = mapped Operation (S i) cells.
Proof.
  intros Hc. pose proof (lookup_lt_Some _ _ _ Hc). unfold mapped.
  rewrite insert_app_r_alt by (rewrite length_fmap, length_take; lia).
  rewrite length_fmap, length_take.
  replace (i - i `min` length cells)%nat with 0%nat by lia.
  rewrite (drop_S cells c i Hc). cbn [insert list_insert].
  rewrite (take_S_r cells i c Hc), fmap_app. cbn [fmap list_fmap].
  by rewrite <- app_assoc.
Qed.

Lemma mapped_values Operation i cells :
  c_value <$> mapped Operation i cells
  = (Operation <$> take i (c_value <$> cells)) ++ drop i (c_value <$> cells).
Proof.
  unfold mapped. rewrite <- fmap_take, <- fmap_drop.
  rewrite fmap_app, <- !list_fmap_compose. reflexivity.
Qed.

Lemma mapped_all Operation i cells :
  (length cells <= i)%nat ->
  mapped Operation i cells = mapped Operation (length cells) cells.
Proof.
  intros Hi. unfold mapped. by rewrite !take_ge, !drop_ge by lia.
Qed.

Lemma Operation_step Operation s cells i c :
  represents s (mapped Operation i cells) -> cells !! i = Some c ->
  exists s',
    (v <- read_element (c_data c) ;;
     write_element (c_data c) (Operation v)) s = (Return tt, s') /\
    represents s' (mapped Operation (S i) cells).
Proof.
  intros Hrep Hc. pose proof (mapped_lookup Operation i cells c Hc) as Hi.
  eexists. split.
  - rewrite (bind_Return _ _ _ _ _ (read_element_spec s _ i c Hrep Hi)).
    apply (write_element_spec s _ i c _ Hrep Hi).
  - rewrite <- (mapped_S Operation i cells c Hc).
    by apply represents_store.
Qed.

Lemma Map_represents s cells Operation :
  represents s cells ->
  exists s', Algorithms.Map Operation s = (Return tt, s') /\
             represents s' (mapped Operation (length cells) cells).
Proof.
  intros Hrep.
  unshelve epose proof (for_each_cells (R := Empty_set) cells
    (fun i (_ : unit) s' => represents s' (mapped Operation i cells))
    (fun _ s' => represents s' (mapped Operation (length cells) cells)) never
    (fun Element _ =>
       v <- read_element Element ;;
       write_element Element (Operation v) ;;;
       ret (Next tt))
    tt _ _ _) as Hloop; cbv beta.
  4: destruct (triple_never _ _ _ s Hloop) as (r & s' & Hrun & Hrep').
  - intros i a s' Hrep'. eexists. split; [exact Hrep'|]. apply mapped_shape.
  - intros i c0 a Hc0 s' Hrep'.
    destruct (Operation_step Operation s' cells i c0 Hrep' Hc0)
      as (s'' & Hstep & Hrep'').
    unfold bind in *.
    destruct (read_element (c_data c0) s') as [[v|f] s1]; [|done].
    rewrite Hstep. exact Hrep''.
  - done.
  - unfold mapped. by rewrite take_0, drop_0.
  - exists s'. split; [|done]. unfold Algorithms.Map.
    by rewrite (bind_Return _ _ _ _ _ Hrun).
Qed.

Lemma Map_n_represents s cells Size Operation :
  represents s cells -> 0 <= Size < 2 ^ 64 ->
  exists s', Algorithms.Map_n Size Operation s = (Return tt, s') /\
             represents s' (mapped Operation (Z.to_nat Size) cells).
Proof.
  intros Hrep HSize.
  unshelve epose proof (for_each_cells (R := unit) cells
    (fun i Size' s' =>
       Size' = Size - Z.of_nat i /\ 0 <= Size' /\
       represents s' (mapped Operation i cells))
    (fun _ s' => represents s' (mapped Operation (Z.to_nat Size) cells)) never
    (fun Element Size =>
       if decide (Size = 0) then ret (Done tt)
       else
         v <- read_element Element ;;
         write_element Element (Operation v) ;;;
         ret (Next (size_t (Size - 1))))
    Size _ _ _) as Hloop; cbv beta.
  4: destruct (triple_never _ _ _ s Hloop) as (r & s' & Hrun & Hrep').
  - intros i a s' (_ & _ & Hrep'). eexists. split; [exact Hrep'|].
    apply mapped_shape.
  - intros i c0 a Hc0 s' (-> & Hpos & Hrep').
    case_decide as Hzero.
    + replace (Z.to_nat Size) with i by lia. exact Hrep'.
    + destruct (Operation_step Operation s' cells i c0 Hrep' Hc0)
        as (s'' & Hstep & Hrep'').
      unfold bind in *.
      destruct (read_element (c_data c0) s') as [[v|f] s1]; [|done].
      rewrite Hstep. rewrite size_t_small by lia.
      split; [lia|]. split; [lia|done].
  - intros a s' (-> & Hpos & Hrep').
    rewrite (mapped_all Operation (Z.to_nat Size)) by lia. exact Hrep'.
  - split; [lia|]. split; [lia|]. unfold mapped. by rewrite take_0, drop_0.
  - exists s'. split; [|done]. unfold Algorithms.Map_n.
    by rewrite (bind_Return _ _ _ _ _ Hrun).
Qed.

Lemma Reduce_represents s cells Start (Accumulator : T -> T -> T) :
  represents s cells ->
  Algorithms.Reduce Start Accumulator s
  = (Return (foldl Accumulator Start (c_value <$> cells)), s).
Proof.
  intros Hrep.
  unshelve epose proof (for_each_cells (R := Empty_set) cells
    (fun i acc s' =>
       s' = s /\ acc = foldl Accumulator Start (c_value <$> take i cells))
    (fun r s' =>
       s' = s /\ r = Next (foldl Accumulator Start (c_value <$> cells))) never
    (fun Element Start =>
       v <- read_element Element ;;
       ret (Next (Accumulator Start v)))
    Start _ _ _) as Hloop; cbv beta.
  4: destruct (triple_never _ _ _ s Hloop (conj eq_refl eq_refl))
       as (r & s' & Hrun & -> & ->).
  - intros i a s' [-> _]. by apply Shaped_refl.
  - intros i c0 a Hc0 s' [-> ->].
    unfold bind. rewrite (read_element_spec s cells i c0 Hrep Hc0).
    split; [done|]. rewrite (take_S_r cells i c0 Hc0), fmap_app.
    by rewrite foldl_app.
  - intros a s' [-> ->]. by rewrite firstn_all.
  - unfold Algorithms.Reduce. by rewrite (bind_Return _ _ _ _ _ Hrun).
Qed.

Lemma Reduce_n_represents s cells Size Start (Accumulator : T -> T -> T) :
  represents s cells -> 0 <= Size < 2 ^ 64 ->
  Algorithms.Reduce_n Size Start Accumulator s
  = (Return (foldl Accumulator Start
               (take (Z.to_nat Size) (c_value <$> cells))), s).
Proof.
  intros Hrep HSize.
  set (result := foldl Accumulator Start
                   (take (Z.to_nat Size) (c_value <$> cells))).
  unshelve epose proof (for_each_cells (R := T) cells
    (fun i (a : Z * T) s' =>
       s' = s /\ a.1 = Size - Z.of_nat i /\ 0 <= a.1 /\
       a.2 = foldl Accumulator Start (c_value <$> take i cells))
    (fun r s' =>
       s' = s /\
       match r with
       | Next a => a.2 = result
       | Done x => x = result
       end) never
    (fun Element a =>
       let (Size, Start) := a in
       if decide (Size = 0) then ret (Done Start)
       else
         v <- read_element Element ;;
         ret (Next (size_t (Size - 1), Accumulator Start v)))
    (Size, Start) _ _ _) as Hloop; cbv beta.
  4: destruct (triple_never _ _ _ s Hloop) as (r & s' & Hrun & -> & Hr).
  - intros i a s' [-> _]. by apply Shaped_refl.
  - intros i c0 [Size' acc] Hc0 s' (-> & HSize' & Hpos & Hacc).
    cbn [fst snd] in *. subst Size' acc.
    case_decide as Hzero.
    + split; [done|]. unfold result. rewrite <- fmap_take.
      by replace (Z.to_nat Size) with i by lia.
    + unfold bind. rewrite (read_element_spec s cells i c0 Hrep Hc0).
      split; [done|]. cbn [fst snd]. rewrite size_t_small by lia.
      split; [lia|]. split; [lia|].
      rewrite (take_S_r cells i c0 Hc0), fmap_app. by rewrite foldl_app.
  - intros [Size' acc] s' (-> & HSize' & Hpos & Hacc). cbn [fst snd] in *.
    split; [done|]. subst acc. unfold result.
    rewrite firstn_all. by rewrite take_ge by (rewrite length_fmap; lia).
  - cbn [fst snd]. split; [done|]. split; [lia|]. split; [lia|done].
  - unfold Algorithms.Reduce_n. rewrite (bind_Return _ _ _ _ _ Hrun).
    destruct r as [[Size' acc]|x]; cbn [snd] in Hr; by subst.
Qed.

End AlgorithmsProperties.

(** ** Two lists in one memory *)

Section TwoLists.
Context {T : Type} `{!Greater T} `{!Equal T}.
Local Abbreviation cell := (cell T).
Local Abbreviation Memory := (Memory (T := T)).
Implicit Types (s : State T) (cells : list cell) (l : list T) (mem : Memory).

Lemma on_run {A} (m : M (State T) A) mem this f o s' :
  m_lists mem !! this = Some f -> m (state_of mem f) = (o, s') ->
  on this m mem
  = (o, mkMemory (nodes s') (elements s')
                 (<[this := mkFields (size s') (head s') (tail s')]>
                    (m_lists mem))).
Proof.
  intros Hf Hm. unfold on. rewrite Hf.
  change (mkState (m_nodes mem) (m_elements mem) (f_size f) (f_head f)
                  (f_tail f)) with (state_of mem f).
  by rewrite Hm.
Qed.

(** A member function that leaves the list as it is leaves the memory as
    it is. *)
Lemma on_read {A} (m : M (State T) A) mem this f o :
  m_lists mem !! this = Some f -> m (state_of mem f) = (o, state_of mem f) ->
  on this m mem = (o, mem).
Proof.
  intros Hf Hm. rewrite (on_run m mem this f o _ Hf Hm). f_equal.
  destruct mem as [n e ls]. cbn in *. f_equal.
  destruct f. by apply insert_id.
Qed.

(** A list stays the list of its cells when their nodes and element
    objects and its members stay as they are. *)
Lemma represents_frame s s' cells :
  represents s cells ->
  (forall q, q ∈ c_node <$> cells -> nodes s' !! q = nodes s !! q) ->
  (forall d, d ∈ c_data <$> cells -> elements s' !! d = elements s !! d) ->
  size s' = size s -> head s' = head s -> tail s' = tail s ->
  represents s' cells.
Proof.
  intros (Hnd & Hdd & Hcells & Hsize & Hhead & Htail) Hn He Hs Hh Ht.
  split; [done|]. split; [done|]. split; [|by rewrite Hs, Hh, Ht].
  intros i c Hc. destruct (Hcells i c Hc) as [Hnode Helem].
  pose proof (list_elem_of_lookup_2 _ _ _ Hc) as Hin.
  rewrite Hn by (apply list_elem_of_fmap; eauto).
  rewrite He by (apply list_elem_of_fmap; eauto). done.
Qed.

Lemma apart_sym cells1 cells2 : apart cells1 cells2 -> apart cells2 cells1.
Proof. intros [Hn Hd]. split; intros q H1 H2; [by apply (Hn q)|by apply (Hd q)]. Qed.

Lemma apart_nil cells : apart [] cells.
Proof. split; intros q Hq; by apply elem_of_nil in Hq. Qed.

Lemma represents_allocated s cells :
  represents s cells ->
  (forall q, q ∈ c_node <$> cells -> is_Some (nodes s !! q)) /\
  (forall d, d ∈ c_data <$> cells -> is_Some (elements s !! d)).
Proof.
  intros (_ & _ & Hcells & _).
  split; intros q (c & -> & [i Hi]%list_elem_of_lookup)%list_elem_of_fmap;
    destruct (Hcells i c Hi) as [Hn He]; eauto.
Qed.

(** [Clear()] on one list leaves the other as it is. *)
Lemma Clear_other mem this other cells1 cells2 :
  this <> other ->
  list_at mem this cells1 -> list_at mem other cells2 ->
  apart cells1 cells2 ->
  exists mem',
    on this Clear mem = (Return tt, mem') /\
    list_at mem' this [] /\ list_at mem' other cells2 /\
    m_lists mem' !! other = m_lists mem !! other /\
    (forall q, m_nodes mem' !! q
               = if decide (q ∈ c_node <$> cells1) then None
                 else m_nodes mem !! q) /\
    (forall d, m_elements mem' !! d
               = if decide (d ∈ c_data <$> cells1) then None
                 else m_elements mem !! d).
Proof.
  intros Hne (f1 & Hf1 & Hrep1) (f2 & Hf2 & Hrep2) [Han Had].
  destruct (Clear_frees _ cells1 Hrep1) as (s' & Hrun & Hrep' & Hn & He).
  eexists. split; [by apply (on_run Clear mem this f1 _ s' Hf1)|].
  split; [|split; [|split; [|split]]].
  - eexists. cbn [m_lists]. rewrite lookup_insert_eq. split; [done|].
    by destruct s'.
  - exists f2. cbn [m_lists]. rewrite lookup_insert_ne by done.
    split; [done|].
    apply (represents_frame (state_of mem f2)); cbn; try done.
    + intros q Hq. rewrite Hn. rewrite decide_False; [done|].
      intros Hq1. by apply (Han q).
    + intros d Hd. rewrite He. rewrite decide_False; [done|].
      intros Hd1. by apply (Had d).
  - cbn [m_lists]. by rewrite lookup_insert_ne.
  - exact Hn.
  - exact He.
Qed.

(** [PushBack] on one list leaves the other as it is. *)
Lemma PushBack_other mem this other cells1 cells2 v :
  this <> other ->
  list_at mem this cells1 -> list_at mem other cells2 ->
  apart cells1 cells2 -> Z.of_nat (length cells1) < 2 ^ 64 - 1 ->
  exists mem' r c,
    on this (PushBack v) mem = (Return r, mem') /\
    list_at mem' this (cells1 ++ [c]) /\ c_value c = v /\
    list_at mem' other cells2 /\ apart (cells1 ++ [c]) cells2 /\
    m_lists mem' !! other = m_lists mem !! other /\
    (forall q, is_Some (m_nodes mem !! q) -> q <> c_node c) /\
    (forall d, is_Some (m_elements mem !! d) -> d <> c_data c).
Proof.
  intros Hne (f1 & Hf1 & Hrep1) (f2 & Hf2 & Hrep2) [Han Had] Hlen.
  pose proof Hrep1 as (_ & _ & _ & Hsize & _).
  destruct (PushBack_represents _ cells1 v Hrep1 ltac:(lia))
    as (s' & Hrun & Hrep' & He & Hn).
  cbn [nodes elements state_of] in Hrun, Hrep', He, Hn.
  set (p := fresh (dom (m_nodes mem))) in *.
  set (d := fresh (dom (m_elements mem))) in *.
  destruct (represents_allocated _ _ Hrep2) as [Hall2n Hall2d].
  cbn [nodes elements state_of] in Hall2n, Hall2d.
  assert (Hp : forall q, is_Some (m_nodes mem !! q) -> q <> p).
  { intros q Hq ->. apply (is_fresh (dom (m_nodes mem))).
    by apply elem_of_dom. }
  assert (Hd : forall q, is_Some (m_elements mem !! q) -> q <> d).
  { intros q Hq ->. apply (is_fresh (dom (m_elements mem))).
    by apply elem_of_dom. }
  eexists _, _, (Cell p d v).
  split; [by apply (on_run (PushBack v) mem this f1 _ s' Hf1)|].
  split; [|split; [done|split; [|split; [|split; [|split]]]]].
  - eexists. cbn [m_lists]. rewrite lookup_insert_eq. split; [done|].
    by destruct s'.
  - exists f2. cbn [m_lists]. rewrite lookup_insert_ne by done.
    split; [done|].
    apply (represents_frame (state_of mem f2)); cbn; try done.
    + intros q Hq. apply Hn.
      * apply Hp. by apply Hall2n.
      * intros Hq1. by apply (Han q).
    + intros q Hq. rewrite He. apply lookup_insert_ne.
      intros <-. by apply (Hd d (Hall2d d Hq)).
  - split; intros q Hq Hq2; rewrite fmap_app in Hq;
      apply elem_of_app in Hq as [Hq|Hq].
    + by apply (Han q).
    + apply list_elem_of_singleton in Hq as ->.
      by apply (Hp p (Hall2n p Hq2)).
    + by apply (Had q).
    + apply list_elem_of_singleton in Hq as ->.
      by apply (Hd d (Hall2d d Hq2)).
  - cbn [m_lists]. by rewrite lookup_insert_ne.
  - exact Hp.
  - exact Hd.
Qed.

Lemma same_shape_refl cells : same_shape cells cells.
Proof. by split. Qed.

(** The loop of the copy: one [PushBack] on [this] for each element of
    [Copied], from the iterator on. *)
Lemma push_back_loop this Copied cellsB :
  this <> Copied ->
  forall fuel i it mem cellsA,
    list_at mem this cellsA -> list_at mem Copied cellsB ->
    apart cellsA cellsB -> iterator_at cellsB i it ->
    (length cellsB - i <= fuel)%nat -> (i <= length cellsB)%nat ->
    Z.of_nat (length cellsA + (length cellsB - i)) < 2 ^ 64 ->
    exists mem' cellsA',
      range_for (R := Empty_set) (fun n => on Copied (pre_increment n))
        fuel it tt
        (fun Element _ =>
           v <- on Copied (read_element Element) ;;
           on this (PushBack v) ;;;
           ret (Next tt)) mem
      = (Return (Next tt), mem') /\
      list_at mem' this (cellsA ++ cellsA') /\
      c_value <$> cellsA' = c_value <$> drop i cellsB /\
      list_at mem' Copied cellsB /\ apart (cellsA ++ cellsA') cellsB.
Proof.
  intros Hne fuel.
  induction fuel as [|fuel IH];
    intros i it mem cellsA HA HB Hapart Hit Hfuel Hi Hlen;
    pose proof Hit as [Hd Hn].
  - exists mem, []. rewrite app_nil_r.
    cbn [range_for]. rewrite Hd, lookup_ge_None_2 by lia.
    rewrite drop_ge by lia. done.
  - cbn [range_for]. rewrite Hd.
    destruct (cellsB !! i) as [cB|] eqn:HcB; cbn [fmap option_fmap option_map].
    + pose proof (lookup_lt_Some _ _ _ HcB) as Hlt.
      pose proof HB as (fB & HfB & HrepB).
      assert (Hread : on Copied (read_element (c_data cB)) mem
                      = (Return (c_value cB), mem)).
      { apply (on_read _ mem Copied fB _ HfB).
        apply (read_element_spec _ cellsB i cB HrepB HcB). }
      destruct (PushBack_other mem this Copied cellsA cellsB (c_value cB)
                  Hne HA HB Hapart ltac:(lia))
        as (mem1 & r & c & Hpush & HA1 & Hc & HB1 & Hapart1 & _).
      pose proof HB1 as (fB1 & HfB1 & HrepB1).
      destruct (pre_increment_at _ cellsB cellsB i it HrepB1
                  (same_shape_refl cellsB) Hit) as (it' & Hincr & Hit').
      assert (Hincr' : on Copied (pre_increment it) mem1 = (Return it', mem1))
        by (by apply (on_read _ mem1 Copied fB1 _ HfB1)).
      destruct (IH (S i) it' mem1 (cellsA ++ [c]) HA1 HB1 Hapart1 Hit')
        as (mem' & cellsA' & Hrun & HA' & Hv & HB' & Hapart');
        [lia|lia|rewrite length_app; cbn [length]; lia|].
      exists mem', (c :: cellsA'). split; [|split; [|split; [|split]]].
      * eapply bind_eq.
        { rewrite (bind_Return _ _ _ _ _ Hread).
          rewrite (bind_Return _ _ _ _ _ Hpush). reflexivity. }
        cbn beta iota. rewrite (bind_Return _ _ _ _ _ Hincr'). exact Hrun.
      * by rewrite <- app_assoc in HA'.
      * rewrite (drop_S cellsB cB i HcB), !fmap_cons. by rewrite Hc, Hv.
      * done.
      * by rewrite <- app_assoc in Hapart'.
    + apply lookup_ge_None_1 in HcB.
      exists mem, []. rewrite app_nil_r. rewrite drop_ge by lia. done.
Qed.

Lemma push_back_all_copies mem this Copied cellsB :
  this <> Copied ->
  list_at mem this [] -> list_at mem Copied cellsB ->
  Z.of_nat (length cellsB) < 2 ^ 64 ->
  exists mem' cellsA,
    push_back_all this Copied mem = (Return tt, mem') /\
    list_at mem' this cellsA /\
    c_value <$> cellsA = c_value <$> cellsB /\
    list_at mem' Copied cellsB /\ apart cellsA cellsB.
Proof.
  intros Hne HA HB Hlen. pose proof HB as (fB & HfB & HrepB).
  destruct (begin_at _ cellsB HrepB) as (it & Hbegin & Hit).
  assert (Hbegin' : on Copied begin mem = (Return it, mem))
    by (by apply (on_read _ mem Copied fB _ HfB)).
  assert (Hfuel : on Copied (s <- get_state ;; ret (walk_fuel s)) mem
                  = (Return (walk_fuel (state_of mem fB)), mem))
    by (by apply (on_read _ mem Copied fB _ HfB)).
  destruct (push_back_loop this Copied cellsB Hne
              (walk_fuel (state_of mem fB)) 0 it mem [] HA HB
              (apart_nil cellsB) Hit)
    as (mem' & cellsA & Hrun & HA' & Hv & HB' & Hapart').
  - unfold walk_fuel. pose proof (represents_length_le _ _ HrepB). lia.
  - lia.
  - cbn [length]. lia.
  - exists mem', cellsA. split; [|by rewrite drop_0 in Hv].
    unfold push_back_all.
    rewrite (bind_Return _ _ _ _ _ Hbegin'), (bind_Return _ _ _ _ _ Hfuel).
    by rewrite (bind_Return _ _ _ _ _ Hrun).
Qed.

(** Copy assignment between two lists: [this] becomes a list of the
    values of [Copied], in nodes and element objects of its own; [Copied]
    stays as it is, and what [this] had is freed. *)
Lemma copy_assign_apart mem this Copied cellsA cellsB :
  this <> Copied ->
  list_at mem this cellsA -> list_at mem Copied cellsB ->
  apart cellsA cellsB -> Z.of_nat (length cellsB) < 2 ^ 64 ->
  exists mem' cellsA',
    copy_assign this Copied mem = (Return tt, mem') /\
    list_at mem' this cellsA' /\
    c_value <$> cellsA' = c_value <$> cellsB /\
    list_at mem' Copied cellsB /\ apart cellsA' cellsB.
Proof.
  intros Hne HA HB Hapart Hlen.
  destruct (Clear_other mem this Copied cellsA cellsB Hne HA HB Hapart)
    as (mem1 & Hclear & HA1 & HB1 & _).
  destruct (push_back_all_copies mem1 this Copied cellsB Hne HA1 HB1 Hlen)
    as (mem' & cellsA' & Hrun & HA' & Hv & HB' & Hapart').
  exists mem', cellsA'. split; [|done].
  unfold copy_assign. rewrite decide_False by done.
  by rewrite (bind_Return _ _ _ _ _ Hclear).
Qed.

Lemma initialise_other mem this other f cells2 :
  this <> other ->
  m_lists mem !! this = Some f -> list_at mem other cells2 ->
  exists mem',
    on this initialise mem = (Return tt, mem') /\
    list_at mem' this [] /\ list_at mem' other cells2.
Proof.
  intros Hne Hf (f2 & Hf2 & Hrep2).
  eexists. split; [exact (on_run initialise mem this f _ _ Hf eq_refl)|].
  split.
  - eexists. cbn [m_lists]. rewrite lookup_insert_eq. split; [done|].
    unfold represents; cbn. repeat split; try apply NoDup_nil_2; done.
  - exists f2. cbn [m_lists]. rewrite lookup_insert_ne by done.
    split; [done|].
    apply (represents_frame (state_of mem f2)); cbn; done.
Qed.

(** The copy constructor builds a list of the values of [Copied], in
    nodes and element objects of its own; [Copied] stays as it is. *)
Lemma copy_construct_apart mem this Copied f cellsB :
  this <> Copied ->
  m_lists mem !! this = Some f -> list_at mem Copied cellsB ->
  Z.of_nat (length cellsB) < 2 ^ 64 ->
  exists mem' cellsA,
    copy_construct this Copied mem = (Return tt, mem') /\
    list_at mem' this cellsA /\
    c_value <$> cellsA = c_value <$> cellsB /\
    list_at mem' Copied cellsB /\ apart cellsA cellsB.
Proof.
  intros Hne Hf HB Hlen.
  destruct (initialise_other mem this Copied f cellsB Hne Hf HB)
    as (mem1 & Hinit & HA1 & HB1).
  destruct (push_back_all_copies mem1 this Copied cellsB Hne HA1 HB1 Hlen)
    as (mem' & cellsA' & Hrun & HA' & Hv & HB' & Hapart').
  exists mem', cellsA'. split; [|done].
  unfold copy_construct. by rewrite (bind_Return _ _ _ _ _ Hinit).
Qed.

(** The members of [Moved] go to [this], and [Moved] is left empty. *)
Lemma move_members mem this Moved f cellsB :
  this <> Moved ->
  m_lists mem !! this = Some f -> list_at mem Moved cellsB ->
  exists mem',
    (s <- on Moved get_state ;;
     on this (set_size (size s) ;;; set_head (head s) ;;;
              set_tail (tail s)) ;;;
     on Moved (set_size 0 ;;; set_head None ;;; set_tail None)) mem
    = (Return tt, mem') /\
    list_at mem' this cellsB /\ list_at mem' Moved [] /\
    m_nodes mem' = m_nodes mem /\ m_elements mem' = m_elements mem.
Proof.
  intros Hne Hf (fB & HfB & HrepB).
  assert (Hget : on Moved get_state mem = (Return (state_of mem fB), mem))
    by (by apply (on_read _ mem Moved fB _ HfB)).
  eexists. split; [|split; [|split; [|split]]].
  - rewrite (bind_Return _ _ _ _ _ Hget).
    eapply bind_eq; [eapply (on_run _ mem this f); [exact Hf|reflexivity]|].
    eapply (on_run _ _ Moved fB).
    + cbn [m_lists]. by rewrite lookup_insert_ne.
    + reflexivity.
  - eexists. cbn [m_lists]. rewrite lookup_insert_ne by done.
    rewrite lookup_insert_eq. split; [done|].
    apply (represents_frame (state_of mem fB)); cbn; done.
  - eexists. cbn [m_lists]. rewrite lookup_insert_eq. split; [done|].
    unfold represents; cbn. repeat split; try apply NoDup_nil_2; done.
  - done.
  - done.
Qed.

(** Move assignment between two lists: [this] becomes the list of the
    nodes and element objects that [Moved] had, [Moved] becomes empty,
    and what [this] had is freed. *)
Lemma move_assign_apart mem this Moved cellsA cellsB :
  this <> Moved ->
  list_at mem this cellsA -> list_at mem Moved cellsB ->
  apart cellsA cellsB ->
  exists mem',
    move_assign this Moved mem = (Return tt, mem') /\
    list_at mem' this cellsB /\ list_at mem' Moved [] /\
    (forall q, q ∈ c_node <$> cellsA -> m_nodes mem' !! q = None) /\
    (forall d, d ∈ c_data <$> cellsA -> m_elements mem' !! d = None).
Proof.
  intros Hne HA HB Hapart.
  destruct (Clear_other mem this Moved cellsA cellsB Hne HA HB Hapart)
    as (mem1 & Hclear & (f1 & Hf1 & _) & HB1 & _ & Hn & He).
  destruct (move_members mem1 this Moved f1 cellsB Hne Hf1 HB1)
    as (mem' & Hrun & HA' & HB' & Hn' & He').
  exists mem'. split; [|split; [done|split; [done|split]]].
  - unfold move_assign. rewrite decide_False by done.
    by rewrite (bind_Return _ _ _ _ _ Hclear).
  - intros q Hq. rewrite Hn', Hn. by rewrite decide_True.
  - intros d Hd. rewrite He', He. by rewrite decide_True.
Qed.

(** The move constructor makes [this] the list of the nodes and element
    objects that [Moved] had, and leaves [Moved] empty. *)
Lemma move_construct_apart mem this Moved f cellsB :
  this <> Moved ->
  m_lists mem !! this = Some f -> list_at mem Moved cellsB ->
  exists mem',
    move_construct this Moved mem = (Return tt, mem') /\
    list_at mem' this cellsB /\ list_at mem' Moved [] /\
    m_nodes mem' = m_nodes mem /\ m_elements mem' = m_elements mem.
Proof.
  intros Hne Hf HB. by apply (move_members mem this Moved f).
Qed.

(** X19: Copy assignment between two lists makes [this] a list of the values
    of [Copied], in nodes and element objects of its own, and frees what
    [this] had; the copy constructor builds such a list in an object
    whose members hold anything.  [Copied] stays as it is. *)
Theorem copies_are_deep mem this Copied cellsB :
  this <> Copied ->
  list_at mem Copied cellsB -> Z.of_nat (length cellsB) < 2 ^ 64 ->
  (forall cellsA,
     list_at mem this cellsA -> apart cellsA cellsB ->
     exists mem' cellsA',
       copy_assign this Copied mem = (Return tt, mem') /\
       list_at mem' this cellsA' /\
       c_value <$> cellsA' = c_value <$> cellsB /\
       list_at mem' Copied cellsB /\ apart cellsA' cellsB) /\
  (forall f,
     m_lists mem !! this = Some f ->
     exists mem' cellsA,
       copy_construct this Copied mem = (Return tt, mem') /\
       list_at mem' this cellsA /\
       c_value <$> cellsA = c_value <$> cellsB /\
       list_at mem' Copied cellsB /\ apart cellsA cellsB).
Proof.
  intros Hne HB Hlen. split.
  - intros cellsA HA Hapart.
    by apply (copy_assign_apart mem this Copied cellsA cellsB).
  - intros f Hf. by apply (copy_construct_apart mem this Copied f).
Qed.

(** X20: Move assignment between two lists makes [this] the list of the
    nodes and element objects that [Moved] had, leaves [Moved] empty and
    frees what [this] had; the move constructor does the same for an
    object whose members hold anything, and changes nothing else in the
    memory. *)
Theorem moves_transfer mem this Moved cellsB :
  this <> Moved -> list_at mem Moved cellsB ->
  (forall cellsA,
     list_at mem this cellsA -> apart cellsA cellsB ->
     exists mem',
       move_assign this Moved mem = (Return tt, mem') /\
       list_at mem' this cellsB /\ list_at mem' Moved [] /\
       (forall q, q ∈ c_node <$> cellsA -> m_nodes mem' !! q = None) /\
       (forall d, d ∈ c_data <$> cellsA -> m_elements mem' !! d = None)) /\
  (forall f,
     m_lists mem !! this = Some f ->
     exists mem',
       move_construct this Moved mem = (Return tt, mem') /\
       list_at mem' this cellsB /\ list_at mem' Moved [] /\
       m_nodes mem' = m_nodes mem /\ m_elements mem' = m_elements mem).
Proof.
  intros Hne HB. split.
  - intros cellsA HA Hapart.
    by apply (move_assign_apart mem this Moved cellsA cellsB).
  - intros f Hf. by apply (move_construct_apart mem this Moved f).
Qed.

End TwoLists.

(** ** The parts of the sorts, on arrays *)

Section ArrayParts.
Context {T : Type} `{!Greater T}.
Implicit Types (a pre post : list T) (cmp : T -> T -> bool).

Lemma sortedb_adjacent cmp a :
  sortedb cmp a = true <->
  forall i x y, a !! i = Some x -> a !! S i = Some y -> cmp x y = false.
Proof.
  induction a as [|x [|y a] IH].
  - split; [|done]. intros _ i x y Hx. by rewrite lookup_nil in Hx.
  - split; [|done]. intros _ [|i] x' y Hx Hy; simplify_eq/=.
  - cbn [sortedb]. rewrite andb_true_iff, negb_true_iff, IH. split.
    + intros [Hxy Hrest] [|i] x' y' Hx Hy; simplify_eq/=; [done|].
      by apply (Hrest i).
    + intros Hall. split; [by apply (Hall 0%nat)|].
      intros i x' y' Hx Hy. by apply (Hall (S i)).
Qed.

Lemma sortedb_false cmp a :
  sortedb cmp a = false ->
  exists i x y, a !! i = Some x /\ a !! S i = Some y /\ cmp x y = true.
Proof.
  induction a as [|x [|y a] IH]; [done|done|].
  cbn [sortedb]. rewrite andb_false_iff, negb_false_iff.
  intros [Hxy|Hrest].
  - by exists 0%nat, x, y.
  - destruct (IH Hrest) as (i & x' & y' & Hx & Hy & Hxy).
    by exists (S i), x', y'.
Qed.

(** X21: On an array of at least one element, [IsSorted] returns false
    exactly when the comparer holds of two neighbours, and leaves the
    array as it is. *)
Theorem IsSorted_of_an_array cmp a :
  1 <= Z.of_nat (length a) < 2 ^ 64 ->
  exists b,
    Sorting.IsSorted (Z.of_nat (length a)) cmp a = (Return b, a) /\
    (b = false <->
     exists i x y, a !! i = Some x /\ a !! S i = Some y /\ cmp x y = true).
Proof.
  intros Hlen. exists (sortedb cmp a). split; [by apply IsSorted_array|].
  destruct (sortedb cmp a) eqn:Hs.
  - split; [done|]. intros (i & x & y & Hx & Hy & Hxy).
    pose proof (proj1 (sortedb_adjacent cmp a) Hs) as Hs'.
    by rewrite (Hs' i x y Hx Hy) in Hxy.
  - split; [|done]. intros _. by apply sortedb_false.
Qed.

(** X22: [Merge] on two neighbouring segments that are sorted: the segments
    are replaced by their elements in sorted order, and the rest of the
    array stays as it is. *)
Theorem Merge_merges cmp pre Left Right post Begin Middle End :
  (forall x y, cmp x y = true -> cmp y x = false) ->
  Begin = Z.of_nat (length pre) ->
  Middle = Begin + Z.of_nat (length Left) - 1 ->
  End = Middle + Z.of_nat (length Right) ->
  Z.of_nat (length (pre ++ Left ++ Right ++ post)) < 2 ^ 63 ->
  Sorted (precedes cmp) Left -> Sorted (precedes cmp) Right ->
  exists merged,
    Sorting.Merge Begin Middle End cmp (pre ++ Left ++ Right ++ post)
    = (Return tt, pre ++ merged ++ post) /\
    Sorted (precedes cmp) merged /\ merged ≡ₚ Left ++ Right.
Proof.
  intros Hasym HBegin HMiddle HEnd Hlen HL HR.
  assert (Htotal : base.Total (precedes cmp)).
  { intros x y. unfold precedes. destruct (cmp x y) eqn:Hxy; [|by left].
    right. by apply Hasym. }
  exists (list_merge (precedes cmp) Left Right). split; [|split].
  - by apply Merge_array.
  - by apply Sorted_list_merge.
  - apply merge_Permutation.
Qed.

(** X23: [Partition] with the last element of the segment as the pivot: the
    elements for which the comparer with the pivot is false come before
    the pivot, those for which it holds after it, and the rest of the
    array stays as it is; the result is the index of the pivot. *)
Theorem Partition_splits cmp pre seg p post Low High :
  Low = Z.of_nat (length pre) -> High = Low + Z.of_nat (length seg) ->
  Z.of_nat (length pre + length seg + 1) < 2 ^ 63 ->
  exists small large,
    Sorting.Partition (C := list T) Low High (Z.to_nat High) cmp
      (pre ++ seg ++ p :: post)
    = (Return (Low + Z.of_nat (length small)),
       pre ++ small ++ p :: large ++ post) /\
    small ++ large ≡ₚ seg /\
    Forall (fun z => cmp z p = false) small /\
    Forall (fun z => cmp z p = true) large.
Proof. apply Partition_array. Qed.

(** X24: [Algorithms::Sort(Size, Collection, Comparer)] on an array: whatever
    the comparer is, the result is in the order of [operator>], and it is
    a permutation of the array. *)
Theorem Sort_sorts_by_GreaterThan (Comparer : T -> T -> bool) a :
  strict_total_order (Sorting.GreaterThan (T := T)) ->
  1 <= Z.of_nat (length a) < 2 ^ 63 ->
  exists a',
    Algorithms.Sort_n (Z.of_nat (length a)) Comparer a = (Return tt, a') /\
    Sorted (precedes Sorting.GreaterThan) a' /\ a' ≡ₚ a.
Proof. intros Horder Hlen. by apply QuickSort_array. Qed.

End ArrayParts.

(** ** What a user of the list, the stack and the algorithms can rely on *)

Section Users.
Context {T : Type} `{!Greater T} `{!Equal T}.
Local Abbreviation cell := (cell T).
Implicit Types (s : State T) (cells : list cell) (l : list T).

(** X8: [Swap(Left, Right)] exchanges the elements that [Get(Left)] and
    [Get(Right)] read, and changes no other element. *)
Theorem Swap_exchanges s l Left Right :
  holds s l -> 0 <= Left < size s -> 0 <= Right < size s ->
  size s < 2 ^ 64 ->
  exists x y s',
    l !! Z.to_nat (Traverse_index (size s) Left) = Some x /\
    l !! Z.to_nat (Traverse_index (size s) Right) = Some y /\
    Swap Left Right s = (Return tt, s') /\
    holds s' (<[Z.to_nat (Traverse_index (size s) Right) := x]>
                (<[Z.to_nat (Traverse_index (size s) Left) := y]> l)).
Proof. apply Swap_holds. Qed.

(** X9: [PushBack(Value)] appends [Value] and returns a reference to the new
    element; [PushFront(Value)] puts [Value] in front of the elements. *)
Theorem PushBack_and_PushFront s l Value :
  holds s l -> size s < 2 ^ 64 - 1 ->
  (exists r s',
     PushBack Value s = (Return r, s') /\
     holds s' (l ++ [Value]) /\ read_element r s' = (Return Value, s')) /\
  (exists r s',
     PushFront Value s = (Return r, s') /\ holds s' (Value :: l)).
Proof.
  intros Hholds Hsz. split.
  - by apply PushBack_holds.
  - by apply PushFront_holds.
Qed.

(** X11: [Erase(Index)] removes the element that [Get(Index)] reads. *)
Theorem Erase_removes s l Index :
  holds s l -> 0 <= Index < size s -> size s < 2 ^ 64 ->
  exists s',
    Erase Index s = (Return tt, s') /\
    holds s' (delete (Z.to_nat (Traverse_index (size s) Index)) l) /\
    size s' = size s - 1.
Proof. apply Erase_holds. Qed.

(** X12: [PopFront()] removes the first element and [PopBack()] the last. *)
Theorem PopFront_and_PopBack s l v :
  size s < 2 ^ 64 ->
  (holds s (v :: l) ->
   exists s', PopFront s = (Return tt, s') /\ holds s' l) /\
  (holds s (l ++ [v]) ->
   exists s', PopBack s = (Return tt, s') /\ holds s' l).
Proof. apply Pop_holds. Qed.

(** X13: [Clear()] leaves the empty list; of the memory it frees the nodes
    and the element objects of the list, and nothing else. *)
Theorem Clear_releases s cells :
  represents s cells ->
  exists s',
    Clear s = (Return tt, s') /\ holds s' [] /\ size s' = 0 /\
    (forall q, nodes s' !! q = if decide (q ∈ c_node <$> cells) then None
                               else nodes s !! q) /\
    (forall d, elements s' !! d = if decide (d ∈ c_data <$> cells) then None
                                  else elements s !! d).
Proof.
  intros Hrep.
  destruct (Clear_frees s cells Hrep) as (s' & Hrun & Hrep' & Hn & He).
  exists s'. split; [done|]. split; [by exists []|].
  split; [|done]. by destruct Hrep' as (_ & _ & _ & ? & _).
Qed.

(** X25: [Pop()] returns the element at the back and removes it; [Peek()]
    returns a reference to it and leaves the stack as it is. *)
Theorem Stack_Pop_takes_the_back s l v :
  holds s (l ++ [v]) -> size s < 2 ^ 64 ->
  (exists s', Stack.Pop s = (Return (inr v), s') /\ holds s' l) /\
  (exists r, Stack.Peek s = (Return (inr r), s) /\
             read_element r s = (Return v, s)).
Proof. apply Stack_Pop_holds. Qed.

(** X29: [Map(Collection, Operation)] on a list runs the operation on every
    element, and [Map(Size, Collection, Operation)] on the first [Size]
    elements, or on all when there are fewer. *)
Theorem Map_maps s l Size (Operation : T -> T) :
  holds s l -> 0 <= Size < 2 ^ 64 ->
  (exists s', Algorithms.Map Operation s = (Return tt, s') /\
              holds s' (Operation <$> l)) /\
  (exists s', Algorithms.Map_n Size Operation s = (Return tt, s') /\
              holds s' ((Operation <$> take (Z.to_nat Size) l)
                        ++ drop (Z.to_nat Size) l)).
Proof.
  intros (cells & Hrep & <-) HSize. split.
  - destruct (Map_represents s cells Operation Hrep) as (s' & Hrun & Hrep').
    exists s'. split; [done|]. eexists. split; [exact Hrep'|].
    rewrite mapped_values, <- (length_fmap c_value).
    by rewrite firstn_all, drop_all, app_nil_r.
  - destruct (Map_n_represents s cells Size Operation Hrep HSize)
      as (s' & Hrun & Hrep').
    exists s'. split; [done|]. eexists. split; [exact Hrep'|].
    apply mapped_values.
Qed.

(** X30: [Reduce(Collection, Start, Accumulator)] on a list folds the
    accumulator over the elements from the first to the last, and
    [Reduce(Size, Collection, Start, Accumulator)] over the first [Size]
    elements, or over all when there are fewer; the list stays as it
    is. *)
Theorem Reduce_folds s l Size Start (Accumulator : T -> T -> T) :
  holds s l -> 0 <= Size < 2 ^ 64 ->
  Algorithms.Reduce Start Accumulator s
  = (Return (foldl Accumulator Start l), s) /\
  Algorithms.Reduce_n Size Start Accumulator s
  = (Return (foldl Accumulator Start (take (Z.to_nat Size) l)), s).
Proof.
  intros (cells & Hrep & <-) HSize. split.
  - by apply Reduce_represents.
  - by apply Reduce_n_represents.
Qed.

End Users.

(** ** Instances *)

Lemma NoDup_by_decide {X} `{EqDecision X} (l : list X) :
  bool_decide (NoDup l) = true -> NoDup l.
Proof. apply bool_decide_eq_true_1. Qed.

Lemma example_list_holds : holds example_list example_values.
Proof. apply list_of_holds. vm_compute. reflexivity. Qed.

Lemma example_list_represents : represents example_list example_cells.
Proof.
  split; [by apply NoDup_by_decide|]. split; [by apply NoDup_by_decide|].
  split; [|by vm_compute].
  intros i c Hc.
  do 5 (destruct i as [|i]; [injection Hc as <-; split; reflexivity|]).
  by cbn in Hc.
Qed.

Lemma example_memory_lists :
  list_at example_memory 10%positive
    [Cell 1%positive 1%positive 3; Cell 2%positive 2%positive 1] /\
  list_at example_memory 20%positive [Cell 3%positive 3%positive 4] /\
  apart [Cell 1%positive 1%positive 3; Cell 2%positive 2%positive 1]
        [Cell 3%positive 3%positive 4 : cell Z].
Proof.
  split; [|split].
  - eexists. split; [reflexivity|].
    split; [by apply NoDup_by_decide|]. split; [by apply NoDup_by_decide|].
    split; [|by vm_compute].
    intros i c Hc.
    do 2 (destruct i as [|i]; [injection Hc as <-; split; reflexivity|]).
    by cbn in Hc.
  - eexists. split; [reflexivity|].
    split; [by apply NoDup_by_decide|]. split; [by apply NoDup_by_decide|].
    split; [|by vm_compute].
    intros i c Hc.
    do 1 (destruct i as [|i]; [injection Hc as <-; split; reflexivity|]).
    by cbn in Hc.
  - split; intros q Hq Hq'; cbn in Hq, Hq';
      apply list_elem_of_singleton in Hq' as ->;
      apply elem_of_cons in Hq as [Hq|Hq]; [done| |done|];
      by apply list_elem_of_singleton in Hq.
Qed.

(** ** Instances of the theorems *)

Ltac in_range :=
  vm_compute; repeat split; first [reflexivity | discriminate].

(** X1, an instance: [Get(3)] on the list [3,1,4,1,5], which reads the
    element at position 1. *)
Lemma Get_returns_witness :
  exists v,
    value_of (Get 3) example_list = (Return v, example_list) /\
    example_values
      !! Z.to_nat (if decide (3 <= size example_list / 2
                              \/ 3 = size example_list - 1)
                   then 3 else 3 - 2) = Some v.
Proof.
  apply (Get_returns example_list example_values 3);
    [exact example_list_holds|in_range|in_range].
Defined.

(** X2, an instance: [Set(3, 9)] on the list [3,1,4,1,5]. *)
Lemma Set_then_Get_witness :
  exists s',
    Set_ 3 9 example_list = (Return tt, s') /\
    value_of (Get 3) s' = (Return 9, s') /\
    holds s' (<[Z.to_nat (Traverse_index (size example_list) 3) := 9]>
                example_values).
Proof.
  apply (Set_then_Get example_list example_values 3 9);
    [exact example_list_holds|in_range|in_range].
Defined.

(** X3, an instance: [Find(1)] on the list [3,1,4,1,5]. *)
Lemma Find_first_match_witness :
  exists r,
    Find 1 example_list = (Return r, example_list) /\
    ((r = -1 /\ forall v, v ∈ example_values -> equal 1 v = false) \/
     (0 <= r /\
      exists v, example_values !! Z.to_nat r = Some v /\ equal 1 v = true /\
                forall j w, (j < Z.to_nat r)%nat ->
                            example_values !! j = Some w ->
                            equal 1 w = false)).
Proof.
  apply (Find_first_match example_list example_values 1);
    [exact example_list_holds|in_range].
Defined.

(** X4, an instance: [FindLast(1)] on the list [3,1,4,1,5]. *)
Lemma FindLast_last_match_witness :
  exists r,
    FindLast 1 example_list = (Return r, example_list) /\
    ((r = -1 /\ forall v, v ∈ example_values -> equal 1 v = false) \/
     (0 <= r /\
      exists v, example_values !! Z.to_nat r = Some v /\ equal 1 v = true /\
                forall j w, (Z.to_nat r < j)%nat ->
                            example_values !! j = Some w ->
                            equal 1 w = false)).
Proof.
  apply (FindLast_last_match example_list example_values 1);
    [exact example_list_holds|in_range].
Defined.

(** X5, an instance: [Total(1)] and [Contains(1)] on the list [3,1,4,1,5]. *)
Lemma Total_and_Contains_witness :
  Total 1 example_list
  = (Return (Z.of_nat (length (List.filter (equal 1) example_values))),
     example_list) /\
  Contains 1 example_list
  = (Return (existsb (equal 1) example_values), example_list).
Proof.
  apply (Total_and_Contains example_list example_values 1);
    [exact example_list_holds|in_range].
Defined.

(** X6, an instance: the list [3,1,4,1,5]. *)
Lemma iteration_visits_all_witness :
  contents example_list = (Return example_values, example_list) /\
  Size example_list
  = (Return (Z.of_nat (length example_values)), example_list).
Proof.
  apply (iteration_visits_all example_list example_values).
  exact example_list_holds.
Defined.

(** X7, an instance: [Fill(0)] on the list [3,1,4,1,5]. *)
Lemma Fill_sets_every_element_witness :
  exists s', Fill 0 example_list = (Return tt, s') /\
             holds s' (replicate (length example_values) 0).
Proof.
  apply (Fill_sets_every_element example_list example_values 0).
  exact example_list_holds.
Defined.

(** X8, an instance: [Swap(1, 3)] on the list [3,1,4,1,5]. *)
Lemma Swap_exchanges_witness :
  exists x y s',
    example_values !! Z.to_nat (Traverse_index (size example_list) 1)
    = Some x /\
    example_values !! Z.to_nat (Traverse_index (size example_list) 3)
    = Some y /\
    Swap 1 3 example_list = (Return tt, s') /\
    holds s' (<[Z.to_nat (Traverse_index (size example_list) 3) := x]>
                (<[Z.to_nat (Traverse_index (size example_list) 1) := y]>
                   example_values)).
Proof.
  apply (Swap_exchanges example_list example_values 1 3);
    [exact example_list_holds|in_range|in_range|in_range].
Defined.

(** X9, an instance: [PushBack(9)] and [PushFront(9)] on the list
    [3,1,4,1,5]. *)
Lemma PushBack_and_PushFront_witness :
  (exists r s',
     PushBack 9 example_list = (Return r, s') /\
     holds s' (example_values ++ [9]) /\
     read_element r s' = (Return 9, s')) /\
  (exists r s',
     PushFront 9 example_list = (Return r, s') /\
     holds s' (9 :: example_values)).
Proof.
  apply (PushBack_and_PushFront example_list example_values 9);
    [exact example_list_holds|in_range].
Defined.

(** X10, an instance: [Insert(3, 9)] into the list [3,1,4,1,5]. *)
Lemma Insert_inserts_witness :
  exists r s',
    Insert 3 9 example_list = (Return r, s') /\
    holds s' (insert_at (Z.to_nat (Insert_index (size example_list) 3)) 9
                example_values) /\
    read_element r s' = (Return 9, s') /\
    size s' = size example_list + 1.
Proof.
  apply (Insert_inserts example_list example_values 3 9);
    [exact example_list_holds|in_range|in_range].
Defined.

(** X11, an instance: [Erase(3)] on the list [3,1,4,1,5]. *)
Lemma Erase_removes_witness :
  exists s',
    Erase 3 example_list = (Return tt, s') /\
    holds s' (delete (Z.to_nat (Traverse_index (size example_list) 3))
                example_values) /\
    size s' = size example_list - 1.
Proof.
  apply (Erase_removes example_list example_values 3);
    [exact example_list_holds|in_range|in_range].
Defined.

(** X12, an instance: [PopFront()] and [PopBack()] on the list [3,1,4,1,5]. *)
Lemma PopFront_and_PopBack_witness :
  (exists s', PopFront example_list = (Return tt, s') /\
              holds s' [1; 4; 1; 5]) /\
  (exists s', PopBack example_list = (Return tt, s') /\
              holds s' [3; 1; 4; 1]).
Proof.
  split.
  - apply (PopFront_and_PopBack example_list [1; 4; 1; 5] 3);
      [in_range|exact example_list_holds].
  - apply (PopFront_and_PopBack example_list [3; 1; 4; 1] 5);
      [in_range|exact example_list_holds].
Defined.

(** X13, an instance: [Clear()] on the list [3,1,4,1,5]. *)
Lemma Clear_releases_witness :
  exists s',
    Clear example_list = (Return tt, s') /\ holds s' [] /\ size s' = 0 /\
    (forall q, nodes s' !! q
               = if decide (q ∈ c_node <$> example_cells) then None
                 else nodes example_list !! q) /\
    (forall d, elements s' !! d
               = if decide (d ∈ c_data <$> example_cells) then None
                 else elements example_list !! d).
Proof.
  apply (Clear_releases example_list example_cells).
  exact example_list_represents.
Defined.

(** X14, an instance: [List(3, 7)] in an empty memory. *)
Lemma List_fill_builds_witness :
  exists s,
    List_fill 3 7 (empty_list (T := Z)) = (Return tt, s) /\
    holds s (replicate (Z.to_nat 3) 7) /\
    destroy s
    = (Return tt,
       mkState (nodes (empty_list (T := Z))) (elements (empty_list (T := Z)))
               0 None None).
Proof. apply (List_fill_builds (empty_list (T := Z)) 3 7). in_range. Defined.

(** X15, an instance: [List(2, Array)] and [List(4, Array)] for the array
    [7,8,9], and the list of the initializer list [7,8,9], in an empty
    memory. *)
Lemma List_array_builds_witness :
  (exists s,
     List_array 2 [7; 8; 9] (empty_list (T := Z)) = (Return tt, s) /\
     holds s (take (Z.to_nat 2) [7; 8; 9]) /\
     destroy s
     = (Return tt,
        mkState (nodes (empty_list (T := Z)))
                (elements (empty_list (T := Z))) 0 None None)) /\
  fst (List_array 4 [7; 8; 9] (empty_list (T := Z)))
  = Fail undefined_behaviour /\
  (exists s,
     List_initializer_list [7; 8; 9] (empty_list (T := Z)) = (Return tt, s) /\
     holds s [7; 8; 9] /\
     destroy s
     = (Return tt,
        mkState (nodes (empty_list (T := Z)))
                (elements (empty_list (T := Z))) 0 None None)).
Proof.
  split; [|split].
  - apply (List_array_builds (empty_list (T := Z)) 2 [7; 8; 9]);
      in_range.
  - apply (List_array_builds (empty_list (T := Z)) 4 [7; 8; 9]);
      in_range.
  - apply (List_array_builds (empty_list (T := Z)) 2 [7; 8; 9]);
      in_range.
Defined.

(** X16, an instance: [it++] at the nodes 3 and 4 of the list [3,1,4,1,5]. *)
Lemma post_increment_at_witness :
  post_increment (node_at example_cells 3) example_list
  = (Return (node_at example_cells 4, 4%positive), example_list) /\
  post_increment (node_at example_cells 4) example_list
  = (Fail undefined_behaviour, example_list).
Proof.
  split.
  - apply (proj1 (post_increment_at example_list example_cells 3
                    (Cell 4%positive 4%positive 1)
                    example_list_represents eq_refl)
             (Cell 5%positive 5%positive 5)).
    reflexivity.
  - apply (post_increment_at example_list example_cells 4
             (Cell 5%positive 5%positive 5));
      [exact example_list_represents|reflexivity|reflexivity].
Defined.


(** X18, an instance: [Reverse()] and [Shuffle()] on the list [3,1,4,1,5],
    with the random numbers [7 * k + 3]. *)
Lemma Reverse_and_Shuffle_permute_witness :
  (exists s' l', Reverse example_list = (Return tt, s') /\ holds s' l' /\
                 l' ≡ₚ example_values) /\
  (exists s' l', Shuffle (fun k => 7 * k + 3) example_list = (Return tt, s') /\
                 holds s' l' /\ l' ≡ₚ example_values).
Proof.
  apply (Reverse_and_Shuffle_permute example_list example_values
           (fun k => 7 * k + 3));
    [exact example_list_holds|in_range].
Defined.

(** X19, an instance: the list [3,1] at 10 and the list [4] at 20, copied
    from 20 to 10. *)
Lemma copies_are_deep_witness :
  (exists mem' cellsA',
     copy_assign 10%positive 20%positive example_memory
     = (Return tt, mem') /\
     list_at mem' 10%positive cellsA' /\
     c_value <$> cellsA' = c_value <$> [Cell 3%positive 3%positive 4] /\
     list_at mem' 20%positive [Cell 3%positive 3%positive 4] /\
     apart cellsA' [Cell 3%positive 3%positive 4]) /\
  (exists mem' cellsA,
     copy_construct 10%positive 20%positive example_memory
     = (Return tt, mem') /\
     list_at mem' 10%positive cellsA /\
     c_value <$> cellsA = c_value <$> [Cell 3%positive 3%positive 4] /\
     list_at mem' 20%positive [Cell 3%positive 3%positive 4] /\
     apart cellsA [Cell 3%positive 3%positive 4]).
Proof.
  assert (10%positive <> 20%positive) as Hne by discriminate.
  assert (Z.of_nat (length [Cell 3%positive 3%positive 4]) < 2 ^ 64)
    as Hlen by reflexivity.
  split.
  - apply (proj1 (copies_are_deep example_memory 10%positive 20%positive
                    [Cell 3%positive 3%positive 4] Hne
                    (proj1 (proj2 example_memory_lists)) Hlen)
             [Cell 1%positive 1%positive 3; Cell 2%positive 2%positive 1]);
      apply example_memory_lists.
  - apply (proj2 (copies_are_deep example_memory 10%positive 20%positive
                    [Cell 3%positive 3%positive 4] Hne
                    (proj1 (proj2 example_memory_lists)) Hlen)
             (mkFields 2 (Some 1%positive) (Some 2%positive))).
    reflexivity.
Defined.

(** X20, an instance: the list [3,1] at 10 and the list [4] at 20, moved
    from 20 to 10. *)
Lemma moves_transfer_witness :
  (exists mem',
     move_assign 10%positive 20%positive example_memory
     = (Return tt, mem') /\
     list_at mem' 10%positive [Cell 3%positive 3%positive 4] /\
     list_at mem' 20%positive [] /\
     (forall q,
        q ∈ c_node <$> [Cell 1%positive 1%positive 3;
                        Cell 2%positive 2%positive 1] ->
        m_nodes mem' !! q = None) /\
     (forall d,
        d ∈ c_data <$> [Cell 1%positive 1%positive 3;
                        Cell 2%positive 2%positive 1] ->
        m_elements mem' !! d = None)) /\
  (exists mem',
     move_construct 10%positive 20%positive example_memory
     = (Return tt, mem') /\
     list_at mem' 10%positive [Cell 3%positive 3%positive 4] /\
     list_at mem' 20%positive [] /\
     m_nodes mem' = m_nodes example_memory /\
     m_elements mem' = m_elements example_memory).
Proof.
  assert (10%positive <> 20%positive) as Hne by discriminate.
  split.
  - apply (proj1 (moves_transfer example_memory 10%positive 20%positive
                    [Cell 3%positive 3%positive 4] Hne
                    (proj1 (proj2 example_memory_lists)))
             [Cell 1%positive 1%positive 3; Cell 2%positive 2%positive 1]);
      apply example_memory_lists.
  - apply (proj2 (moves_transfer example_memory 10%positive 20%positive
                    [Cell 3%positive 3%positive 4] Hne
                    (proj1 (proj2 example_memory_lists)))
             (mkFields 2 (Some 1%positive) (Some 2%positive))).
    reflexivity.
Defined.

(** X21, an instance: the array [1,3,2] and [>]. *)
Lemma IsSorted_of_an_array_witness :
  exists b,
    Sorting.IsSorted (Z.of_nat (length [1; 3; 2])) Z.gtb [1; 3; 2]
    = (Return b, [1; 3; 2]) /\
    (b = false <->
     exists i x y, [1; 3; 2] !! i = Some x /\ [1; 3; 2] !! S i = Some y /\
                   Z.gtb x y = true).
Proof. apply (IsSorted_of_an_array Z.gtb [1; 3; 2]). in_range. Defined.

(** X22, an instance: the runs [1,3] and [2,4] between the elements 9 and 0
    of an array. *)
Lemma Merge_merges_witness :
  exists merged,
    Sorting.Merge 1 2 4 Z.gtb ([9] ++ [1; 3] ++ [2; 4] ++ [0])
    = (Return tt, [9] ++ merged ++ [0]) /\
    Sorted (precedes Z.gtb) merged /\ merged ≡ₚ [1; 3] ++ [2; 4].
Proof.
  apply (Merge_merges Z.gtb [9] [1; 3] [2; 4] [0] 1 2 4).
  - intros x y. lia.
  - reflexivity.
  - reflexivity.
  - reflexivity.
  - in_range.
  - repeat constructor.
  - repeat constructor.
Defined.

(** X23, an instance: the segment [3,1] with the pivot 2 between the
    elements 9 and 0 of an array. *)
Lemma Partition_splits_witness :
  exists small large,
    Sorting.Partition (C := list Z) 1 3 (Z.to_nat 3) Z.gtb
      ([9] ++ [3; 1] ++ 2 :: [0])
    = (Return (1 + Z.of_nat (length small)),
       [9] ++ small ++ 2 :: large ++ [0]) /\
    small ++ large ≡ₚ [3; 1] /\
    Forall (fun z => Z.gtb z 2 = false) small /\
    Forall (fun z => Z.gtb z 2 = true) large.
Proof.
  apply (Partition_splits Z.gtb [9] [3; 1] 2 [0] 1 3);
    [reflexivity|reflexivity|in_range].
Defined.

(** X24, an instance: the array [3,1,2] of integers. *)
Lemma Sort_sorts_by_GreaterThan_witness :
  exists a',
    Algorithms.Sort_n (Z.of_nat (length [3; 1; 2])) LessThan [3; 1; 2]
    = (Return tt, a') /\
    Sorted (precedes Sorting.GreaterThan) a' /\ a' ≡ₚ [3; 1; 2].
Proof.
  apply (Sort_sorts_by_GreaterThan LessThan [3; 1; 2]);
    [exact Z_gtb_order|in_range].
Defined.

(** X25, an instance: [Pop()] and [Peek()] on the stack of the list
    [3,1,4,1,5]. *)
Lemma Stack_Pop_takes_the_back_witness :
  (exists s', Stack.Pop example_list = (Return (inr 5), s') /\
              holds s' [3; 1; 4; 1]) /\
  (exists r, Stack.Peek example_list = (Return (inr r), example_list) /\
             read_element r example_list = (Return 5, example_list)).
Proof.
  apply (Stack_Pop_takes_the_back example_list [3; 1; 4; 1] 5);
    [exact example_list_holds|in_range].
Defined.

(** X26, an instance: [PopLast()], [PeekLast()] and [PushLast] on the stack
    of the list [3,1,4,1,5]. *)
Lemma Stack_PopLast_takes_the_front_witness :
  (exists s', Stack.PopLast example_list = (Return (inr 3), s') /\
              holds s' [1; 4; 1; 5]) /\
  (exists r, Stack.PeekLast example_list = (Return (inr r), example_list) /\
             read_element r example_list = (Return 3, example_list)) /\
  (forall Value, exists s',
     Stack.PushLast Value example_list = (Return tt, s') /\
     holds s' (Value :: 3 :: [1; 4; 1; 5])).
Proof.
  apply (Stack_PopLast_takes_the_front example_list [1; 4; 1; 5] 3);
    [exact example_list_holds|in_range].
Defined.

(** X27, an instance: [Push(9)] and [Pop()] on the stack of the list
    [3,1,4,1,5]. *)
Lemma Stack_Push_then_Pop_witness :
  exists s1 s2,
    Stack.Push 9 example_list = (Return tt, s1) /\
    holds s1 (example_values ++ [9]) /\
    Stack.Pop s1 = (Return (inr 9), s2) /\ holds s2 example_values.
Proof.
  apply (Stack_Push_then_Pop example_list example_values 9);
    [exact example_list_holds|in_range].
Defined.

(** X28, an instance: the empty stack of integers. *)
Lemma Stack_empty_throws_witness :
  Stack.Pop (empty_list (T := Z))
  = (Return (inl Stack.stack_is_empty), empty_list) /\
  Stack.PopLast (empty_list (T := Z))
  = (Return (inl Stack.stack_is_empty), empty_list) /\
  Stack.Peek (empty_list (T := Z))
  = (Return (inl Stack.stack_is_empty), empty_list) /\
  Stack.PeekLast (empty_list (T := Z))
  = (Return (inl Stack.stack_is_empty), empty_list).
Proof. apply (Stack_empty_throws (empty_list (T := Z))). reflexivity. Defined.

(** X29, an instance: [Map] with the successor on the list [3,1,4,1,5], for
    all elements and for the first 2. *)
Lemma Map_maps_witness :
  (exists s', Algorithms.Map Z.succ example_list = (Return tt, s') /\
              holds s' (Z.succ <$> example_values)) /\
  (exists s', Algorithms.Map_n 2 Z.succ example_list = (Return tt, s') /\
              holds s' ((Z.succ <$> take (Z.to_nat 2) example_values)
                        ++ drop (Z.to_nat 2) example_values)).
Proof.
  apply (Map_maps example_list example_values 2 Z.succ);
    [exact example_list_holds|in_range].
Defined.

(** X30, an instance: [Reduce] with the sum from 0 on the list [3,1,4,1,5],
    for all elements and for the first 2. *)
Lemma Reduce_folds_witness :
  Algorithms.Reduce 0 Z.add example_list
  = (Return (foldl Z.add 0 example_values), example_list) /\
  Algorithms.Reduce_n 2 0 Z.add example_list
  = (Return (foldl Z.add 0 (take (Z.to_nat 2) example_values)),
     example_list).
Proof.
  apply (Reduce_folds example_list example_values 2 0 Z.add);
    [exact example_list_holds|in_range].
Defined.
